(** * soju: the per-user connection multiplexer, embedded in Rocq

    A shallow embedding of the parts of soju (an IRC bouncer written in Go)
    that the specification's testable properties talk about:

    - [GoString], [Utf8]: the few functions of Go's [strings] and
      [unicode/utf8] packages the code calls, on byte strings;
    - [Irc]: casemapping functions, the casemap-indexed map, the highlight
      test (irc.go);
    - [Upstream]: the highlight test of upstream.go, the NICK, QUIT, KICK
      and BATCH cases of [upstreamConn.handleMessage], the PREFIX token,
      [produce], the pending LIST machinery and registration errors
      (upstream.go);
    - [User]: the delivered store and the network run loop (user.go);
    - [Downstream]: [SendMessage], PING/PONG delivery receipts and backlog
      replay, user names and entity names, the capabilities that depend on
      the upstream connections (downstream.go);
    - [UserModes], [ChannelModes], [IrcHelpers]: user modes, the formatting
      of channel modes, client tags, numerics, member prefixes (irc.go);
    - [UserConns]: the list of the downstream connections (user.go);
    - [Logger]: the ring of the last messages of a log file (logger.go).

    A Go [string] is a [string] of Rocq (a list of 8-bit characters), a Go
    [map] is a [gmap], a slice is a [list], [uint64] and [int64] identifiers
    are [Z]. *)

From Stdlib Require Import ZArith Ascii String List Lia Bool.
From stdpp Require Import base option gmap strings pretty list fin_maps.

Local Open Scope string_scope.
Local Open Scope Z_scope.

(** ** Go strings *)

Module GoString.

Definition byte := ascii.

Definition byteZ (b : byte) : Z := Z.of_N (N_of_ascii b).

(** Conversion of an integer to [byte], with Go's wrap-around. *)
Definition Zbyte (z : Z) : byte := ascii_of_N (Z.to_N (z mod 256)).

(** [len(s)] *)
Definition len (s : string) : Z := Z.of_nat (String.length s).

(** [s[n:]] for [0 <= n <= len(s)], by number of bytes. *)
Fixpoint drop (n : nat) (s : string) : string :=
  match n, s with
  | O, _ => s
  | S n', String _ s' => drop n' s'
  | S _, EmptyString => EmptyString
  end.

(** [s[:n]] for [0 <= n <= len(s)]. *)
Fixpoint take (n : nat) (s : string) : string :=
  match n, s with
  | O, _ => EmptyString
  | S n', String c s' => String c (take n' s')
  | S _, EmptyString => EmptyString
  end.

Definition sliceFrom (s : string) (i : Z) : string := drop (Z.to_nat i) s.
Definition sliceTo (s : string) (i : Z) : string := take (Z.to_nat i) s.

(** [strings.HasPrefix(s, prefix)] *)
Fixpoint HasPrefix (s prefix : string) : bool :=
  match prefix, s with
  | EmptyString, _ => true
  | String p prefix', String c s' =>
      if Ascii.eqb p c then HasPrefix s' prefix' else false
  | String _ _, EmptyString => false
  end.

(** [strings.TrimPrefix(s, prefix)] *)
Definition TrimPrefix (s prefix : string) : string :=
  if HasPrefix s prefix then drop (String.length prefix) s else s.

(** [strings.Index(s, substr)]: the byte index of the first instance of
    [substr] in [s], or -1. *)
Fixpoint indexFrom (s substr : string) (pos : Z) : Z :=
  if HasPrefix s substr then pos
  else match s with
       | EmptyString => -1
       | String _ s' => indexFrom s' substr (pos + 1)
       end.

Definition Index (s substr : string) : Z := indexFrom s substr 0.

(** [strings.IndexByte(s, c) >= 0] *)
Fixpoint ContainsByte (s : string) (c : byte) : bool :=
  match s with
  | EmptyString => false
  | String b s' => if Ascii.eqb b c then true else ContainsByte s' c
  end.

(** [for i, r := range nameBytes { nameBytes[i] = f(r) }] *)
Fixpoint mapBytes (f : byte -> byte) (s : string) : string :=
  match s with
  | EmptyString => EmptyString
  | String c s' => String (f c) (mapBytes f s')
  end.

(** [strings.IndexByte(s, c)]: the index of the first [c] in [s], or -1. *)
Fixpoint indexByteFrom (s : string) (c : byte) (pos : Z) : Z :=
  match s with
  | EmptyString => -1
  | String b s' => if Ascii.eqb b c then pos else indexByteFrom s' c (pos + 1)
  end.

Definition IndexByte (s : string) (c : byte) : Z := indexByteFrom s c 0.

(** [strings.LastIndexByte(s, c)]: the index of the last [c] in [s], or -1. *)
Fixpoint lastIndexByteFrom (s : string) (c : byte) (pos : Z) : Z :=
  match s with
  | EmptyString => -1
  | String b s' =>
      let i := lastIndexByteFrom s' c (pos + 1) in
      if 0 <=? i then i else if Ascii.eqb b c then pos else -1
  end.

Definition LastIndexByte (s : string) (c : byte) : Z := lastIndexByteFrom s c 0.

(** [strings.IndexAny(s, chars)] and [strings.LastIndexAny(s, chars)] for
    [chars] made of ASCII bytes, as all the calls of the code have them:
    such a byte is a character of its own wherever it stands in [s], so the
    search by code points is the search by bytes. *)
Fixpoint indexAnyFrom (s chars : string) (pos : Z) : Z :=
  match s with
  | EmptyString => -1
  | String b s' =>
      if ContainsByte chars b then pos else indexAnyFrom s' chars (pos + 1)
  end.

Definition IndexAny (s chars : string) : Z := indexAnyFrom s chars 0.

Fixpoint lastIndexAnyFrom (s chars : string) (pos : Z) : Z :=
  match s with
  | EmptyString => -1
  | String b s' =>
      let i := lastIndexAnyFrom s' chars (pos + 1) in
      if 0 <=? i then i else if ContainsByte chars b then pos else -1
  end.

Definition LastIndexAny (s chars : string) : Z := lastIndexAnyFrom s chars 0.

(** [s[i:j]] for [0 <= i <= j <= len(s)]. *)
Definition slice (s : string) (i j : Z) : string :=
  take (Z.to_nat (j - i)) (drop (Z.to_nat i) s).

(** [s[i]] for [0 <= i < len(s)]; [None] is the panic of an index out of
    range. *)
Definition index (s : string) (i : Z) : option byte :=
  if i <? 0 then None else String.get (Z.to_nat i) s.

(** [string(c)] for a byte [c]: Go converts an integer to the UTF-8 encoding
    of the code point of that number, which takes two bytes from 128 on. *)
Definition stringOfByte (c : byte) : string :=
  if byteZ c <? 128 then String c EmptyString
  else String (Zbyte (Z.lor 192 (Z.shiftr (byteZ c) 6)))
         (String (Zbyte (Z.lor 128 (Z.land (byteZ c) 63))) EmptyString).

End GoString.

(** ** UTF-8 decoding, as [unicode/utf8] does it *)

Module Utf8.
Import GoString.

Definition rune := Z.

Definition RuneError : rune := 65533.
Definition RuneSelf : Z := 128.
Definition UTFMax : Z := 4.

(** Size of the sequence a first byte announces and the range accepted for
    the second byte; [None] for a byte that starts no sequence. *)
Definition first (b : Z) : option (Z * (Z * Z)) :=
  if b <? 194 then None
  else if b <? 224 then Some (2, (128, 191))
  else if b =? 224 then Some (3, (160, 191))
  else if b <? 237 then Some (3, (128, 191))
  else if b =? 237 then Some (3, (128, 159))
  else if b <? 240 then Some (3, (128, 191))
  else if b =? 240 then Some (4, (144, 191))
  else if b <? 244 then Some (4, (128, 191))
  else if b =? 244 then Some (4, (128, 143))
  else None.

Definition continuation (b : Z) : bool := (128 <=? b) && (b <=? 191).

(** [utf8.DecodeRuneInString] *)
Definition DecodeRuneInString (s : string) : rune * Z :=
  match s with
  | EmptyString => (RuneError, 0)
  | String c0 rest =>
      let s0 := byteZ c0 in
      if s0 <? RuneSelf then (s0, 1)
      else match first s0 with
           | None => (RuneError, 1)
           | Some (sz, (lo, hi)) =>
               if len s <? sz then (RuneError, 1)
               else match rest with
                    | EmptyString => (RuneError, 1)
                    | String c1 rest1 =>
                        let s1 := byteZ c1 in
                        if (s1 <? lo) || (hi <? s1) then (RuneError, 1)
                        else if sz <=? 2 then
                          (Z.lor (Z.shiftl (Z.land s0 31) 6) (Z.land s1 63), 2)
                        else match rest1 with
                             | EmptyString => (RuneError, 1)
                             | String c2 rest2 =>
                                 let s2 := byteZ c2 in
                                 if negb (continuation s2) then (RuneError, 1)
                                 else if sz <=? 3 then
                                   (Z.lor (Z.lor (Z.shiftl (Z.land s0 15) 12)
                                                 (Z.shiftl (Z.land s1 63) 6))
                                          (Z.land s2 63), 3)
                                 else match rest2 with
                                      | EmptyString => (RuneError, 1)
                                      | String c3 _ =>
                                          let s3 := byteZ c3 in
                                          if negb (continuation s3) then (RuneError, 1)
                                          else
                                            (Z.lor (Z.lor (Z.lor
                                               (Z.shiftl (Z.land s0 7) 18)
                                               (Z.shiftl (Z.land s1 63) 12))
                                               (Z.shiftl (Z.land s2 63) 6))
                                               (Z.land s3 63), 4)
                                      end
                             end
                    end
           end
  end.

(** [utf8.RuneStart] *)
Definition RuneStart (b : Z) : bool := negb (Z.land b 192 =? 128).

Definition byteAt (s : string) (i : Z) : Z :=
  match String.get (Z.to_nat i) s with
  | Some c => byteZ c
  | None => 0
  end.

(** The backwards scan of [DecodeLastRuneInString]:
    [for start--; start >= lim; start-- { if RuneStart(s[start]) { break } }],
    entered after the decrement, with [n] bounding the iterations. *)
Fixpoint scanBack (n : nat) (s : string) (start lim : Z) : Z :=
  match n with
  | O => start
  | S n' =>
      if start <? lim then start
      else if RuneStart (byteAt s start) then start
      else scanBack n' s (start - 1) lim
  end.

(** [utf8.DecodeLastRuneInString] *)
Definition DecodeLastRuneInString (s : string) : rune * Z :=
  let end_ := len s in
  if end_ =? 0 then (RuneError, 0)
  else
    let start := end_ - 1 in
    let r := byteAt s start in
    if r <? RuneSelf then (r, 1)
    else
      let lim := Z.max 0 (end_ - UTFMax) in
      let start := scanBack 4 s (start - 1) lim in
      let start := Z.max 0 start in
      let '(r, size) := DecodeRuneInString (sliceFrom s start) in
      if negb (start + size =? end_) then (RuneError, 1) else (r, size).

End Utf8.

(** The tables behind [unicode.IsLetter] and [unicode.IsNumber] are Go's; the
    code is read for any such pair of predicates. *)
Class Unicode := {
  IsLetter : Z -> bool;
  IsNumber : Z -> bool
}.

(** The ASCII part of the tables, for concrete runs. *)
Definition asciiTables : Unicode := {|
  IsLetter r := ((65 <=? r) && (r <=? 90)) || ((97 <=? r) && (r <=? 122));
  IsNumber r := (48 <=? r) && (r <=? 57)
|}.

(** ** irc.go: casemapping, name-indexed maps, highlights *)

Module Irc.
Import GoString Utf8.

Definition casemapping := string -> string.

Definition isUpper (r : byte) : bool :=
  (byteZ "A"%char <=? byteZ r) && (byteZ r <=? byteZ "Z"%char).

(** [r + 'a' - 'A'] on bytes *)
Definition toLower (r : byte) : byte := Zbyte (byteZ r + byteZ "a"%char - byteZ "A"%char).

Definition casemapNone (name : string) : string := name.

Definition casemapASCIIByte (r : byte) : byte :=
  if isUpper r then toLower r else r.

Definition casemapASCII (name : string) : string :=
  mapBytes casemapASCIIByte name.

Definition casemapRFC1459Byte (r : byte) : byte :=
  if isUpper r then toLower r
  else if Ascii.eqb r "{"%char then "["%char
  else if Ascii.eqb r "}"%char then "]"%char
  else if Ascii.eqb r "\"%char then "|"%char
  else if Ascii.eqb r "~"%char then "^"%char
  else r.

Definition casemapRFC1459 (name : string) : string :=
  mapBytes casemapRFC1459Byte name.

Definition casemapRFC1459StrictByte (r : byte) : byte :=
  if isUpper r then toLower r
  else if Ascii.eqb r "{"%char then "["%char
  else if Ascii.eqb r "}"%char then "]"%char
  else if Ascii.eqb r "\"%char then "|"%char
  else r.

Definition casemapRFC1459Strict (name : string) : string :=
  mapBytes casemapRFC1459StrictByte name.

Definition parseCasemappingToken (tokenValue : string) : option casemapping :=
  if String.eqb tokenValue "ascii" then Some casemapASCII
  else if String.eqb tokenValue "rfc1459" then Some casemapRFC1459
  else if String.eqb tokenValue "rfc1459-strict" then Some casemapRFC1459Strict
  else None.

(** [partialCasemap]: only the bytes that are not ASCII letters take the
    casemapped form. For a casemapping that keeps the length (all of the
    above do) [nameFullyCM[i]] exists; outside it Go panics, here the
    byte is kept. *)
Definition isASCIILetter (r : byte) : bool :=
  isUpper r || ((byteZ "a"%char <=? byteZ r) && (byteZ r <=? byteZ "z"%char)).

Fixpoint partialCasemapBytes (nameFullyCM nameBytes : string) : string :=
  match nameBytes with
  | EmptyString => EmptyString
  | String r rest =>
      let '(cm, restCM) :=
        match nameFullyCM with
        | String c restCM => (c, restCM)
        | EmptyString => (r, EmptyString)
        end in
      String (if negb (isASCIILetter r) then cm else r)
             (partialCasemapBytes restCM rest)
  end.

Definition partialCasemap (higher : casemapping) (name : string) : string :=
  partialCasemapBytes (higher name) name.

(** *** [casemapMap] *)

Record casemapEntry (V : Type) := mkEntry {
  originalKey : string;
  value : V
}.
Arguments mkEntry {V} _ _.
Arguments originalKey {V} _.
Arguments value {V} _.

Record casemapMap (V : Type) := mkCasemapMap {
  innerMap : gmap string (casemapEntry V);
  casemap : casemapping
}.
Arguments mkCasemapMap {V} _ _.
Arguments innerMap {V} _.
Arguments casemap {V} _.

Section CasemapMap.
Context {V : Type}.

Definition newCasemapMap : casemapMap V :=
  {| innerMap := ∅; casemap := casemapNone |}.

(** [OriginalKey] returns [("", false)] for a missing name: [None]. *)
Definition OriginalKey (cm : casemapMap V) (name : string) : option string :=
  originalKey <$> innerMap cm !! casemap cm name.

Definition Has (cm : casemapMap V) (name : string) : bool :=
  bool_decide (is_Some (innerMap cm !! casemap cm name)).

Definition Len (cm : casemapMap V) : Z := Z.of_nat (size (innerMap cm)).

Definition SetValue (name : string) (v : V) (cm : casemapMap V) : casemapMap V :=
  let nameCM := casemap cm name in
  match innerMap cm !! nameCM with
  | None =>
      {| innerMap := <[nameCM := {| originalKey := name; value := v |}]> (innerMap cm);
         casemap := casemap cm |}
  | Some entry =>
      {| innerMap := <[nameCM := {| originalKey := originalKey entry; value := v |}]>
                       (innerMap cm);
         casemap := casemap cm |}
  end.

Definition Delete (name : string) (cm : casemapMap V) : casemapMap V :=
  {| innerMap := delete (casemap cm name) (innerMap cm); casemap := casemap cm |}.

(** The loop of [SetCasemapping],
    [for _, entry := range cm.innerMap { newInnerMap[cm.casemap(entry.originalKey)] = entry }],
    over the entries in the order the range statement yields them. *)
Fixpoint rehash (newCasemap : casemapping) (entries : list (casemapEntry V))
    (newInnerMap : gmap string (casemapEntry V)) : gmap string (casemapEntry V) :=
  match entries with
  | [] => newInnerMap
  | entry :: rest =>
      rehash newCasemap rest (<[newCasemap (originalKey entry) := entry]> newInnerMap)
  end.

(** Go leaves the iteration order of a map unspecified: [order] is the
    order in which the range statement visits the inner map. *)
Definition SetCasemappingInOrder (order : list (string * casemapEntry V))
    (newCasemap : casemapping) (cm : casemapMap V) : casemapMap V :=
  {| innerMap := rehash newCasemap (order.*2) ∅; casemap := newCasemap |}.

Definition iterationOrder (cm : casemapMap V) (order : list (string * casemapEntry V)) : Prop :=
  order ≡ₚ map_to_list (innerMap cm).

(** [SetCasemapping] with one possible order. *)
Definition SetCasemapping (newCasemap : casemapping) (cm : casemapMap V) : casemapMap V :=
  SetCasemappingInOrder (map_to_list (innerMap cm)) newCasemap cm.

(** The typed wrappers' [Value]: [nil] for a missing name. *)
Definition Value (cm : casemapMap V) (name : string) : option V :=
  value <$> innerMap cm !! casemap cm name.

(** Every entry sits under the casemapped form of its original key. *)
Definition wellKeyed (cm : casemapMap V) : Prop :=
  ∀ k entry, innerMap cm !! k = Some entry → casemap cm (originalKey entry) = k.

End CasemapMap.

(** *** Highlights (irc.go) *)

Definition isWordBoundary {tables : Unicode} (r : rune) : bool :=
  if (r =? byteZ "-"%char) || (r =? byteZ "_"%char) || (r =? byteZ "|"%char)
  then false
  else negb (IsLetter r) && negb (IsNumber r).

(** The loop of [isHighlight]; [fuel] bounds the number of iterations and
    [None] says the bound was reached before the loop returned. *)
Fixpoint isHighlightFuel {tables : Unicode} (fuel : nat) (text nick : string) : option bool :=
  match fuel with
  | O => None
  | S fuel' =>
      let i := Index text nick in
      if i <? 0 then Some false
      else
        let left := (DecodeLastRuneInString (sliceTo text i)).1 in
        let right := (DecodeRuneInString (sliceFrom text (i + len nick))).1 in
        if isWordBoundary left && isWordBoundary right then Some true
        else isHighlightFuel fuel' (sliceFrom text (i + len nick)) nick
  end.

(** [isHighlight] with as many iterations as [text] has bytes, and one
    more; [None] stands for a loop that never returns
    (see [isHighlight_None_diverges]). *)
Definition isHighlight {tables : Unicode} (text nick : string) : option bool :=
  isHighlightFuel (S (String.length text)) text nick.

End Irc.

(** ** upstream.go: the highlight test of the upstream connection *)

Module UpstreamHighlight.
Import GoString Utf8.

Definition isWordBoundary {tables : Unicode} (r : rune) : bool :=
  if (r =? byteZ "-"%char) || (r =? byteZ "_"%char) || (r =? byteZ "|"%char)
  then false
  else if r =? 160 then true
  else negb (IsLetter r) && negb (IsNumber r).

Fixpoint isHighlightFuel {tables : Unicode} (fuel : nat) (text nick : string) : option bool :=
  match fuel with
  | O => None
  | S fuel' =>
      let i := Index text nick in
      if i <? 0 then Some false
      else
        let left := if 0 <? i then (DecodeLastRuneInString (sliceTo text i)).1 else 0 in
        let right :=
          if i <? len text then (DecodeRuneInString (sliceFrom text (i + len nick))).1
          else 0 in
        if isWordBoundary left && isWordBoundary right then Some true
        else isHighlightFuel fuel' (sliceFrom text (i + len nick)) nick
  end.

Definition isHighlight {tables : Unicode} (text nick : string) : option bool :=
  isHighlightFuel (S (String.length text)) text nick.

End UpstreamHighlight.

(** ** gopkg.in/irc.v3: messages *)

Module irc.

Record Prefix := mkPrefix {
  Name : string;
  User : string;
  Host : string
}.

(** [Tags] is a Go map from tag names to values; [MPrefix] is the [Prefix]
    field, [None] for a nil pointer. *)
Record Message := mkMessage {
  Tags : gmap string string;
  MPrefix : option Prefix;
  Command : string;
  Params : list string
}.

Definition RPL_TRYAGAIN := "263".
Definition RPL_LIST := "322".
Definition RPL_LISTEND := "323".
Definition ERR_UNKNOWNCOMMAND := "421".
Definition ERR_NEEDMOREPARAMS := "461".

End irc.

(** ** Go errors *)

(** Modelled from the spec: the sources have [type registrationError string]
    and a caller of [registrationError.Temporary] and
    [registrationError.Reason], but not the type that carries the "temporary?"
    bit. The error records the numeric it was raised from. *)
Record registrationError := mkRegistrationError {
  re_Command : string;
  re_Reason : string
}.

(** An [error] value: a plain text ([fmt.Errorf] without [%w], [errors.New]),
    an [ircError], a [registrationError], or an error wrapped with [%w]. *)
Inductive error :=
| errText (text : string)
| errIrc (msg : irc.Message)
| errRegistration (err : registrationError)
| errWrap (text : string) (inner : error).

Inductive result (A : Type) :=
| Ok (a : A)
| Err (e : error).
Arguments Ok {A} _.
Arguments Err {A} _.


Definition newNeedMoreParamsError (cmd : string) : error :=
  errIrc {| irc.Tags := ∅; irc.MPrefix := None;
            irc.Command := irc.ERR_NEEDMOREPARAMS;
            irc.Params := ["*"; cmd; "Not enough parameters"] |}.

(** ** msgstore.Store *)

(** The message store is a Go interface; [None] is a returned error. The
    network is passed by its id, the clock is part of the store's state. *)
Class Store (S : Type) := {
  LastMsgID : S → Z → string → option string;
  LoadLatestID : S → Z → string → string → Z → option (list irc.Message);
  Append : S → Z → string → irc.Message → option (S * string);
  (** Modelled from the spec: the store is an external collaborator; a load
      with a limit returns at most that many messages. *)
  LoadLatestID_limit : ∀ s net entity id limit history,
    LoadLatestID s net entity id limit = Some history →
    Z.of_nat (length history) ≤ Z.max 0 limit
}.

(** [msgstore.parseMsgID] is not part of the sources: it splits an internal
    message id into the id of the network and the entity it was recorded
    for, and fails on anything else. *)
Class MsgIDs := {
  parseMsgID : string → option (Z * string)
}.

(** ** database.Channel *)

Inductive MessageFilter := FilterDefault | FilterNone | FilterHighlight | FilterMessage.

Global Instance MessageFilter_eq_dec : EqDecision MessageFilter.
Proof. solve_decision. Defined.

Record Channel := mkChannel {
  ch_Name : string;
  ch_Key : string;
  ch_Detached : bool;
  ch_DetachedInternalMsgID : string;
  ch_RelayDetached : MessageFilter;
  ch_ReattachOn : MessageFilter;
  ch_DetachAfter : Z;
  ch_DetachOn : MessageFilter
}.

(** ** downstream.go: the downstream connection record *)

(** [dc_id] stands for the pointer as well: ids are handed out once.
    [dc_network] is the id of the bound network, [None] for nil.
    [dc_caps] is [map[string]bool]; a missing key reads as [false]. *)
Record downstreamConn := mkDownstreamConn {
  dc_id : Z;
  dc_nick : string;
  dc_username : string;
  dc_hostname : string;
  dc_clientName : string;
  dc_network : option Z;
  dc_caps : gmap string bool
}.

(** [dc.caps[name]] *)
Definition cap (caps : gmap string bool) (name : string) : bool :=
  default false (caps !! name).

(** ** upstream.go *)

Module Upstream.
Import GoString.

Record membership := mkMembership {
  m_Mode : byte;
  m_Prefix : byte
}.

Definition memberships := list membership.

Record upstreamChannel := mkUpstreamChannel {
  uch_Name : string;
  uch_Topic : string;
  uch_Members : gmap string memberships;
  uch_complete : bool
}.

Record upstreamConn := mkUpstreamConn {
  uc_registered : bool;
  uc_nick : string;
  uc_channels : gmap string upstreamChannel;
  uc_caps : gmap string bool;
  uc_nextLabelID : Z;
  uc_pendingLISTDownstreamSet : gset Z
}.

Record networkHistory := mkNetworkHistory {
  nh_clients : gmap string string
}.

Record network := mkNetwork {
  net_ID : Z;
  net_conn : option upstreamConn;
  net_channels : gmap string Channel;
  net_history : gmap string networkHistory;
  net_offlineClients : gset string
}.

Record pendingLIST := mkPendingLIST {
  pl_downstreamID : Z;
  pl_pendingCommands : gmap Z irc.Message
}.

(** The user, with what the upstream code reaches through [uc.user],
    [uc.network] and [uc.srv]. A pointer to a network (and to its upstream
    connection) is its position in [u_networks]; network ids are the
    database's primary keys and a downstream's [dc_network] is compared
    through them. *)
Record user (S : Type) := mkUser {
  u_Hostname : string;
  u_networks : list network;
  u_downstreamConns : list downstreamConn;
  u_pendingLISTs : list pendingLIST;
  u_msgStore : option S
}.
Arguments mkUser {S} _ _ _ _ _.
Arguments u_Hostname {S} _.
Arguments u_networks {S} _.
Arguments u_downstreamConns {S} _.
Arguments u_pendingLISTs {S} _.
Arguments u_msgStore {S} _.

(** What the upstream code does to the outside: calls of methods of a
    downstream connection (named by its id), messages written to an upstream
    connection (named by the position of its network), log lines. *)
Inductive event :=
| DownstreamSendMessage (id : Z) (msg : irc.Message)
    (* dc.SendMessage(msg) *)
| DownstreamForward (id : Z) (msg : irc.Message) (net : Z)
    (* dc.SendMessage(dc.marshalMessage(msg, uc.network)) *)
| DownstreamSendMessageWithID (id : Z) (msg : irc.Message) (net : Z) (msgID : string)
    (* dc.sendMessageWithID(dc.marshalMessage(msg, uc.network), msgID) *)
| DownstreamAdvanceMessageWithID (id : Z) (msg : irc.Message) (msgID : string)
    (* dc.advanceMessageWithID(msg, msgID) *)
| DownstreamUpdateNick (id : Z)
    (* dc.updateNick() *)
| DownstreamUnhandled (id : Z) (msg : irc.Message)
    (* the best-effort forwarding of the default case *)
| UpstreamWrite (net : nat) (msg : irc.Message)
    (* uc.conn.SendMessage(msg) *)
| AppendLog (entity : string) (msg : irc.Message)
    (* uc.appendLog(entity, msg), where it is not run on the user *)
| Logf (text : string).

Section WithStore.
Context {S : Type} {storeOps : Store S}.

Implicit Types (u : user S) (uc : upstreamConn) (net : network) (msg : irc.Message).

(** [net.forEachDownstream]: the downstream connections bound to the
    network, in the order of [user.downstreamConns]. *)
Definition forEachDownstream (net : network) (u : user S) : list downstreamConn :=
  filter (λ dc, dc_network dc = Some (net_ID net)) (u_downstreamConns u).

(** [uc.forEachDownstreamByID] *)
Definition forEachDownstreamByID (id : Z) (net : network) (u : user S) : list downstreamConn :=
  filter (λ dc, ¬ (id ≠ 0 ∧ id ≠ dc_id dc)) (forEachDownstream net u).

Definition setNetwork (j : nat) (net : network) (u : user S) : user S :=
  {| u_Hostname := u_Hostname u;
     u_networks := <[j := net]> (u_networks u);
     u_downstreamConns := u_downstreamConns u;
     u_pendingLISTs := u_pendingLISTs u;
     u_msgStore := u_msgStore u |}.

Definition setConn (uc : option upstreamConn) (net : network) : network :=
  {| net_ID := net_ID net; net_conn := uc; net_channels := net_channels net;
     net_history := net_history net; net_offlineClients := net_offlineClients net |}.

Definition setPendingLISTs (pls : list pendingLIST) (u : user S) : user S :=
  {| u_Hostname := u_Hostname u;
     u_networks := u_networks u;
     u_downstreamConns := u_downstreamConns u;
     u_pendingLISTs := pls;
     u_msgStore := u_msgStore u |}.

(** *** The NICK case of [handleMessage] *)

(** The body of [for _, ch := range uc.channels], on one channel. *)
Definition renameMember (oldNick newNick : string) (ch : upstreamChannel) : upstreamChannel :=
  match uch_Members ch !! oldNick with
  | Some ms =>
      {| uch_Name := uch_Name ch; uch_Topic := uch_Topic ch;
         uch_Members := <[newNick := ms]> (delete oldNick (uch_Members ch));
         uch_complete := uch_complete ch |}
  | None => ch
  end.

(** [dcs] are the downstream connections [uc.forEachDownstream] visits and
    [netID] is [uc.network]. [appendLog] and the calls on the downstream
    connections leave [uc.nick] and [uc.channels] alone: they are events.
    The channels are logged in the order [map_to_list] gives, one of the
    orders of Go's range. *)
Definition handleMessage_NICK (netID : Z) (dcs : list downstreamConn)
    (msg : irc.Message) (uc : upstreamConn) : result (upstreamConn * list event) :=
  match irc.MPrefix msg with
  | None => Err (errText "expected a prefix")
  | Some prefix =>
      match irc.Params msg with
      | [] => Err (newNeedMoreParamsError (irc.Command msg))
      | newNick :: _ =>
          let me := bool_decide (irc.Name prefix = uc_nick uc) in
          let logged :=
            filter (λ kv, is_Some (uch_Members kv.2 !! irc.Name prefix))
                   (map_to_list (uc_channels uc)) in
          let uc' :=
            {| uc_registered := uc_registered uc;
               uc_nick := if me then newNick else uc_nick uc;
               uc_channels := renameMember (irc.Name prefix) newNick <$> uc_channels uc;
               uc_caps := uc_caps uc;
               uc_nextLabelID := uc_nextLabelID uc;
               uc_pendingLISTDownstreamSet := uc_pendingLISTDownstreamSet uc |} in
          Ok (uc',
              ((if me then [Logf "changed nick"] else [])
               ++ ((λ kv, AppendLog (uch_Name kv.2) msg) <$> logged)
               ++ (if me then (λ dc, DownstreamUpdateNick (dc_id dc)) <$> dcs
                   else (λ dc, DownstreamForward (dc_id dc) msg netID) <$> dcs))%list)
      end
  end.

(** *** The case of the registration numerics of [handleMessage] *)




(** *** Pending LIST commands *)

(** [uc.SendMessageLabeled(downstreamID, msg)]: the connection, the message
    as the caller sees it afterwards (the label is set on the caller's
    message), and the message written. *)
Definition SendMessageLabeled (downstreamID : Z) (msg : irc.Message) (uc : upstreamConn)
    : upstreamConn * irc.Message * irc.Message :=
  let '(uc1, msg1) :=
    if cap (uc_caps uc) "labeled-response" then
      ({| uc_registered := uc_registered uc; uc_nick := uc_nick uc;
          uc_channels := uc_channels uc; uc_caps := uc_caps uc;
          uc_nextLabelID := (uc_nextLabelID uc + 1) mod 2 ^ 64;
          uc_pendingLISTDownstreamSet := uc_pendingLISTDownstreamSet uc |},
       {| irc.Tags :=
            <["label" := "sd-" +:+ pretty downstreamID +:+ "-" +:+ pretty (uc_nextLabelID uc)]>
              (irc.Tags msg);
          irc.MPrefix := irc.MPrefix msg; irc.Command := irc.Command msg;
          irc.Params := irc.Params msg |})
    else (uc, msg) in
  let written :=
    if negb (cap (uc_caps uc) "message-tags") then
      {| irc.Tags := ∅; irc.MPrefix := irc.MPrefix msg1;
         irc.Command := irc.Command msg1; irc.Params := irc.Params msg1 |}
    else msg1 in
  (uc1, msg1, written).

Definition setPendingLISTDownstreamSet (set : gset Z) (uc : upstreamConn) : upstreamConn :=
  {| uc_registered := uc_registered uc; uc_nick := uc_nick uc;
     uc_channels := uc_channels uc; uc_caps := uc_caps uc;
     uc_nextLabelID := uc_nextLabelID uc;
     uc_pendingLISTDownstreamSet := set |}.

(** The loop of [trySendLIST]: the position of the first pending LIST of the
    downstream that has a command for the network, and that command. *)
Fixpoint findPendingCommand (downstreamID netID : Z) (pls : list pendingLIST) (i : nat)
    : option (nat * irc.Message) :=
  match pls with
  | [] => None
  | pl :: rest =>
      if bool_decide (pl_downstreamID pl ≠ downstreamID)
      then findPendingCommand downstreamID netID rest (Datatypes.S i)
      else match pl_pendingCommands pl !! netID with
           | None => findPendingCommand downstreamID netID rest (Datatypes.S i)
           | Some listCommand => Some (i, listCommand)
           end
  end.

Definition setCommand (netID : Z) (msg : irc.Message) (pl : pendingLIST) : pendingLIST :=
  {| pl_downstreamID := pl_downstreamID pl;
     pl_pendingCommands := <[netID := msg]> (pl_pendingCommands pl) |}.

(** [uc.trySendLIST(downstreamID)], for the connection of the network at
    position [j]. *)
Definition trySendLIST (j : nat) (downstreamID : Z) (u : user S) : user S * list event :=
  match u_networks u !! j with
  | None => (u, [])
  | Some net =>
      match net_conn net with
      | None => (u, [])
      | Some uc =>
          if bool_decide (downstreamID ∈ uc_pendingLISTDownstreamSet uc) then (u, [])
          else
            match findPendingCommand downstreamID (net_ID net) (u_pendingLISTs u) 0 with
            | None => (u, [])
            | Some (i, listCommand) =>
                let '(uc1, labeled, written) :=
                  SendMessageLabeled downstreamID listCommand uc in
                let uc2 :=
                  setPendingLISTDownstreamSet
                    ({[downstreamID]} ∪ uc_pendingLISTDownstreamSet uc1) uc1 in
                (setPendingLISTs
                   (alter (setCommand (net_ID net) labeled) i (u_pendingLISTs u))
                   (setNetwork j (setConn (Some uc2) net) u),
                 [UpstreamWrite j written])
            end
      end
  end.

(** [uc.user.forEachUpstream(func(uc) { uc.trySendLIST(downstreamID) })]:
    the networks that have a connection, in the order of [user.networks];
    [positions] are the positions left to visit. *)
Fixpoint trySendLISTs (positions : list nat) (downstreamID : Z) (u : user S)
    : user S * list event :=
  match positions with
  | [] => (u, [])
  | j :: rest =>
      let '(u1, events1) := trySendLIST j downstreamID u in
      let '(u2, events2) := trySendLISTs rest downstreamID u1 in
      (u2, (events1 ++ events2)%list)
  end.

Definition endCommand (netID : Z) (pl : pendingLIST) : pendingLIST :=
  {| pl_downstreamID := pl_downstreamID pl;
     pl_pendingCommands := delete netID (pl_pendingCommands pl) |}.

(** The synthesized RPL_LISTEND of [endPendingLISTs]. *)
Definition listEnd (hostname : string) (dc : downstreamConn) : irc.Message :=
  {| irc.Tags := ∅;
     irc.MPrefix := Some {| irc.Name := hostname; irc.User := ""; irc.Host := "" |};
     irc.Command := irc.RPL_LISTEND;
     irc.Params := [dc_nick dc; "End of /LIST"] |}.

(** The loop of [endPendingLISTs] over [uc.user.pendingLISTs]: the pending
    LISTs left, the events, and the pending LISTs whose command for the
    network was deleted (all of them with [all], the first one without). *)
Fixpoint endPendingLISTsLoop (all : bool) (net : network) (u : user S)
    (pls : list pendingLIST) : list pendingLIST * list event * list pendingLIST :=
  match pls with
  | [] => ([], [], [])
  | pl :: rest =>
      match pl_pendingCommands pl !! net_ID net with
      | None =>
          let '(rest', events, ended) := endPendingLISTsLoop all net u rest in
          (pl :: rest', events, ended)
      | Some _ =>
          let pl' := endCommand (net_ID net) pl in
          let empty := bool_decide (size (pl_pendingCommands pl') = 0%nat) in
          let kept := if empty then [] else [pl'] in
          let sent :=
            if empty then
              (λ dc, DownstreamSendMessage (dc_id dc) (listEnd (u_Hostname u) dc))
                <$> forEachDownstreamByID (pl_downstreamID pl) net u
            else [] in
          if all then
            let '(rest', events, ended) := endPendingLISTsLoop all net u rest in
            ((kept ++ rest')%list, (sent ++ events)%list, pl' :: ended)
          else ((kept ++ rest)%list, sent, [pl'])
      end
  end.

(** [uc.endPendingLISTs(all)], for the connection of the network at position
    [j]. *)
Definition endPendingLISTs (j : nat) (all : bool) (u : user S) : user S * list event * bool :=
  match u_networks u !! j with
  | None => (u, [], false)
  | Some net =>
      match net_conn net with
      | None => (u, [], false)
      | Some uc =>
          let '(pls, events, ended) := endPendingLISTsLoop all net u (u_pendingLISTs u) in
          let u1 := setPendingLISTs pls u in
          match ended with
          | [] => (u1, events, false)
          | pl :: _ =>
              if all then (u1, events, true)
              else
                let uc' :=
                  setPendingLISTDownstreamSet
                    (uc_pendingLISTDownstreamSet uc ∖ {[pl_downstreamID pl]}) uc in
                let u2 := setNetwork j (setConn (Some uc') net) u1 in
                let '(u3, events') :=
                  trySendLISTs (seq 0 (length (u_networks u2))) (pl_downstreamID pl) u2 in
                (u3, (events ++ events')%list, true)
          end
      end
  end.

(** The RPL_LISTEND case of [handleMessage]. *)
Definition handleMessage_LISTEND (j : nat) (u : user S) : result (user S * list event) :=
  let '(u', events, ok) := endPendingLISTs j false u in
  if negb ok then Err (errText "unexpected RPL_LISTEND: no matching pending LIST")
  else Ok (u', events).


(** *** Counting the replies to LIST *)



Definition isListEndFor (id : Z) (e : event) : Prop :=
  match e with
  | DownstreamSendMessage id' msg => id' = id ∧ irc.Command msg = irc.RPL_LISTEND
  | _ => False
  end.

#[global] Instance isListEndFor_dec (id : Z) (e : event) : Decision (isListEndFor id e).
Proof. destruct e; simpl; apply _. Defined.





(** RPL_LISTEND received from the upstream connections of the networks at
    the positions [js], one after the other; a reply that matches no
    pending LIST is an error of [handleMessage], which the user loop logs. *)
Fixpoint handleMessage_LISTENDs (js : list nat) (u : user S) : user S * list event :=
  match js with
  | [] => (u, [])
  | j :: rest =>
      match handleMessage_LISTEND j u with
      | Ok (u1, events1) =>
          let '(u2, events2) := handleMessage_LISTENDs rest u1 in
          (u2, (events1 ++ events2)%list)
      | Err _ => handleMessage_LISTENDs rest u
      end
  end.

(** *** Logging and forwarding *)

Definition setHistory (history : gmap string networkHistory) (net : network) : network :=
  {| net_ID := net_ID net; net_conn := net_conn net; net_channels := net_channels net;
     net_history := history; net_offlineClients := net_offlineClients net |}.

Definition setMsgStore (store : option S) (u : user S) : user S :=
  {| u_Hostname := u_Hostname u; u_networks := u_networks u;
     u_downstreamConns := u_downstreamConns u; u_pendingLISTs := u_pendingLISTs u;
     u_msgStore := store |}.

(** [uc.appendLog(entity, msg)], for the connection of the network at
    position [j]: the user and the internal message id, "" when the message
    is not recorded. *)
Definition appendLog (j : nat) (entity : string) (msg : irc.Message) (u : user S)
    : user S * string :=
  match u_msgStore u, u_networks u !! j with
  | Some store, Some net =>
      let detached :=
        match net_channels net !! entity with
        | Some ch => ch_Detached ch
        | None => false
        end in
      let recorded :=
        match net_history net !! entity with
        | Some _ => Some u
        | None =>
            match LastMsgID store (net_ID net) entity with
            | None => None
            | Some lastID =>
                let offline : gmap string string :=
                  gset_to_gmap lastID (net_offlineClients net) in
                let clients :=
                  if detached then
                    foldl (λ clients dc, <[dc_clientName dc := lastID]> clients)
                          offline (forEachDownstream net u)
                  else offline in
                Some (setNetwork j
                        (setHistory (<[entity := {| nh_clients := clients |}]>
                                       (net_history net)) net) u)
            end
        end in
      match recorded with
      | None => (u, "")
      | Some u1 =>
          match Append store (net_ID net) entity msg with
          | None => (u1, "")
          | Some (store', msgID) => (setMsgStore (Some store') u1, msgID)
          end
      end
  | _, _ => (u, "")
  end.

(** [uc.produce(target, msg, origin)], for the connection of the network at
    position [j]; [origin] is the id of the downstream connection the
    message comes from, [None] for nil. *)
Definition produce (j : nat) (target : string) (msg : irc.Message) (origin : option Z)
    (u : user S) : user S * list event :=
  let '(u1, msgID) :=
    if bool_decide (target ≠ "") then appendLog j target msg u else (u, "") in
  match u_networks u1 !! j with
  | None => (u1, [])
  | Some net =>
      let detached :=
        match net_channels net !! target with
        | Some ch => ch_Detached ch
        | None => false
        end in
      if detached then (u1, [])
      else
        (u1,
         (λ dc,
            if bool_decide (Some (dc_id dc) ≠ origin) || cap (dc_caps dc) "echo-message"
            then DownstreamSendMessageWithID (dc_id dc) msg (net_ID net) msgID
            else DownstreamAdvanceMessageWithID (dc_id dc) msg msgID)
           <$> forEachDownstream net u1)
  end.

(** *** The QUIT and KICK cases of [handleMessage] *)

Definition setMembers (members : gmap string memberships) (ch : upstreamChannel)
    : upstreamChannel :=
  {| uch_Name := uch_Name ch; uch_Topic := uch_Topic ch;
     uch_Members := members; uch_complete := uch_complete ch |}.

Definition setChannels (channels : gmap string upstreamChannel) (uc : upstreamConn)
    : upstreamConn :=
  {| uc_registered := uc_registered uc; uc_nick := uc_nick uc;
     uc_channels := channels; uc_caps := uc_caps uc;
     uc_nextLabelID := uc_nextLabelID uc;
     uc_pendingLISTDownstreamSet := uc_pendingLISTDownstreamSet uc |}.

(** The body of [for _, ch := range uc.channels] of the QUIT case, on one
    channel. *)
Definition removeMember (nick : string) (ch : upstreamChannel) : upstreamChannel :=
  match uch_Members ch !! nick with
  | Some _ => setMembers (delete nick (uch_Members ch)) ch
  | None => ch
  end.

(** The QUIT case; [msg] is the message as the prologue of [handleMessage]
    leaves it (with a time tag), [dcs] and [netID] are as for the NICK case,
    and the channels are logged in the order [map_to_list] gives. *)
Definition handleMessage_QUIT (netID : Z) (dcs : list downstreamConn)
    (msg : irc.Message) (uc : upstreamConn) : result (upstreamConn * list event) :=
  match irc.MPrefix msg with
  | None => Err (errText "expected a prefix")
  | Some prefix =>
      let me := bool_decide (irc.Name prefix = uc_nick uc) in
      let logged :=
        filter (λ kv, is_Some (uch_Members kv.2 !! irc.Name prefix))
               (map_to_list (uc_channels uc)) in
      Ok (setChannels (removeMember (irc.Name prefix) <$> uc_channels uc) uc,
          ((if me then [Logf "quit"] else [])
           ++ ((λ kv, AppendLog (uch_Name kv.2) msg) <$> logged)
           ++ (if negb me then (λ dc, DownstreamForward (dc_id dc) msg netID) <$> dcs
               else []))%list)
  end.

(** [uc.getChannel(name)]; the text of the error has the name quoted. *)
Definition getChannel (uc : upstreamConn) (name : string) : result upstreamChannel :=
  match uc_channels uc !! name with
  | Some ch => Ok ch
  | None => Err (errText ("unknown channel " +:+ name))
  end.

(** The KICK case, for the connection of the network at position [j], which
    is there. The member is deleted from the map the channel holds, which
    is the channel of [uc.channels]. *)
Definition handleMessage_KICK (j : nat) (msg : irc.Message) (u : user S)
    : result (user S * list event) :=
  match u_networks u !! j with
  | None => Ok (u, [])
  | Some net =>
      match net_conn net with
      | None => Ok (u, [])
      | Some uc =>
          match irc.MPrefix msg with
          | None => Err (errText "expected a prefix")
          | Some prefix =>
              match irc.Params msg with
              | channel :: user :: _ =>
                  let kicked : result (upstreamConn * list event) :=
                    if bool_decide (user = uc_nick uc) then
                      Ok (setChannels (delete channel (uc_channels uc)) uc,
                          [Logf "kicked from channel"])
                    else
                      match getChannel uc channel with
                      | Err err => Err err
                      | Ok ch =>
                          Ok (setChannels
                                (<[channel := setMembers (delete user (uch_Members ch)) ch]>
                                   (uc_channels uc)) uc,
                              [])
                      end in
                  match kicked with
                  | Err err => Err err
                  | Ok (uc', events) =>
                      let '(u', events') :=
                        produce j channel msg None
                                (setNetwork j (setConn (Some uc') net) u) in
                      Ok (u', (events ++ events')%list)
                  end
              | _ => Err (newNeedMoreParamsError (irc.Command msg))
              end
          end
      end
  end.

(** *** Membership prefixes *)

(** [uc.parseMembershipPrefix(s)] over [uc.availableMemberships]; the
    string is [s[i:]], what is left of [s] after the prefixes read so far,
    and the loop breaks when nothing is left. *)
Fixpoint parseMembershipPrefix (available : list membership) (s : string)
    : memberships * string :=
  match available with
  | [] => ([], s)
  | m :: rest =>
      match s with
      | EmptyString => ([], s)
      | String c s' =>
          if Ascii.eqb c (m_Prefix m)
          then let '(ms, nick) := parseMembershipPrefix rest s' in (m :: ms, nick)
          else parseMembershipPrefix rest s
      end
  end.

(** [membership{Mode: value[i+1], Prefix: value[sep+i+1]}]; [None] is the
    panic of an index out of range. *)
Definition membershipAt (value : string) (sep : Z) (i : nat) : option membership :=
  mode ← index value (Z.of_nat i + 1);
  prefix ← index value (sep + Z.of_nat i + 1);
  Some {| m_Mode := mode; m_Prefix := prefix |}.

Definition errMalformedPrefix (value : string) : error :=
  errText ("malformed ISUPPORT PREFIX value: " +:+ value).

(** The PREFIX token of the RPL_ISUPPORT case: the value of
    [uc.availableMemberships] (nil is the empty list), an error, or [None]
    for a panic. *)
Definition parsePrefixValue (value : string) : option (result (list membership)) :=
  if bool_decide (value = "") then Some (Ok [])
  else
    c ← index value 0;
    if negb (Ascii.eqb c "("%char) then Some (Err (errMalformedPrefix value))
    else
      let sep := IndexByte value ")"%char in
      if (sep <? 0) || negb (len value =? sep * 2)
      then Some (Err (errMalformedPrefix value))
      else
        Ok <$> mapM (membershipAt value sep)
                    (seq 0 (Z.to_nat (Z.quot (len value) 2 - 1))).

(** *** Batches *)

(** [type batch struct]; [b_Outer] is the pointer to the enclosing batch. *)
#[local] Unset Elimination Schemes.
Inductive batch := mkBatch {
  b_Type : string;
  b_Params : list string;
  b_Outer : option batch;
  b_Label : string
}.
#[local] Set Elimination Schemes.

(** The prologue of [handleMessage], as far as batches go: the batch the
    tag of the message names. *)
Definition messageBatch (batches : gmap string batch) (msg : irc.Message)
    : result (option batch) :=
  match irc.Tags msg !! "batch" with
  | None => Ok None
  | Some batchName =>
      match batches !! batchName with
      | None => Err (errText "unexpected batch reference: batch was not defined")
      | Some b => Ok (Some b)
      end
  end.

(** The BATCH case of [handleMessage] on [uc.batches]; [label] and
    [msgBatch] are those of the prologue. The texts of the errors end with
    the quoted tag, which is left out. *)
Definition handleMessage_BATCH (label : string) (msgBatch : option batch)
    (msg : irc.Message) (batches : gmap string batch) : result (gmap string batch) :=
  match irc.Params msg with
  | [] => Err (newNeedMoreParamsError (irc.Command msg))
  | tag :: after =>
      if HasPrefix tag "+" then
        let tag := sliceFrom tag 1 in
        match batches !! tag with
        | Some _ =>
            Err (errText "unexpected BATCH reference tag: batch was already defined")
        | None =>
            match after with
            | [] => Err (newNeedMoreParamsError (irc.Command msg))
            | batchType :: params =>
                let label :=
                  match msgBatch with
                  | Some b => if bool_decide (label = "") then b_Label b else label
                  | None => label
                  end in
                Ok (<[tag := {| b_Type := batchType; b_Params := params;
                                b_Outer := msgBatch; b_Label := label |}]> batches)
            end
        end
      else if HasPrefix tag "-" then
        let tag := sliceFrom tag 1 in
        match batches !! tag with
        | None => Err (errText "unknown BATCH reference tag")
        | Some _ => Ok (delete tag batches)
        end
      else Err (errText "unexpected BATCH reference tag: missing +/- prefix")
  end.

(** *** Away *)

(** [uc.updateAway()]: [uc.away] afterwards and the message written, if
    any; [dcs] are the connections [uc.forEachDownstream] visits. *)
Definition updateAway (dcs : list downstreamConn) (away : bool)
    : bool * list irc.Message :=
  let away' := foldl (λ _ _, false) true dcs in
  if Bool.eqb away' away then (away, [])
  else if away' then
    (away', [{| irc.Tags := ∅; irc.MPrefix := None; irc.Command := "AWAY";
                irc.Params := ["Auto away"] |}])
  else
    (away', [{| irc.Tags := ∅; irc.MPrefix := None; irc.Command := "AWAY";
                irc.Params := [] |}]).

End WithStore.

End Upstream.

(** ** user.go: delivered store, networks, the run loop of a network *)

Module User.
Import GoString Irc.

Abbreviation deliveredClientMap := (gmap string string) (only parsing).

Record deliveredStore := mkDeliveredStore {
  ds_m : casemapMap deliveredClientMap
}.

Definition newDeliveredStore : deliveredStore := {| ds_m := newCasemapMap |}.

Definition HasTarget (ds : deliveredStore) (target : string) : bool :=
  bool_decide (is_Some (Value (ds_m ds) target)).

(** user.go calls the map through [Get] and [Set], irc.go has them as the
    typed [Value] and as [SetValue]. [clients[clientName]] reads "" from a
    nil map and for a missing client. *)
Definition LoadID (ds : deliveredStore) (target clientName : string) : string :=
  match Value (ds_m ds) target with
  | None => ""
  | Some clients => default "" (clients !! clientName)
  end.

(** [ds] holds a reference to the map: the assignment
    [clients[clientName] = msgID] is to the map the entry holds, which is
    the map just stored when there was none. *)
Definition StoreID (target clientName msgID : string) (ds : deliveredStore) : deliveredStore :=
  match Value (ds_m ds) target with
  | None =>
      {| ds_m := SetValue target (<[clientName := msgID]> ∅) (ds_m ds) |}
  | Some clients =>
      {| ds_m := SetValue target (<[clientName := msgID]> clients) (ds_m ds) |}
  end.

(** Modelled from the spec: [casemapMap.ForEach], which [ForEachTarget]
    calls, is not part of the sources (irc.go has the map without it). It is
    the iteration primitive over the targets: [f] is called with the
    original key of each entry; [order] is the order in which the range over
    the inner map yields the entries. *)
Definition targetsInOrder (order : list (string * casemapEntry deliveredClientMap)) : list string :=
  (λ kv, originalKey kv.2) <$> order.

(** The upstream connection, as far as the downstream code reads it. *)
Record upstreamConn := mkUpstreamConn {
  uc_nick : string;
  uc_nickCM : string
}.

(** [net_GetName] is the result of [database.Network.GetName]. *)
Record network := mkNetwork {
  net_ID : Z;
  net_GetName : string;
  net_Nick : string;
  net_Enabled : bool;
  net_conn : option upstreamConn;
  net_channels : casemapMap Channel;
  net_delivered : deliveredStore;
  net_casemap : casemapping
}.

Record user (S : Type) := mkUser {
  u_Hostname : string;
  u_networks : list network;
  u_downstreamConns : list downstreamConn;
  u_msgStore : option S
}.
Arguments mkUser {S} _ _ _ _.
Arguments u_Hostname {S} _.
Arguments u_networks {S} _.
Arguments u_downstreamConns {S} _.
Arguments u_msgStore {S} _.

Fixpoint findNetworkByID (id : Z) (networks : list network) : option network :=
  match networks with
  | [] => None
  | net :: rest => if net_ID net =? id then Some net else findNetworkByID id rest
  end.

Definition getNetworkByID {S} (u : user S) (id : Z) : option network :=
  findNetworkByID id (u_networks u).

(** A write through the pointer [getNetworkByID] returns. *)
Fixpoint updateNetworkByID (id : Z) (f : network → network) (networks : list network)
    : list network :=
  match networks with
  | [] => []
  | net :: rest =>
      if net_ID net =? id then f net :: rest
      else net :: updateNetworkByID id f rest
  end.

Definition setDelivered (ds : deliveredStore) (net : network) : network :=
  {| net_ID := net_ID net; net_GetName := net_GetName net; net_Nick := net_Nick net;
     net_Enabled := net_Enabled net; net_conn := net_conn net;
     net_channels := net_channels net; net_delivered := ds;
     net_casemap := net_casemap net |}.

Definition setNetworks {S} (networks : list network) (u : user S) : user S :=
  {| u_Hostname := u_Hostname u; u_networks := networks;
     u_downstreamConns := u_downstreamConns u; u_msgStore := u_msgStore u |}.

(** *** Registration errors and [network.run] *)











End User.

(** ** downstream.go: outgoing messages *)

Module Downstream.
Import GoString.

(** What [SendMessage] hands to [dc.conn.SendMessage]: nothing, a message, or
    a run-time panic ([msg.Params[:1]] on a message without parameters; the
    empty slice is taken to have no spare capacity). *)
Inductive sendResult :=
| Dropped
| Written (msg : irc.Message)
| Panicked.

(** The [switch name] of the loop over [msg.Tags]. *)
Definition tagSupported (dc : downstreamConn) (name : string) : bool :=
  if bool_decide (name = "time") then cap (dc_caps dc) "server-time" else false.

(** [SendMessage]. With message-tags on, the message is not copied and the
    truncation of a JOIN is visible to the caller; the callers modelled here
    pass a message of their own. *)
Definition SendMessage (dc : downstreamConn) (msg : irc.Message) : sendResult :=
  if negb (cap (dc_caps dc) "message-tags") && bool_decide (irc.Command msg = "TAGMSG")
  then Dropped
  else
    let tags :=
      if negb (cap (dc_caps dc) "message-tags")
      then filter (λ kv, tagSupported dc kv.1 = true) (irc.Tags msg)
      else irc.Tags msg in
    if bool_decide (irc.Command msg = "JOIN") && negb (cap (dc_caps dc) "extended-join")
    then
      match irc.Params msg with
      | [] => Panicked
      | p :: _ =>
          Written {| irc.Tags := tags; irc.MPrefix := irc.MPrefix msg;
                     irc.Command := irc.Command msg; irc.Params := [p] |}
      end
    else
      Written {| irc.Tags := tags; irc.MPrefix := irc.MPrefix msg;
                 irc.Command := irc.Command msg; irc.Params := irc.Params msg |}.

(** *** Delivery receipts *)

(** What a function writes to the connection, in order, and how it ends: it
    returns, it panics, or it calls a highlight test that never returns. *)
Inductive status := Done | Panic | Diverged.

Definition trace : Type := list irc.Message * status.

Definition emit (r : sendResult) : trace :=
  match r with
  | Dropped => ([], Done)
  | Written msg => ([msg], Done)
  | Panicked => ([], Panic)
  end.

(** [first] and then [second], which runs when [first] has returned. *)
Definition andThen (first second : trace) : trace :=
  match first.2 with
  | Done => ((first.1 ++ second.1)%list, second.2)
  | _ => first
  end.

Definition messageSupportsHistory (msg : irc.Message) : bool :=
  bool_decide (irc.Command msg = "PRIVMSG") || bool_decide (irc.Command msg = "NOTICE").

Definition pingMessage (token : string) : irc.Message :=
  {| irc.Tags := ∅; irc.MPrefix := None; irc.Command := "PING"; irc.Params := [token] |}.

Definition sendPing (dc : downstreamConn) (msgID : string) : trace :=
  emit (SendMessage dc (pingMessage ("soju-msgid-" +:+ msgID))).

Definition sendMessageWithID (dc : downstreamConn) (msg : irc.Message) (id : string) : trace :=
  andThen (emit (SendMessage dc msg))
          (if bool_decide (id = "") || negb (messageSupportsHistory msg)
           then ([], Done) else sendPing dc id).

Definition advanceMessageWithID (dc : downstreamConn) (msg : irc.Message) (id : string) : trace :=
  if bool_decide (id = "") || negb (messageSupportsHistory msg)
  then ([], Done) else sendPing dc id.

Section WithUser.
Context {S : Type} {storeOps : Store S} {msgIDs : MsgIDs}.

Definition ackMsgID (dc : downstreamConn) (id : string) (u : User.user S) : User.user S :=
  match parseMsgID id with
  | None => u
  | Some (netID, entity) =>
      match User.getNetworkByID u netID with
      | None => u
      | Some _ =>
          User.setNetworks
            (User.updateNetworkByID netID
               (λ network,
                  User.setDelivered
                    (User.StoreID entity (dc_clientName dc) id (User.net_delivered network))
                    network)
               (User.u_networks u))
            u
      end
  end.

Definition handlePong (dc : downstreamConn) (token : string) (u : User.user S) : User.user S :=
  if negb (HasPrefix token "soju-msgid-") then u
  else ackMsgID dc (TrimPrefix token "soju-msgid-") u.

(** The PONG case of [handleMessageRegistered]. *)
Definition handleMessageRegistered_PONG (dc : downstreamConn) (msg : irc.Message)
    (u : User.user S) : result (User.user S) :=
  match last (irc.Params msg) with
  | None => Err (newNeedMoreParamsError (irc.Command msg))
  | Some token => Ok (handlePong dc token u)
  end.

End WithUser.

(** *** Marshaling *)

Definition isOurNick (net : User.network) (nick : string) : bool :=
  match User.net_conn net with
  | Some uc => bool_decide (User.net_casemap net nick = User.uc_nickCM uc)
  | None => bool_decide (User.net_casemap net nick = User.net_casemap net (User.net_Nick net))
  end.

(** [dc.marshalEntity(net, name)]; [None] is the panic on an entity of
    another network than the one the connection is bound to. *)
Definition marshalEntity (dc : downstreamConn) (net : User.network) (name : string)
    : option string :=
  if isOurNick net name then Some (dc_nick dc)
  else
    let name := Irc.partialCasemap (User.net_casemap net) name in
    match dc_network dc with
    | Some id => if bool_decide (id ≠ User.net_ID net) then None else Some name
    | None => Some (name +:+ "/" +:+ User.net_GetName net)
    end.

(** [dc.prefix()] *)
Definition prefix (dc : downstreamConn) : irc.Prefix :=
  {| irc.Name := dc_nick dc; irc.User := dc_username dc; irc.Host := dc_hostname dc |}.

Definition marshalUserPrefix (dc : downstreamConn) (net : User.network) (p : irc.Prefix)
    : option irc.Prefix :=
  if isOurNick net (irc.Name p) then Some (prefix dc)
  else
    let name := Irc.partialCasemap (User.net_casemap net) (irc.Name p) in
    match dc_network dc with
    | Some id =>
        if bool_decide (id ≠ User.net_ID net) then None
        else Some {| irc.Name := name; irc.User := irc.User p; irc.Host := irc.Host p |}
    | None =>
        Some {| irc.Name := name +:+ "/" +:+ User.net_GetName net;
                irc.User := irc.User p; irc.Host := irc.Host p |}
    end.

Definition setParams (params : list string) (msg : irc.Message) : irc.Message :=
  {| irc.Tags := irc.Tags msg; irc.MPrefix := irc.MPrefix msg;
     irc.Command := irc.Command msg; irc.Params := params |}.

(** [dc.marshalMessage(msg, net)], on a copy of the message; [None] is a
    panic: a message without prefix, without the parameters its command
    has, or with a command that is not one of those the logs hold. *)
Definition marshalMessage (dc : downstreamConn) (msg : irc.Message) (net : User.network)
    : option irc.Message :=
  p ← irc.MPrefix msg;
  p' ← marshalUserPrefix dc net p;
  let msg :=
    {| irc.Tags := irc.Tags msg; irc.MPrefix := Some p';
       irc.Command := irc.Command msg; irc.Params := irc.Params msg |} in
  if bool_decide (irc.Command msg ∈ ["PRIVMSG"; "NOTICE"; "TAGMSG"; "NICK"; "JOIN"; "PART"; "TOPIC"])
  then
    match irc.Params msg with
    | p0 :: rest => e0 ← marshalEntity dc net p0; Some (setParams (e0 :: rest) msg)
    | [] => None
    end
  else if bool_decide (irc.Command msg = "KICK") then
    match irc.Params msg with
    | p0 :: p1 :: rest =>
        e0 ← marshalEntity dc net p0;
        e1 ← marshalEntity dc net p1;
        Some (setParams (e0 :: e1 :: rest) msg)
    | _ => None
    end
  else if bool_decide (irc.Command msg = "QUIT") then Some msg
  else None.

(** *** Backlog replay *)

(** The result of a function that may panic or call a highlight test that
    never returns. *)
Inductive outcome (A : Type) :=
| Ret (a : A)
| Panics
| Diverges.
Arguments Ret {A} _.
Arguments Panics {A}.
Arguments Diverges {A}.

Section WithHighlights.
Context {tables : Unicode}.

(** [net.isHighlight(msg)] (user.go) *)
Definition isHighlight (net : User.network) (msg : irc.Message) : outcome bool :=
  if bool_decide (irc.Command msg ≠ "PRIVMSG") && bool_decide (irc.Command msg ≠ "NOTICE")
  then Ret false
  else
    match irc.Params msg with
    | _ :: text :: _ =>
        let nick :=
          match User.net_conn net with
          | Some uc => User.uc_nick uc
          | None => User.net_Nick net
          end in
        match irc.MPrefix msg with
        | None => Panics
        | Some p =>
            if bool_decide (irc.Name p ≠ nick) then
              match Irc.isHighlight text nick with
              | Some highlight => Ret highlight
              | None => Diverges
              end
            else Ret false
        end
    | _ => Panics
    end.

(** [net.detachedMessageNeedsRelay(ch, msg)] (user.go) *)
Definition detachedMessageNeedsRelay (net : User.network) (ch : Channel) (msg : irc.Message)
    : outcome bool :=
  match isHighlight net msg with
  | Ret highlight =>
      Ret (bool_decide (ch_RelayDetached ch = FilterMessage)
           || ((bool_decide (ch_RelayDetached ch = FilterHighlight)
                || bool_decide (ch_RelayDetached ch = FilterDefault))
               && highlight))
  | Panics => Panics
  | Diverges => Diverges
  end.

(** Modelled from the spec: the service nick and [sendServiceNOTICE] are not
    part of the sources; a service NOTICE is a NOTICE to the client from the
    reserved service nick. *)
Definition serviceNick : string := "BouncerServ".

Definition servicePrefix : irc.Prefix :=
  {| irc.Name := serviceNick; irc.User := serviceNick; irc.Host := serviceNick |}.

Definition serviceNOTICE (dc : downstreamConn) (text : string) : irc.Message :=
  {| irc.Tags := ∅; irc.MPrefix := Some servicePrefix; irc.Command := "NOTICE";
     irc.Params := [dc_nick dc; text] |}.

Definition sendServiceNOTICE (dc : downstreamConn) (text : string) : trace :=
  emit (SendMessage dc (serviceNOTICE dc text)).

Definition relayDetachedMessage (dc : downstreamConn) (net : User.network) (msg : irc.Message)
    : trace :=
  if bool_decide (irc.Command msg ≠ "PRIVMSG") && bool_decide (irc.Command msg ≠ "NOTICE")
  then ([], Done)
  else
    match irc.MPrefix msg, irc.Params msg with
    | Some p, target :: text :: _ =>
        let sender := irc.Name p in
        match isHighlight net msg with
        | Ret highlight =>
            match marshalEntity dc net target with
            | None => ([], Panic)
            | Some entity =>
                sendServiceNOTICE dc
                  ((if highlight then "highlight in " else "message in ")
                   +:+ entity +:+ ": <" +:+ sender +:+ "> " +:+ text)
            end
        | Panics => ([], Panic)
        | Diverges => ([], Diverged)
        end
    | _, _ => ([], Panic)
    end.

Definition setTag (name value : string) (msg : irc.Message) : irc.Message :=
  {| irc.Tags := <[name := value]> (irc.Tags msg); irc.MPrefix := irc.MPrefix msg;
     irc.Command := irc.Command msg; irc.Params := irc.Params msg |}.

(** The body of the loop of [sendTargetBacklog] over the history; [ch] is
    [net.channels.Value(target)]. *)
Definition replayMessage (dc : downstreamConn) (net : User.network) (ch : option Channel)
    (msg : irc.Message) : trace :=
  if negb (messageSupportsHistory msg) then ([], Done)
  else
    match ch with
    | Some c =>
        if ch_Detached c then
          match detachedMessageNeedsRelay net c msg with
          | Ret true => relayDetachedMessage dc net msg
          | Ret false => ([], Done)
          | Panics => ([], Panic)
          | Diverges => ([], Diverged)
          end
        else
          match marshalMessage dc
                  (if cap (dc_caps dc) "batch" then setTag "batch" "history" msg else msg)
                  net with
          | None => ([], Panic)
          | Some m => emit (SendMessage dc m)
          end
    | None =>
        match marshalMessage dc
                (if cap (dc_caps dc) "batch" then setTag "batch" "history" msg else msg)
                net with
        | None => ([], Panic)
        | Some m => emit (SendMessage dc m)
        end
    end.

Fixpoint replayHistory (dc : downstreamConn) (net : User.network) (ch : option Channel)
    (history : list irc.Message) : trace :=
  match history with
  | [] => ([], Done)
  | msg :: rest => andThen (replayMessage dc net ch msg) (replayHistory dc net ch rest)
  end.

Definition serverPrefix (hostname : string) : irc.Prefix :=
  {| irc.Name := hostname; irc.User := ""; irc.Host := "" |}.

Definition batchStart (hostname : string) (entity : string) : irc.Message :=
  {| irc.Tags := ∅; irc.MPrefix := Some (serverPrefix hostname);
     irc.Command := "BATCH"; irc.Params := ["+history"; "chathistory"; entity] |}.

Definition batchEnd (hostname : string) : irc.Message :=
  {| irc.Tags := ∅; irc.MPrefix := Some (serverPrefix hostname);
     irc.Command := "BATCH"; irc.Params := ["-history"] |}.

(** The messages other than the batch markers. *)
Definition notBatch (out : irc.Message) : Prop := irc.Command out ≠ "BATCH".

#[global] Instance notBatch_dec (out : irc.Message) : Decision (notBatch out).
Proof. unfold notBatch. apply _. Defined.

(** The number of messages [sendTargetBacklog] asks the store for. *)
Definition backlogLimit : Z := 4000.

Context {S : Type} {storeOps : Store S}.

(** [dc.sendTargetBacklog(net, target, msgID)]; [hostname] is
    [dc.srv.Hostname] and [msgStore] is [dc.user.msgStore]. *)
Definition sendTargetBacklog (hostname : string) (msgStore : option S)
    (dc : downstreamConn) (net : User.network) (target msgID : string) : trace :=
  match msgStore with
  | None => ([], Done)
  | Some store =>
      if cap (dc_caps dc) "draft/chathistory" then ([], Done)
      else
        let ch := Irc.Value (User.net_channels net) target in
        let limit := backlogLimit in
        let targetCM := User.net_casemap net target in
        match LoadLatestID store (User.net_ID net) targetCM msgID limit with
        | None => ([], Done)
        | Some history =>
            andThen
              (if cap (dc_caps dc) "batch" then
                 match marshalEntity dc net target with
                 | None => ([], Panic)
                 | Some entity => emit (SendMessage dc (batchStart hostname entity))
                 end
               else ([], Done))
              (andThen (replayHistory dc net ch history)
                       (if cap (dc_caps dc) "batch"
                        then emit (SendMessage dc (batchEnd hostname))
                        else ([], Done)))
        end
  end.

(** *** The backlog part of [welcome] *)

(** [firstClient]: no other connection of the user has the client name and
    the network of [dc]. *)
Definition firstClient (dc : downstreamConn) (conns : list downstreamConn) : bool :=
  forallb (λ c, negb (bool_decide (dc_id c ≠ dc_id dc)
                      && bool_decide (dc_clientName c = dc_clientName dc)
                      && bool_decide (dc_network c = dc_network dc)))
          conns.

(** The function [welcome] passes to [net.delivered.ForEachTarget], on the
    delivered store of [net]. *)
Definition backlogTarget (hostname : string) (store : S) (dc : downstreamConn)
    (net : User.network) (target : string) (ds : User.deliveredStore)
    : User.deliveredStore * trace :=
  let lastDelivered := User.LoadID ds target (dc_clientName dc) in
  if bool_decide (lastDelivered = "") then (ds, ([], Done))
  else
    let sent := sendTargetBacklog hostname (Some store) dc net target lastDelivered in
    match sent.2 with
    | Done =>
        let targetCM := User.net_casemap net target in
        match LastMsgID store (User.net_ID net) targetCM with
        | None => (ds, sent)
        | Some lastID => (User.StoreID target (dc_clientName dc) lastID ds, sent)
        end
    | _ => (ds, sent)
    end.

Fixpoint backlogTargets (hostname : string) (store : S) (dc : downstreamConn)
    (net : User.network) (targets : list string) (ds : User.deliveredStore)
    : User.deliveredStore * trace :=
  match targets with
  | [] => (ds, ([], Done))
  | target :: rest =>
      let '(ds1, sent1) := backlogTarget hostname store dc net target ds in
      match sent1.2 with
      | Done =>
          let '(ds2, sent2) := backlogTargets hostname store dc net rest ds1 in
          (ds2, andThen sent1 sent2)
      | _ => (ds1, sent1)
      end
  end.

(** The function [welcome] passes to [dc.forEachNetwork], for one network;
    [order] is the order in which [ForEachTarget] visits the delivered
    store of the network. *)
Definition welcomeBacklog (u : User.user S) (dc : downstreamConn) (net : User.network)
    (order : list (string * Irc.casemapEntry User.deliveredClientMap))
    : User.network * trace :=
  match User.u_msgStore u with
  | None => (net, ([], Done))
  | Some store =>
      if cap (dc_caps dc) "draft/chathistory" then (net, ([], Done))
      else if firstClient dc (User.u_downstreamConns u) then
        let '(ds, sent) :=
          backlogTargets (User.u_Hostname u) store dc net
                         (User.targetsInOrder order) (User.net_delivered net) in
        (User.setDelivered ds net, sent)
      else (net, ([], Done))
  end.

End WithHighlights.

(** *** User names *)

(** [unmarshalUsername(rawUsername)]: the user name, the client name and the
    network name of "user/network@client" and its variants. The indexes
    are those of [IndexAny] and [LastIndexAny], so the slices are in range;
    [index] is [rawUsername[j]]. *)
Definition unmarshalUsername (rawUsername : string) : string * string * string :=
  let i := IndexAny rawUsername "/@" in
  let j := LastIndexAny rawUsername "/@" in
  let username := if 0 <=? i then sliceTo rawUsername i else rawUsername in
  let '(client, network) :=
    if 0 <=? j then
      if bool_decide (index rawUsername j = Some "@"%char)
      then (sliceFrom rawUsername (j + 1), "")
      else ("", sliceFrom rawUsername (j + 1))
    else ("", "") in
  let '(client, network) :=
    if (0 <=? i) && (0 <=? j) && (i <? j) then
      if bool_decide (index rawUsername i = Some "@"%char)
      then (slice rawUsername (i + 1) j, network)
      else (client, slice rawUsername (i + 1) j)
    else (client, network) in
  (username, client, network).

(** *** Entity names of a downstream connection *)

Definition ERR_NOSUCHCHANNEL := "403".

(** An upstream connection is handed out as the network it belongs to
    ([uc.network]), whose [net_conn] it is. *)

(** [dc.upstream()]: the connection of the bound network, one of the
    networks of the user. *)
Definition upstream {S} (u : User.user S) (dc : downstreamConn) : option User.network :=
  id ← dc_network dc;
  net ← User.getNetworkByID u id;
  match User.net_conn net with
  | Some _ => Some net
  | None => None
  end.

(** [dc.forEachUpstream]: the networks of the user that have a connection
    ([user.forEachUpstream]), but for those other than the bound network. *)
Definition forEachUpstream {S} (u : User.user S) (dc : downstreamConn) : list User.network :=
  filter (λ net, ¬ (is_Some (dc_network dc) ∧ dc_network dc ≠ Some (User.net_ID net)))
         (filter (λ net, is_Some (User.net_conn net)) (User.u_networks u)).

Definition noSuchChannel (name text : string) : error :=
  errIrc {| irc.Tags := ∅; irc.MPrefix := None;
            irc.Command := ERR_NOSUCHCHANNEL; irc.Params := [name; text] |}.

(** [dc.unmarshalEntity(name)]. The callback of [forEachUpstream] assigns
    [conn] at every network of the name: the last one stays. *)
Definition unmarshalEntity {S} (u : User.user S) (dc : downstreamConn) (name : string)
    : result (User.network * string) :=
  match upstream u dc with
  | Some uc => Ok (uc, name)
  | None =>
      match dc_network dc with
      | Some _ => Err (noSuchChannel name "Disconnected from upstream network")
      | None =>
          let i := LastIndexByte name "/"%char in
          let '(conn, name) :=
            if 0 <=? i then
              let network := sliceFrom name (i + 1) in
              let name := sliceTo name i in
              (last (filter (λ net, ¬ (network ≠ User.net_GetName net))
                            (forEachUpstream u dc)),
               name)
            else (None, name) in
          match conn with
          | None => Err (noSuchChannel name "Missing network suffix in channel name")
          | Some uc => Ok (uc, name)
          end
      end
  end.

(** *** Capabilities that depend on the upstream connections *)

(** What the capability functions read and write of a downstream
    connection: [dc.supportedCaps] and [dc.caps] besides the nick,
    [dc.registered] and [dc.capVersion]. *)
Record capState := mkCapState {
  cs_nick : string;
  cs_registered : bool;
  cs_capVersion : Z;
  cs_supportedCaps : gmap string string;
  cs_caps : gmap string bool
}.

Definition needAllDownstreamCaps : gmap string string :=
  list_to_map [("away-notify", ""); ("extended-join", ""); ("multi-prefix", "")].

(** The CAP message of [setSupportedCap] and [unsetSupportedCap]; it has no
    tag and [dc.SendMessage] writes it as it is. *)
Definition capNotification (hostname : string) (st : capState) (subCmd arg : string)
    : irc.Message :=
  {| irc.Tags := ∅; irc.MPrefix := Some (serverPrefix hostname);
     irc.Command := "CAP";
     irc.Params := [if negb (cs_registered st) then "*" else cs_nick st; subCmd; arg] |}.

(** [dc.setSupportedCap(name, value)]: the connection and the messages
    written. *)
Definition setSupportedCap (hostname name value : string) (st : capState)
    : capState * list irc.Message :=
  let changed :=
    match cs_supportedCaps st !! name with
    | Some prevValue => negb (String.eqb prevValue value)
    | None => true
    end in
  let st' :=
    {| cs_nick := cs_nick st; cs_registered := cs_registered st;
       cs_capVersion := cs_capVersion st;
       cs_supportedCaps := <[name := value]> (cs_supportedCaps st);
       cs_caps := cs_caps st |} in
  if negb (cap (cs_caps st') "cap-notify") || negb changed then (st', [])
  else
    let c :=
      if negb (String.eqb value "") && (302 <=? cs_capVersion st')
      then name +:+ "=" +:+ value
      else name in
    (st', [capNotification hostname st' "NEW" c]).

(** [dc.unsetSupportedCap(name)] *)
Definition unsetSupportedCap (hostname name : string) (st : capState)
    : capState * list irc.Message :=
  let hasPrev := bool_decide (is_Some (cs_supportedCaps st !! name)) in
  let st' :=
    {| cs_nick := cs_nick st; cs_registered := cs_registered st;
       cs_capVersion := cs_capVersion st;
       cs_supportedCaps := delete name (cs_supportedCaps st);
       cs_caps := delete name (cs_caps st) |} in
  if negb (cap (cs_caps st') "cap-notify") || negb hasPrev then (st', [])
  else (st', [capNotification hostname st' "DEL" name]).

(** The first two loops of [updateSupportedCaps]: the local map
    [supportedCaps] after [dc.forEachUpstream]; [upstreams] are the
    [uc.caps] of the connections visited. *)
Definition supportedByAll (upstreams : list (gmap string bool)) : gmap string bool :=
  foldl (λ supportedCaps caps,
           map_imap (λ name supported, Some (supported && cap caps name)) supportedCaps)
        ((λ _, true) <$> needAllDownstreamCaps) upstreams.

(** The last loop of [updateSupportedCaps], over the capabilities in the
    order the range statement yields them. *)
Fixpoint updateSupportedCapsLoop (hostname : string) (supportedCaps : gmap string bool)
    (order : list string) (st : capState) : capState * list irc.Message :=
  match order with
  | [] => (st, [])
  | name :: rest =>
      let '(st1, written1) :=
        if default false (supportedCaps !! name)
        then setSupportedCap hostname name
               (default "" (needAllDownstreamCaps !! name)) st
        else unsetSupportedCap hostname name st in
      let '(st2, written2) := updateSupportedCapsLoop hostname supportedCaps rest st1 in
      (st2, (written1 ++ written2)%list)
  end.

Definition updateSupportedCapsInOrder (hostname : string)
    (upstreams : list (gmap string bool)) (order : list string) (st : capState)
    : capState * list irc.Message :=
  updateSupportedCapsLoop hostname (supportedByAll upstreams) order st.

End Downstream.

(** ** A message store in memory *)

(** Modelled from the spec: the message store is an external collaborator,
    an append-only log per target with lookup by id. This one keeps the
    entries of all targets in one list, oldest first, and serves the
    concrete runs. *)
Module MemoryStore.

Record entry := mkEntry {
  e_net : Z;
  e_entity : string;
  e_id : string;
  e_msg : irc.Message
}.

Definition t := list entry.

Definition entriesOf (s : t) (net : Z) (entity : string) : list entry :=
  filter (λ e, e_net e = net ∧ e_entity e = entity) s.

(** The entries after the one with the id [id]; all of them when there is
    none with that id. *)
Fixpoint after (id : string) (entries : list entry) : list entry :=
  match entries with
  | [] => []
  | e :: rest =>
      if bool_decide (e_id e = id) then rest
      else match after id rest with
           | [] => if bool_decide (Exists (λ e', e_id e' = id) rest) then [] else e :: rest
           | later => later
           end
  end.

Definition latest {A} (limit : Z) (l : list A) : list A :=
  drop (length l - Z.to_nat limit) l.

Lemma latest_length {A} (limit : Z) (l : list A) :
  Z.of_nat (length (latest limit l)) ≤ Z.max 0 limit.
Proof. unfold latest. rewrite length_drop. lia. Qed.

Definition lastMsgID (s : t) (net : Z) (entity : string) : option string :=
  Some (default "" (e_id <$> last (entriesOf s net entity))).

Definition loadLatestID (s : t) (net : Z) (entity id : string) (limit : Z)
    : option (list irc.Message) :=
  Some (e_msg <$> latest limit (after id (entriesOf s net entity))).

Definition append (s : t) (net : Z) (entity : string) (msg : irc.Message)
    : option (t * string) :=
  let id := "m" +:+ pretty (Z.of_nat (length s) + 1) in
  Some ((s ++ [{| e_net := net; e_entity := entity; e_id := id; e_msg := msg |}])%list, id).

Lemma loadLatestID_limit (s : t) (net : Z) (entity id : string) (limit : Z)
    (history : list irc.Message) :
  loadLatestID s net entity id limit = Some history →
  Z.of_nat (length history) ≤ Z.max 0 limit.
Proof. intros [= <-]. rewrite length_fmap. apply latest_length. Qed.

#[global] Instance store : Store t := {|
  LastMsgID := lastMsgID;
  LoadLatestID := loadLatestID;
  Append := append;
  LoadLatestID_limit := loadLatestID_limit
|}.

End MemoryStore.

(** ** irc.go: user modes *)

Module UserModes.
Import GoString.

(** [type userModes string]: the mode letters set, in the order they were
    added. *)
Definition userModes := string.

Definition Has (ms : userModes) (c : byte) : bool := 0 <=? IndexByte ms c.

(** [*ms += userModes(c)]: the conversion appends [string(c)]. *)
Definition Add (c : byte) (ms : userModes) : userModes :=
  if negb (Has ms c) then ms +:+ stringOfByte c else ms.

Definition Del (c : byte) (ms : userModes) : userModes :=
  let i := IndexByte ms c in
  if 0 <=? i then sliceTo ms i +:+ sliceFrom ms (i + 1) else ms.

Definition errMissingPlusMinus : error :=
  errText "malformed modestring: missing plus/minus".

(** The loop of [Apply] from the byte it stands at, with the sign met last
    ([plusMinus], the zero byte before any). The modes are updated in place:
    an error leaves them as the bytes before it made them. The text of the
    error carries the quoted mode string, which is left out. *)
Fixpoint applyLoop (s : string) (plusMinus : byte) (ms : userModes)
    : userModes * option error :=
  match s with
  | EmptyString => (ms, None)
  | String c rest =>
      if Ascii.eqb c "+"%char || Ascii.eqb c "-"%char then applyLoop rest c ms
      else if Ascii.eqb plusMinus "+"%char then applyLoop rest plusMinus (Add c ms)
      else if Ascii.eqb plusMinus "-"%char then applyLoop rest plusMinus (Del c ms)
      else (ms, Some errMissingPlusMinus)
  end.

Definition Apply (s : string) (ms : userModes) : userModes * option error :=
  applyLoop s "000"%char ms.

End UserModes.

(** ** irc.go: helpers on messages *)

Module IrcHelpers.
Import GoString.

(** The loop of [copyClientTags],
    [for k, v := range tags { if strings.HasPrefix(k, "+") { t[k] = v } }],
    over the tags in the order the range statement yields them. *)
Fixpoint copyClientTagsLoop (entries : list (string * string)) (t : gmap string string)
    : gmap string string :=
  match entries with
  | [] => t
  | (k, v) :: rest =>
      copyClientTagsLoop rest (if HasPrefix k "+" then <[k := v]> t else t)
  end.

Definition copyClientTagsInOrder (order : list (string * string)) : gmap string string :=
  copyClientTagsLoop order ∅.

(** [copyClientTags] with one possible order. *)
Definition copyClientTags (tags : gmap string string) : gmap string string :=
  copyClientTagsInOrder (map_to_list tags).

(** The loop of [isNumeric], [for i := 0; i < 3; i++], with [n] turns left;
    [cmd[i]] is in range after the test of the length. *)
Fixpoint isNumericLoop (n : nat) (i : Z) (cmd : string) : bool :=
  match n with
  | O => true
  | Datatypes.S n' =>
      match index cmd i with
      | None => false
      | Some c =>
          if (byteZ c <? byteZ "0"%char) || (byteZ "9"%char <? byteZ c) then false
          else isNumericLoop n' (i + 1) cmd
      end
  end.

Definition isNumeric (cmd : string) : bool :=
  if negb (len cmd =? 3) then false else isNumericLoop 3 0 cmd.

(** [formatMemberPrefix(ms, dc)]: the prefix of the highest membership, or
    with multi-prefix the prefixes of all of them. [string(ms[0].Prefix)]
    converts a byte, [string(prefixes)] a slice of bytes. *)
Definition formatMemberPrefix (ms : Upstream.memberships) (dc : downstreamConn) : string :=
  if negb (cap (dc_caps dc) "multi-prefix") then
    match ms with
    | [] => ""
    | m :: _ => stringOfByte (Upstream.m_Prefix m)
    end
  else string_of_list_ascii (Upstream.m_Prefix <$> ms).

End IrcHelpers.

(** ** irc.go: channel modes *)

Module ChannelModes.
Import GoString.

(** [type channelModes map[byte]string] *)
Definition channelModes := gmap byte string.

(** The loop of [Format] over the modes in the order the range statement
    yields them: the two builders and the parameters. [string(mode)] is the
    conversion of a byte. *)
Fixpoint formatLoop (entries : list (byte * string))
    (modesWithValues modesWithoutValues : string) (parameters : list string)
    : string * string * list string :=
  match entries with
  | [] => (modesWithValues, modesWithoutValues, parameters)
  | (mode, value) :: rest =>
      if negb (String.eqb value "") then
        formatLoop rest (modesWithValues +:+ stringOfByte mode) modesWithoutValues
                   (parameters ++ [value])%list
      else
        formatLoop rest modesWithValues (modesWithoutValues +:+ stringOfByte mode)
                   parameters
  end.

Definition FormatInOrder (order : list (byte * string)) : string * list string :=
  let '(modesWithValues, modesWithoutValues, parameters) := formatLoop order "" "" [] in
  ("+" +:+ modesWithValues +:+ modesWithoutValues, parameters).

(** [cm.Format()] with one possible order. *)
Definition Format (cm : channelModes) : string * list string :=
  FormatInOrder (map_to_list cm).

End ChannelModes.

(** ** user.go: the downstream connections of a user *)

Module UserConns.

(** The earlier revision of user.go keeps the connections in a slice and
    compares them as pointers: a connection is its [dc_id] here. *)



End UserConns.

(** ** logger.go: the messages before a time *)

Module Logger.

(** What the loop of [parseMessagesBefore] finds of a line of the log file:
    a line [fmt.Sscanf] does not read (the function returns the error), a
    line that is not ["<sender> text"] (skipped), or a message, with whether
    its time is before the timestamp asked for (the loop breaks at the
    first that is not). The reading of the file and of the time of a line
    are left to the caller of this model. *)
Inductive line :=
| Unreadable
| Skipped
| Entry (before : bool) (msg : irc.Message).

(** [historyRing]: a slice of pointers, nil where nothing was stored. *)
Definition historyRing := list (option irc.Message).

(** The scan loop: [historyRing] and [cur] when it ends, an error, or [None]
    for a run-time panic ([cur%limit] divides by [limit]). *)
Fixpoint scan (limit : Z) (lines : list line) (ring : historyRing) (cur : Z)
    : option (result (historyRing * Z)) :=
  match lines with
  | [] => Some (Ok (ring, cur))
  | Unreadable :: _ => Some (Err (errText "input does not match format"))
  | Skipped :: rest => scan limit rest ring cur
  | Entry before msg :: rest =>
      if negb before then Some (Ok (ring, cur))
      else if limit =? 0 then None
      else scan limit rest (<[Z.to_nat (Z.rem cur limit) := Some msg]> ring) (cur + 1)
  end.

(** [parseMessagesBefore] on the lines of a file that is there. [make]
    panics on a negative length; [copy] copies as many elements as the
    shorter of its arguments has. *)
Definition parseMessagesBefore (limit : Z) (lines : list line)
    : option (result historyRing) :=
  if limit <? 0 then None
  else
    match scan limit lines (replicate (Z.to_nat limit) None) 0 with
    | None => None
    | Some (Err err) => Some (Err err)
    | Some (Ok (ring, cur)) =>
        let n := if cur <? limit then cur else limit in
        if limit =? 0 then None
        else
          let start := Z.rem (cur - n + limit) limit in
          if start + n <=? limit then
            Some (Ok (take (Z.to_nat (start + n) - Z.to_nat start) (drop (Z.to_nat start) ring)))
          else
            let r := Z.min n (limit - start) in
            Some (Ok (take (Z.to_nat r) (drop (Z.to_nat start) ring)
                      ++ take (Z.to_nat (n - r)) ring)%list)
    end.

End Logger.

(** ** Concrete states for the scenarios *)

Module Scenario.
Import GoString Irc Upstream.

Definition op : membership := {| m_Mode := "o"%char; m_Prefix := "@"%char |}.
Definition voice : membership := {| m_Mode := "v"%char; m_Prefix := "+"%char |}.

(** Scenario 1 of the specification: [uc.nick] is "alice" and "#x" has the
    members alice (+o) and carol (+v). *)
Definition chanX : upstreamChannel :=
  {| uch_Name := "#x"; uch_Topic := "";
     uch_Members := <["alice" := [op]]> (<["carol" := [voice]]> ∅);
     uch_complete := true |}.

Definition ucAlice : upstreamConn :=
  {| uc_registered := true; uc_nick := "alice";
     uc_channels := <["#x" := chanX]> ∅;
     uc_caps := ∅; uc_nextLabelID := 0; uc_pendingLISTDownstreamSet := ∅ |}.

Definition alice : irc.Prefix := {| irc.Name := "alice"; irc.User := "u"; irc.Host := "h" |}.

(** [:alice!u@h NICK newNick] *)
Definition nickMsg (newNick : string) : irc.Message :=
  {| irc.Tags := ∅; irc.MPrefix := Some alice; irc.Command := "NICK";
     irc.Params := [newNick] |}.

(** Two channels whose names differ by case only, under the casemapping a
    new map starts with. *)
Definition twoCases : casemapMap Z :=
  SetValue "foo" 2 (SetValue "Foo" 1 newCasemapMap).

(** A downstream connection bound to network 1, with the given
    capabilities enabled. *)
Definition dcWith (id : Z) (clientName : string) (caps : list string) : downstreamConn :=
  {| dc_id := id; dc_nick := "me"; dc_username := "user"; dc_hostname := "host";
     dc_clientName := clientName; dc_network := Some 1;
     dc_caps := list_to_map ((λ name, (name, true)) <$> caps) |}.

Definition taggedMsg (command : string) (params : list string) : irc.Message :=
  {| irc.Tags := <["time" := "2021-01-01T00:00:00.000Z"]> (<["account" := "alice"]> ∅);
     irc.MPrefix := Some alice; irc.Command := command; irc.Params := params |}.


Definition numericMsg (command : string) (params : list string) : irc.Message :=
  {| irc.Tags := ∅;
     irc.MPrefix := Some {| irc.Name := "irc.example.org"; irc.User := ""; irc.Host := "" |};
     irc.Command := command; irc.Params := params |}.

(** Internal message ids of the scenarios: "m1", "m2", ... name messages of
    "#x" on network 1. *)
Definition scenarioMsgIDs : MsgIDs :=
  {| parseMsgID id :=
       if HasPrefix id "m" && (1 <? len id) then Some (1, "#x") else None |}.

(** Network 1, connected as "alice", with the channel "#x"; [detached] says
    whether the channel is detached, [delivered] is the delivered store. *)
Definition channelX (detached : bool) : Channel :=
  {| ch_Name := "#x"; ch_Key := ""; ch_Detached := detached;
     ch_DetachedInternalMsgID := ""; ch_RelayDetached := FilterMessage;
     ch_ReattachOn := FilterNone; ch_DetachAfter := 0; ch_DetachOn := FilterNone |}.

Definition network1 (detached : bool) (delivered : User.deliveredStore) : User.network :=
  {| User.net_ID := 1; User.net_GetName := "libera"; User.net_Nick := "alice";
     User.net_Enabled := true;
     User.net_conn := Some {| User.uc_nick := "alice"; User.uc_nickCM := "alice" |};
     User.net_channels :=
       SetCasemapping casemapRFC1459 (SetValue "#x" (channelX detached) newCasemapMap);
     User.net_delivered := delivered;
     User.net_casemap := casemapRFC1459 |}.

Definition emptyDelivered : User.deliveredStore :=
  {| User.ds_m := SetCasemapping casemapRFC1459 newCasemapMap |}.

Definition privmsg (sender : irc.Prefix) (target text : string) : irc.Message :=
  {| irc.Tags := ∅; irc.MPrefix := Some sender; irc.Command := "PRIVMSG";
     irc.Params := [target; text] |}.

Definition pongMsg (token : string) : irc.Message :=
  {| irc.Tags := ∅; irc.MPrefix := None; irc.Command := "PONG"; irc.Params := [token] |}.

Definition carol : irc.Prefix := {| irc.Name := "carol"; irc.User := "u"; irc.Host := "h" |}.

(** A user with network 1 and the given downstream connections and store. *)
Definition user1 (detached : bool) (delivered : User.deliveredStore)
    (conns : list downstreamConn) (store : MemoryStore.t) : User.user MemoryStore.t :=
  {| User.u_Hostname := "soju"; User.u_networks := [network1 detached delivered];
     User.u_downstreamConns := conns; User.u_msgStore := Some store |}.

(** Three messages recorded for "#x" on network 1: two PRIVMSG and, between
    them, a JOIN. *)
Definition storeX : MemoryStore.t :=
  [ {| MemoryStore.e_net := 1; MemoryStore.e_entity := "#x"; MemoryStore.e_id := "m1";
       MemoryStore.e_msg := privmsg carol "#x" "one" |};
    {| MemoryStore.e_net := 1; MemoryStore.e_entity := "#x"; MemoryStore.e_id := "m2";
       MemoryStore.e_msg :=
         {| irc.Tags := ∅; irc.MPrefix := Some carol; irc.Command := "JOIN";
            irc.Params := ["#x"] |} |};
    {| MemoryStore.e_net := 1; MemoryStore.e_entity := "#x"; MemoryStore.e_id := "m3";
       MemoryStore.e_msg := privmsg carol "#x" "three" |} ].

(** The user as upstream.go sees it: network 1 at position 0, with the
    channel "#x", and one downstream connection. *)
Definition upstreamNetwork1 (detached : bool) (uc : option upstreamConn) : network :=
  {| net_ID := 1; net_conn := uc;
     net_channels := <["#x" := channelX detached]> ∅;
     net_history := ∅; net_offlineClients := ∅ |}.

Definition upstreamUser1 (detached : bool) (pls : list pendingLIST)
    (store : MemoryStore.t) : user MemoryStore.t :=
  {| u_Hostname := "soju";
     u_networks := [upstreamNetwork1 detached (Some ucAlice)];
     u_downstreamConns := [dcWith 1 "laptop" []];
     u_pendingLISTs := pls;
     u_msgStore := Some store |}.

(** The delivered store after the client "laptop" has acknowledged "m1" of
    "#x". *)
Definition deliveredX : User.deliveredStore :=
  User.StoreID "#x" "laptop" "m1" emptyDelivered.

(** Scenario 3: the networks 1 and 2, both connected, and the downstream 1
    that has sent LIST. *)
Definition listCommand : irc.Message :=
  {| irc.Tags := ∅; irc.MPrefix := None; irc.Command := "LIST"; irc.Params := [] |}.

Definition ucListing : upstreamConn :=
  {| uc_registered := true; uc_nick := "alice"; uc_channels := ∅;
     uc_caps := ∅; uc_nextLabelID := 0; uc_pendingLISTDownstreamSet := {[1]} |}.

Definition upstreamNetwork2 : network :=
  {| net_ID := 2; net_conn := Some ucListing; net_channels := ∅;
     net_history := ∅; net_offlineClients := ∅ |}.

Definition listUser (pls : list pendingLIST) : user MemoryStore.t :=
  {| u_Hostname := "soju";
     u_networks := [upstreamNetwork1 false (Some ucListing); upstreamNetwork2];
     u_downstreamConns := [dcWith 1 "laptop" []];
     u_pendingLISTs := pls;
     u_msgStore := None |}.

(** The LIST of the downstream 1, pending on both networks, and pending on
    network 1 only. *)
Definition plBoth : pendingLIST :=
  {| pl_downstreamID := 1;
     pl_pendingCommands := <[1 := listCommand]> (<[2 := listCommand]> ∅) |}.


(** A downstream connection bound to no network: the multi-network mode. *)
Definition dcMulti : downstreamConn :=
  {| dc_id := 2; dc_nick := "me"; dc_username := "user"; dc_hostname := "host";
     dc_clientName := "phone"; dc_network := None; dc_caps := ∅ |}.

(** [:who!u@h QUIT :bye] and [:alice!u@h KICK channel user]. *)
Definition quitMsg (who : irc.Prefix) : irc.Message :=
  {| irc.Tags := ∅; irc.MPrefix := Some who; irc.Command := "QUIT";
     irc.Params := ["bye"] |}.

Definition kickMsg (channel user : string) : irc.Message :=
  {| irc.Tags := ∅; irc.MPrefix := Some alice; irc.Command := "KICK";
     irc.Params := [channel; user] |}.

(** A registered downstream connection with cap-notify enabled and no
    capability that depends on the upstream connections yet, and the
    capabilities of two upstream connections. *)
Definition capsNotify : Downstream.capState :=
  {| Downstream.cs_nick := "me"; Downstream.cs_registered := true;
     Downstream.cs_capVersion := 302;
     Downstream.cs_supportedCaps := <["cap-notify" := ""]> ∅;
     Downstream.cs_caps := <["cap-notify" := true]> ∅ |}.

Definition upstreamCaps : list (gmap string bool) :=
  [ <["multi-prefix" := true]> ∅;
    <["multi-prefix" := true]> (<["away-notify" := true]> ∅) ].

End Scenario.

(** * Properties *)

Section CasemapIdempotent.
Import GoString Irc.

Lemma casemapASCIIByte_idem (r : byte) :
  casemapASCIIByte (casemapASCIIByte r) = casemapASCIIByte r.
Proof. destruct r as [[] [] [] [] [] [] [] []]; reflexivity. Qed.

Lemma casemapRFC1459Byte_idem (r : byte) :
  casemapRFC1459Byte (casemapRFC1459Byte r) = casemapRFC1459Byte r.
Proof. destruct r as [[] [] [] [] [] [] [] []]; reflexivity. Qed.

Lemma casemapRFC1459StrictByte_idem (r : byte) :
  casemapRFC1459StrictByte (casemapRFC1459StrictByte r) = casemapRFC1459StrictByte r.
Proof. destruct r as [[] [] [] [] [] [] [] []]; reflexivity. Qed.

Lemma mapBytes_idem (f : byte -> byte) :
  (∀ r, f (f r) = f r) → ∀ s, mapBytes f (mapBytes f s) = mapBytes f s.
Proof.
  intros Hf s. induction s as [|c s IH]; simpl; [reflexivity|].
  by rewrite Hf, IH.
Qed.

(** C9. Each of the casemapping functions ascii, rfc1459 and
    rfc1459-strict is idempotent, and the rfc1459 casemapping sends
    "FOO{}" and "foo[]" to the same name. *)
Theorem casemap_idempotent :
  (∀ s, casemapASCII (casemapASCII s) = casemapASCII s)
  ∧ (∀ s, casemapRFC1459 (casemapRFC1459 s) = casemapRFC1459 s)
  ∧ (∀ s, casemapRFC1459Strict (casemapRFC1459Strict s) = casemapRFC1459Strict s)
  ∧ casemapRFC1459 "FOO{}" = casemapRFC1459 "foo[]".
Proof.
  repeat split.
  - apply mapBytes_idem, casemapASCIIByte_idem.
  - apply mapBytes_idem, casemapRFC1459Byte_idem.
  - apply mapBytes_idem, casemapRFC1459StrictByte_idem.
Qed.

End CasemapIdempotent.

(** ** Runs of the string functions *)

Section StringRuns.
Import GoString Utf8.

Example Index_run :
  Index "chick" "ick" = 2 ∧ Index "chick" "dmr" = -1 ∧ Index "" "" = 0.
Proof. repeat split. Qed.

(** U+00E9 is C3 A9, U+20AC is E2 82 AC; a lone continuation byte is an
    error of width 1. *)
Example DecodeRuneInString_run :
  DecodeRuneInString (String (Zbyte 195) (String (Zbyte 169) "x")) = (233, 2)
  ∧ DecodeRuneInString (String (Zbyte 226) (String (Zbyte 130) (String (Zbyte 172) "")))
    = (8364, 3)
  ∧ DecodeRuneInString (String (Zbyte 169) "") = (RuneError, 1)
  ∧ DecodeRuneInString "" = (RuneError, 0).
Proof. repeat split. Qed.

Example DecodeLastRuneInString_run :
  DecodeLastRuneInString (String "x" (String (Zbyte 195) (String (Zbyte 169) ""))) = (233, 2)
  ∧ DecodeLastRuneInString "ab" = (98, 1)
  ∧ DecodeLastRuneInString "" = (RuneError, 0).
Proof. repeat split. Qed.

Example isHighlight_run :
  Irc.isHighlight (tables := asciiTables) "hi soju!" "soju" = Some true
  ∧ Irc.isHighlight (tables := asciiTables) "sojuice, soju-bot" "soju" = Some false
  ∧ UpstreamHighlight.isHighlight (tables := asciiTables) "soju: hello" "soju" = Some true
  ∧ Irc.isHighlight (tables := asciiTables) "" "" = Some true.
Proof. repeat split. Qed.

End StringRuns.

(** ** The highlight loop *)

Section HighlightLoop.
Import GoString Utf8.
Context {tables : Unicode}.

Lemma HasPrefix_length (s prefix : string) :
  HasPrefix s prefix = true → (String.length prefix ≤ String.length s)%nat.
Proof.
  revert s. induction prefix as [|p prefix IH]; intros s; simpl; [lia|].
  destruct s as [|c s]; simpl; [discriminate|].
  destruct (Ascii.eqb p c); [|discriminate].
  intros Hp. apply IH in Hp. lia.
Qed.

Lemma HasPrefix_empty (s : string) : HasPrefix s "" = true.
Proof. by destruct s. Qed.

Lemma indexFrom_unfold (s substr : string) (pos : Z) :
  indexFrom s substr pos =
    if HasPrefix s substr then pos
    else match s with
         | EmptyString => -1
         | String _ s' => indexFrom s' substr (pos + 1)
         end.
Proof. by destruct s. Qed.

Lemma indexFrom_bound (s substr : string) (pos : Z) :
  indexFrom s substr pos = -1
  ∨ (pos ≤ indexFrom s substr pos
     ∧ indexFrom s substr pos - pos + len substr ≤ len s).
Proof.
  revert pos. induction s as [|c s IH]; intros pos; rewrite indexFrom_unfold.
  - destruct (HasPrefix "" substr) eqn:Hp; [|by left].
    right. apply HasPrefix_length in Hp. unfold len. simpl in *. lia.
  - destruct (HasPrefix (String c s) substr) eqn:Hp.
    + right. apply HasPrefix_length in Hp. unfold len. simpl in *. lia.
    + destruct (IH (pos + 1)) as [->|[H1 H2]]; [by left|].
      right. unfold len in *. simpl String.length. lia.
Qed.

Lemma Index_bound (s substr : string) :
  Index s substr = -1 ∨ (0 ≤ Index s substr ∧ Index s substr + len substr ≤ len s).
Proof.
  unfold Index. destruct (indexFrom_bound s substr 0) as [?|[? ?]]; [by left|].
  right. lia.
Qed.

Lemma Index_empty (s : string) : Index s "" = 0.
Proof. unfold Index. destruct s; reflexivity. Qed.

Lemma length_drop (n : nat) (s : string) :
  String.length (drop n s) = (String.length s - n)%nat.
Proof.
  revert s. induction n as [|n IH]; intros s; simpl; [lia|].
  destruct s as [|c s]; simpl; [reflexivity|]. apply IH.
Qed.

Lemma sliceFrom_shorter (text nick : string) :
  nick ≠ "" → 0 ≤ Index text nick →
  (String.length (sliceFrom text (Index text nick + len nick)) < String.length text)%nat.
Proof.
  intros Hnick Hi. unfold sliceFrom. rewrite length_drop.
  destruct (Index_bound text nick) as [Hm|[_ Hb]]; [lia|].
  assert (0 < len nick).
  { unfold len. destruct nick; [done|]. simpl. lia. }
  unfold len in *. lia.
Qed.

(** With a nick that is not empty, the text gets shorter at each iteration. *)
Lemma Irc_isHighlightFuel_returns (nick : string) :
  nick ≠ "" →
  ∀ fuel text, (String.length text < fuel)%nat →
    is_Some (Irc.isHighlightFuel fuel text nick).
Proof.
  intros Hnick fuel. induction fuel as [|fuel IH]; intros text Hlen; [lia|].
  simpl. destruct (Index text nick <? 0) eqn:Hi; [by eexists|].
  destruct (_ && _); [by eexists|].
  apply IH. apply Z.ltb_ge in Hi.
  pose proof (sliceFrom_shorter text nick Hnick Hi). lia.
Qed.

Lemma Irc_isHighlightFuel_mono (nick : string) (b : bool) :
  ∀ fuel fuel' text, (fuel ≤ fuel')%nat →
    Irc.isHighlightFuel fuel text nick = Some b →
    Irc.isHighlightFuel fuel' text nick = Some b.
Proof.
  induction fuel as [|fuel IH]; intros fuel' text Hle; [discriminate|].
  destruct fuel' as [|fuel']; [lia|]. simpl.
  destruct (Index text nick <? 0); [done|].
  destruct (_ && _); [done|].
  apply IH. lia.
Qed.

Lemma Upstream_isHighlightFuel_returns (nick : string) :
  nick ≠ "" →
  ∀ fuel text, (String.length text < fuel)%nat →
    is_Some (UpstreamHighlight.isHighlightFuel fuel text nick).
Proof.
  intros Hnick fuel. induction fuel as [|fuel IH]; intros text Hlen; [lia|].
  simpl. destruct (Index text nick <? 0) eqn:Hi; [by eexists|].
  destruct (_ && _); [by eexists|].
  apply IH. apply Z.ltb_ge in Hi.
  pose proof (sliceFrom_shorter text nick Hnick Hi). lia.
Qed.

Lemma Upstream_isHighlightFuel_mono (nick : string) (b : bool) :
  ∀ fuel fuel' text, (fuel ≤ fuel')%nat →
    UpstreamHighlight.isHighlightFuel fuel text nick = Some b →
    UpstreamHighlight.isHighlightFuel fuel' text nick = Some b.
Proof.
  induction fuel as [|fuel IH]; intros fuel' text Hle; [discriminate|].
  destruct fuel' as [|fuel']; [lia|]. simpl.
  destruct (Index text nick <? 0); [done|].
  destruct (_ && _); [done|].
  apply IH. lia.
Qed.

(** With a nick that is not empty both versions of the highlight test return,
    after at most as many iterations as the text has bytes, and one more. *)
Theorem isHighlight_returns_nonempty_nick (text nick : string) :
  nick ≠ "" →
  (∃ b, Irc.isHighlight text nick = Some b
        ∧ ∀ fuel, (String.length text < fuel)%nat →
            Irc.isHighlightFuel fuel text nick = Some b)
  ∧ (∃ b, UpstreamHighlight.isHighlight text nick = Some b
          ∧ ∀ fuel, (String.length text < fuel)%nat →
              UpstreamHighlight.isHighlightFuel fuel text nick = Some b).
Proof.
  intros Hnick. split.
  - destruct (Irc_isHighlightFuel_returns nick Hnick (S (String.length text)) text)
      as [b Hb]; [lia|].
    exists b. split; [exact Hb|]. intros fuel Hf.
    eapply Irc_isHighlightFuel_mono; [|exact Hb]. lia.
  - destruct (Upstream_isHighlightFuel_returns nick Hnick (S (String.length text)) text)
      as [b Hb]; [lia|].
    exists b. split; [exact Hb|]. intros fuel Hf.
    eapply Upstream_isHighlightFuel_mono; [|exact Hb]. lia.
Qed.

Lemma sliceFrom_0 (text : string) : sliceFrom text 0 = text.
Proof. reflexivity. Qed.

(** With the empty nick the loop keeps its text: an iteration that does not
    return is followed by the same iteration. *)
Lemma Irc_isHighlightFuel_empty_nick (text : string) :
  Irc.isHighlightFuel 1 text "" = None →
  ∀ fuel, Irc.isHighlightFuel fuel text "" = None.
Proof.
  intros H1 fuel. induction fuel as [|fuel IH]; [reflexivity|].
  revert H1. simpl. rewrite Index_empty. simpl.
  change (len "") with 0. rewrite sliceFrom_0.
  destruct (_ && _); [discriminate|]. intros _. exact IH.
Qed.

Lemma Upstream_isHighlightFuel_empty_nick (text : string) :
  UpstreamHighlight.isHighlightFuel 1 text "" = None →
  ∀ fuel, UpstreamHighlight.isHighlightFuel fuel text "" = None.
Proof.
  intros H1 fuel. induction fuel as [|fuel IH]; [reflexivity|].
  revert H1. simpl. rewrite Index_empty. simpl.
  change (len "") with 0. rewrite sliceFrom_0.
  destruct (_ && _); [discriminate|]. intros _. exact IH.
Qed.

(** [None] from [isHighlight] is a loop that returns after no number of
    iterations. *)
Lemma isHighlight_None_diverges (text nick : string) :
  Irc.isHighlight text nick = None →
  ∀ fuel, Irc.isHighlightFuel fuel text nick = None.
Proof.
  intros Hnone. destruct (decide (nick = "")) as [->|Hnick].
  - apply Irc_isHighlightFuel_empty_nick.
    destruct (Irc.isHighlightFuel 1 text "") as [b|] eqn:H1; [|reflexivity].
    unfold Irc.isHighlight in Hnone.
    rewrite (Irc_isHighlightFuel_mono "" b 1 (S (String.length text)) text) in Hnone;
      [discriminate|lia|exact H1].
  - destruct (isHighlight_returns_nonempty_nick text nick Hnick) as [[b [Hb _]] _].
    congruence.
Qed.

(** C10. The highlight test does not return on every input: with the empty
    nick and the text "-" the loop of both versions ([irc.go] and
    [upstream.go]) finds the empty nick at index 0, sees that "-" is no word
    boundary, and continues with the same text, whatever the number of
    iterations. *)
Theorem isHighlight_empty_nick_loops :
  ∀ fuel : nat,
    Irc.isHighlightFuel fuel "-" "" = None
    ∧ UpstreamHighlight.isHighlightFuel fuel "-" "" = None.
Proof.
  intros fuel. split.
  - apply Irc_isHighlightFuel_empty_nick.
    cbn. by rewrite andb_false_r.
  - apply Upstream_isHighlightFuel_empty_nick.
    cbn. by rewrite andb_false_r.
Qed.

End HighlightLoop.

Lemma isHighlight_returns_nonempty_nick_witness :
  "soju" ≠ ""
  ∧ (∃ b, Irc.isHighlight (tables := asciiTables) "hi soju!" "soju" = Some b
          ∧ ∀ fuel, (String.length "hi soju!" < fuel)%nat →
              Irc.isHighlightFuel (tables := asciiTables) fuel "hi soju!" "soju" = Some b)
  ∧ (∃ b, UpstreamHighlight.isHighlight (tables := asciiTables) "hi soju!" "soju" = Some b
          ∧ ∀ fuel, (String.length "hi soju!" < fuel)%nat →
              UpstreamHighlight.isHighlightFuel (tables := asciiTables) fuel "hi soju!" "soju" = Some b).
Proof.
  split; [discriminate|].
  apply (isHighlight_returns_nonempty_nick (tables := asciiTables) "hi soju!" "soju"). discriminate.
Defined.

(** ** Rehashing a name-indexed map *)

Section Rehash.
Import GoString Irc.
Context {V : Type}.

Implicit Types (cm : casemapMap V) (entry : casemapEntry V).

(** The rehashed map holds [entry] under [name] when no other visited entry
    takes the name [name]. *)
Lemma rehash_lookup (newCasemap : casemapping) (name : string) entry :
  name = newCasemap (originalKey entry) →
  ∀ (entries : list (casemapEntry V)) (acc : gmap string (casemapEntry V)),
    (∀ entry', entry' ∈ entries → newCasemap (originalKey entry') = name → entry' = entry) →
    entry ∈ entries ∨ acc !! name = Some entry →
    rehash newCasemap entries acc !! name = Some entry.
Proof.
  intros Hname entries.
  induction entries as [|e rest IH]; intros acc Huniq Hin; simpl.
  - destruct Hin as [Hin|Hacc]; [|exact Hacc]. by apply elem_of_nil in Hin.
  - apply IH.
    + intros entry' Hin'. apply Huniq. by right.
    + destruct Hin as [Hin|Hacc].
      * apply elem_of_cons in Hin as [->|Hin]; [|by left].
        right. rewrite Hname. apply lookup_insert_eq.
      * right. destruct (decide (newCasemap (originalKey e) = name)) as [He|He].
        -- rewrite (Huniq e) by (by left || done).
           rewrite Hname. apply lookup_insert_eq.
        -- by rewrite lookup_insert_ne.
Qed.

Lemma SetValue_wellKeyed (name : string) (v : V) cm :
  wellKeyed cm → wellKeyed (SetValue name v cm).
Proof.
  intros Hwk k entry. unfold SetValue.
  destruct (innerMap cm !! casemap cm name) as [old|] eqn:Hold; simpl;
    intros Hk; apply lookup_insert_Some in Hk as [[<- <-]|[_ Hk]];
    simpl; eauto.
Qed.

Lemma newCasemapMap_wellKeyed : wellKeyed (@newCasemapMap V).
Proof. intros k entry. simpl. by rewrite lookup_empty. Qed.

Lemma rehash_keys (newCasemap : casemapping) (entries : list (casemapEntry V)) :
  ∀ acc : gmap string (casemapEntry V),
    (∀ k entry, acc !! k = Some entry → newCasemap (originalKey entry) = k) →
    ∀ k entry, rehash newCasemap entries acc !! k = Some entry →
               newCasemap (originalKey entry) = k.
Proof.
  induction entries as [|e rest IH]; intros acc Hacc; simpl; [exact Hacc|].
  apply IH. intros k entry [[<- <-]|[_ Hk]]%lookup_insert_Some; eauto.
Qed.

(** The invariant of the name-indexed maps: a new map has it, and
    [SetValue] and [SetCasemapping] keep or establish it. *)
Lemma SetCasemapping_wellKeyed (order : list (string * casemapEntry V))
    (newCasemap : casemapping) cm :
  wellKeyed (SetCasemappingInOrder order newCasemap cm).
Proof.
  intros k entry. simpl. apply rehash_keys.
  intros k' entry'. by rewrite lookup_empty.
Qed.

(** C7, as amended. [SetCasemapping] keeps the value of a name [k] present
    before the swap, in whatever order the entries are visited, provided
    the new casemapping gives [k] and the original key of its entry the same
    form and gives that form to the original key of no other entry. *)
Theorem SetCasemapping_preserves_unmerged
    cm (newCasemap : casemapping) (order : list (string * casemapEntry V))
    (k : string) entry :
  iterationOrder cm order →
  innerMap cm !! casemap cm k = Some entry →
  newCasemap k = newCasemap (originalKey entry) →
  (∀ k' entry', innerMap cm !! k' = Some entry' →
     newCasemap (originalKey entry') = newCasemap (originalKey entry) →
     k' = casemap cm k) →
  Value (SetCasemappingInOrder order newCasemap cm) k = Value cm k
  ∧ Value cm k = Some (value entry).
Proof.
  intros Horder Hentry Hk Hunmerged.
  assert (Value cm k = Some (value entry)) as Hbefore.
  { unfold Value. by rewrite Hentry. }
  split; [|exact Hbefore]. rewrite Hbefore.
  unfold Value, SetCasemappingInOrder. simpl. rewrite Hk.
  erewrite rehash_lookup; [reflexivity|reflexivity| |].
  - intros entry' Hin Hsame.
    apply list_elem_of_fmap in Hin as [[k' e'] [-> Hin]]. simpl in *.
    rewrite Horder in Hin. apply elem_of_map_to_list in Hin.
    pose proof (Hunmerged k' e' Hin Hsame) as ->. congruence.
  - left. apply list_elem_of_fmap. exists (casemap cm k, entry).
    split; [reflexivity|]. rewrite Horder. by apply elem_of_map_to_list.
Qed.

End Rehash.

Section RehashExamples.
Import GoString Irc Scenario.

Lemma SetCasemapping_preserves_unmerged_witness :
  let cm := SetValue "#soju" 7 (SetValue "Foo" 1 newCasemapMap) in
  Value (SetCasemapping casemapASCII cm) "Foo" = Value cm "Foo"
  ∧ Value cm "Foo" = Some 1.
Proof.
  intros cm.
  apply (SetCasemapping_preserves_unmerged cm casemapASCII
           (map_to_list (innerMap cm)) "Foo" (mkEntry "Foo" 1)).
  - by unfold iterationOrder.
  - vm_compute. reflexivity.
  - reflexivity.
  - intros k' entry' Hin Hsame.
    apply elem_of_map_to_list in Hin. vm_compute in Hin.
    apply elem_of_cons in Hin as [Hin|Hin].
    + injection Hin as -> ->. discriminate Hsame.
    + apply elem_of_cons in Hin as [Hin|Hin].
      * injection Hin as -> ->. reflexivity.
      * by apply elem_of_nil in Hin.
Defined.

(** C7, as stated, fails: when the new casemapping merges the original keys
    of two entries, one of them no longer yields its value, in whatever
    order the entries are visited. *)
Lemma SetCasemapping_merges_names :
  wellKeyed twoCases
  ∧ Has twoCases "Foo" = true ∧ Has twoCases "foo" = true
  ∧ ∀ order, iterationOrder twoCases order →
      ¬ (Value (SetCasemappingInOrder order casemapASCII twoCases) "Foo"
           = Value twoCases "Foo"
         ∧ Value (SetCasemappingInOrder order casemapASCII twoCases) "foo"
           = Value twoCases "foo").
Proof.
  split; [|split; [|split]].
  - apply SetValue_wellKeyed, SetValue_wellKeyed, newCasemapMap_wellKeyed.
  - by vm_compute.
  - by vm_compute.
  - intros order _ [HFoo Hfoo].
    assert (Value twoCases "Foo" = Some 1) as H1 by (by vm_compute).
    assert (Value twoCases "foo" = Some 2) as H2 by (by vm_compute).
    rewrite H1 in HFoo. rewrite H2 in Hfoo.
    unfold Value in HFoo, Hfoo. simpl in HFoo, Hfoo.
    change (casemapASCII "Foo") with "foo" in HFoo.
    change (casemapASCII "foo") with "foo" in Hfoo.
    congruence.
Qed.

End RehashExamples.

(** ** Nick changes *)

Section NickChange.
Import GoString Upstream Scenario.

Lemma renameMember_new (oldNick newNick : string) (ch : upstreamChannel) (ms : memberships) :
  uch_Members ch !! oldNick = Some ms →
  uch_Members (renameMember oldNick newNick ch) !! newNick = Some ms.
Proof.
  intros Hold. unfold renameMember. rewrite Hold. simpl. apply lookup_insert_eq.
Qed.

Lemma renameMember_old (oldNick newNick : string) (ch : upstreamChannel) :
  newNick ≠ oldNick →
  uch_Members (renameMember oldNick newNick ch) !! oldNick = None.
Proof.
  intros Hne. unfold renameMember.
  destruct (uch_Members ch !! oldNick) as [ms|] eqn:Hold; simpl; [|exact Hold].
  rewrite lookup_insert_ne by done. apply lookup_delete_eq.
Qed.

Lemma renameMember_other (oldNick newNick other : string) (ch : upstreamChannel) :
  other ≠ oldNick → other ≠ newNick →
  uch_Members (renameMember oldNick newNick ch) !! other = uch_Members ch !! other.
Proof.
  intros H1 H2. unfold renameMember.
  destruct (uch_Members ch !! oldNick) as [ms|]; simpl; [|reflexivity].
  rewrite lookup_insert_ne by done. by rewrite lookup_delete_ne.
Qed.

(** C4, as amended. The NICK case handles a message from prefix [P] to the
    new nick [N]: in every joined channel that had [P] as a member, [N] is a
    member afterwards with the membership set [P] had, and [P] is a member
    no longer when [N] differs from [P]; if [P] was the connection's own
    nick, [uc.nick] is [N] afterwards. *)
Theorem NICK_renames_member (netID : Z) (dcs : list downstreamConn)
    (msg : irc.Message) (uc : upstreamConn) (P : irc.Prefix) (N : string)
    (rest : list string) :
  irc.MPrefix msg = Some P →
  irc.Params msg = N :: rest →
  ∃ uc' events,
    handleMessage_NICK netID dcs msg uc = Ok (uc', events)
    ∧ (∀ x ch ms,
         uc_channels uc !! x = Some ch →
         uch_Members ch !! irc.Name P = Some ms →
         ∃ ch', uc_channels uc' !! x = Some ch'
                ∧ uch_Members ch' !! N = Some ms
                ∧ (N ≠ irc.Name P → uch_Members ch' !! irc.Name P = None))
    ∧ (irc.Name P = uc_nick uc → uc_nick uc' = N).
Proof.
  intros HP HN. unfold handleMessage_NICK. rewrite HP, HN.
  eexists _, _. split; [reflexivity|]. simpl. split.
  - intros x ch ms Hx Hms.
    exists (renameMember (irc.Name P) N ch). split; [|split].
    + by rewrite lookup_fmap, Hx.
    + by apply renameMember_new.
    + intros Hne. by apply renameMember_old.
  - intros Hme. by rewrite bool_decide_eq_true_2.
Qed.

(** Scenario 1: [:alice!u@h NICK bob]. *)
Lemma NICK_renames_member_witness :
  ∃ uc' events,
    handleMessage_NICK 1 [] (nickMsg "bob") ucAlice = Ok (uc', events)
    ∧ (∀ x ch ms,
         uc_channels ucAlice !! x = Some ch →
         uch_Members ch !! "alice" = Some ms →
         ∃ ch', uc_channels uc' !! x = Some ch'
                ∧ uch_Members ch' !! "bob" = Some ms
                ∧ ("bob" ≠ "alice" → uch_Members ch' !! "alice" = None))
    ∧ ("alice" = uc_nick ucAlice → uc_nick uc' = "bob").
Proof.
  apply (NICK_renames_member 1 [] (nickMsg "bob") ucAlice alice "bob" []);
    reflexivity.
Defined.

(** C4, as stated, fails when the new nick is the old one: the member entry
    is deleted and put back, so that [P] is still a member. *)
Lemma NICK_same_nick_keeps_member :
  ∃ uc' events ch',
    handleMessage_NICK 1 [] (nickMsg "alice") ucAlice = Ok (uc', events)
    ∧ uc_channels ucAlice !! "#x" = Some chanX
    ∧ uch_Members chanX !! "alice" = Some [op]
    ∧ uc_channels uc' !! "#x" = Some ch'
    ∧ uch_Members ch' !! "alice" = Some [op]
    ∧ uch_Members ch' !! "alice" ≠ None.
Proof.
  eexists _, _, _. split; [reflexivity|].
  split; [by vm_compute|]. split; [by vm_compute|].
  split; [by vm_compute|]. split; [by vm_compute|]. by vm_compute.
Qed.

End NickChange.

(** ** Outbound filtering *)

Section OutboundFiltering.
Import GoString Downstream.

Lemma SendMessage_tags_filtered (dc : downstreamConn) (tags : gmap string string)
    (name : string) :
  filter (λ kv, tagSupported dc kv.1 = true) tags !! name =
    if bool_decide (name = "time") && cap (dc_caps dc) "server-time"
    then tags !! name else None.
Proof.
  destruct (bool_decide (name = "time") && cap (dc_caps dc) "server-time") eqn:Hkeep.
  - destruct (tags !! name) as [v|] eqn:Hv.
    + apply map_lookup_filter_Some. split; [exact Hv|]. simpl.
      unfold tagSupported. apply andb_true_iff in Hkeep as [-> ->]. reflexivity.
    + apply map_lookup_filter_None. left. exact Hv.
  - apply map_lookup_filter_None. right. intros v _. simpl.
    unfold tagSupported.
    destruct (bool_decide (name = "time")); simpl in *; [by rewrite Hkeep|done].
Qed.

(** C8. Without the message-tags capability a TAGMSG is dropped and every
    other message is written with the [time] tag only, and with that tag
    only when server-time is enabled; without the extended-join capability
    a JOIN is written with its first parameter only. *)
Theorem SendMessage_filters (dc : downstreamConn) (msg : irc.Message) :
  (cap (dc_caps dc) "message-tags" = false →
     (irc.Command msg = "TAGMSG" → SendMessage dc msg = Dropped)
     ∧ (irc.Command msg ≠ "TAGMSG" →
        irc.Command msg ≠ "JOIN" ∨ irc.Params msg ≠ [] →
        ∃ out, SendMessage dc msg = Written out
               ∧ irc.Command out = irc.Command msg
               ∧ irc.MPrefix out = irc.MPrefix msg
               ∧ ∀ name, irc.Tags out !! name =
                   if bool_decide (name = "time") && cap (dc_caps dc) "server-time"
                   then irc.Tags msg !! name else None))
  ∧ (cap (dc_caps dc) "extended-join" = false →
     irc.Command msg = "JOIN" →
     ∀ p rest, irc.Params msg = p :: rest →
       ∃ out, SendMessage dc msg = Written out
              ∧ irc.Command out = "JOIN"
              ∧ irc.Params out = [p]).
Proof.
  split.
  - intros Htags. split.
    + intros Hcmd. unfold SendMessage. rewrite Htags. simpl.
      by rewrite bool_decide_eq_true_2.
    + intros Hcmd Hjoin. unfold SendMessage. rewrite Htags. simpl.
      rewrite (bool_decide_eq_false_2 _ Hcmd).
      destruct (bool_decide (irc.Command msg = "JOIN") && _) eqn:Hj.
      * apply andb_true_iff in Hj as [Hj _]. apply bool_decide_eq_true in Hj.
        destruct Hjoin as [Hjoin|Hjoin]; [done|].
        destruct (irc.Params msg) as [|p rest]; [done|].
        eexists. split; [reflexivity|]. simpl.
        split; [reflexivity|]. split; [reflexivity|].
        intros name. apply SendMessage_tags_filtered.
      * eexists. split; [reflexivity|]. simpl.
        split; [reflexivity|]. split; [reflexivity|].
        intros name. apply SendMessage_tags_filtered.
  - intros Hext Hcmd p rest Hparams. unfold SendMessage.
    rewrite Hcmd, Hext, Hparams. simpl.
    destruct (negb (cap (dc_caps dc) "message-tags")); simpl;
      eexists; (split; [reflexivity|]); simpl; by rewrite ?Hcmd.
Qed.

(** A client without capabilities: a TAGMSG is dropped, an extended JOIN
    loses its tags and its account and realname parameters. *)
Lemma SendMessage_filters_witness :
  let dc := Scenario.dcWith 1 "laptop" [] in
  let join := Scenario.taggedMsg "JOIN" ["#x"; "alice"; "Alice"] in
  SendMessage dc (Scenario.taggedMsg "TAGMSG" ["#x"]) = Dropped
  ∧ (∃ out, SendMessage dc join = Written out
            ∧ irc.Command out = irc.Command join
            ∧ irc.MPrefix out = irc.MPrefix join
            ∧ ∀ name, irc.Tags out !! name =
                if bool_decide (name = "time") && cap (dc_caps dc) "server-time"
                then irc.Tags join !! name else None)
  ∧ (∃ out, SendMessage dc join = Written out
            ∧ irc.Command out = "JOIN"
            ∧ irc.Params out = ["#x"]).
Proof.
  intros dc join.
  destruct (SendMessage_filters dc (Scenario.taggedMsg "TAGMSG" ["#x"])) as [Htag _].
  destruct (SendMessage_filters dc join) as [Htags Hjoin].
  split; [|split].
  - apply Htag; reflexivity.
  - apply Htags; [reflexivity|discriminate|right; discriminate].
  - apply (Hjoin eq_refl eq_refl "#x" ["alice"; "Alice"]). reflexivity.
Defined.

End OutboundFiltering.

(** ** Registration errors *)

Section RegistrationErrors.
Import GoString Upstream.






End RegistrationErrors.

(** ** Delivery receipts *)

Section DeliveryReceipts.
Import GoString Irc Downstream.

Lemma HasPrefix_app (prefix s : string) : HasPrefix (prefix +:+ s) prefix = true.
Proof.
  induction prefix as [|c prefix IH]; simpl; [by destruct s|].
  by rewrite Ascii.eqb_refl.
Qed.

Lemma drop_app (prefix s : string) : drop (String.length prefix) (prefix +:+ s) = s.
Proof. induction prefix as [|c prefix IH]; simpl; [reflexivity|exact IH]. Qed.

Lemma TrimPrefix_app (prefix s : string) : TrimPrefix (prefix +:+ s) prefix = s.
Proof. unfold TrimPrefix. by rewrite HasPrefix_app, drop_app. Qed.

Lemma SetValue_casemap {V} (name : string) (v : V) (cm : casemapMap V) :
  casemap (SetValue name v cm) = casemap cm.
Proof. unfold SetValue. by destruct (innerMap cm !! casemap cm name). Qed.

Lemma Value_SetValue_same {V} (name name' : string) (v : V) (cm : casemapMap V) :
  casemap cm name' = casemap cm name →
  Value (SetValue name v cm) name' = Some v.
Proof.
  intros Hsame. unfold Value. rewrite SetValue_casemap, Hsame.
  unfold SetValue. destruct (innerMap cm !! casemap cm name); simpl;
    by rewrite lookup_insert_eq.
Qed.

Lemma Value_SetValue_other {V} (name name' : string) (v : V) (cm : casemapMap V) :
  casemap cm name' ≠ casemap cm name →
  Value (SetValue name v cm) name' = Value cm name'.
Proof.
  intros Hother. unfold Value. rewrite SetValue_casemap.
  unfold SetValue. destruct (innerMap cm !! casemap cm name); simpl;
    by rewrite lookup_insert_ne.
Qed.


(** A load after a store, with a target of the same casemapped form. *)
Lemma LoadID_StoreID_same (target target' clientName msgID : string)
    (ds : User.deliveredStore) :
  casemap (User.ds_m ds) target' = casemap (User.ds_m ds) target →
  User.LoadID (User.StoreID target clientName msgID ds) target' clientName = msgID.
Proof.
  intros Hsame. unfold User.LoadID, User.StoreID.
  destruct (Value (User.ds_m ds) target); simpl;
    rewrite (Value_SetValue_same _ _ _ _ Hsame); by rewrite lookup_insert_eq.
Qed.

Lemma LoadID_StoreID_other (target target' clientName clientName' msgID : string)
    (ds : User.deliveredStore) :
  casemap (User.ds_m ds) target' ≠ casemap (User.ds_m ds) target →
  User.LoadID (User.StoreID target clientName msgID ds) target' clientName'
  = User.LoadID ds target' clientName'.
Proof.
  intros Hother. unfold User.LoadID, User.StoreID.
  destruct (Value (User.ds_m ds) target); simpl;
    by rewrite (Value_SetValue_other _ _ _ _ Hother).
Qed.

Lemma findNetworkByID_update (id : Z) (f : User.network → User.network)
    (networks : list User.network) (net : User.network) :
  (∀ n, User.net_ID (f n) = User.net_ID n) →
  User.findNetworkByID id networks = Some net →
  User.findNetworkByID id (User.updateNetworkByID id f networks) = Some (f net).
Proof.
  intros Hid. induction networks as [|n rest IH]; simpl; [discriminate|].
  destruct (User.net_ID n =? id) eqn:Hn; simpl.
  - intros [= ->]. by rewrite Hid, Hn.
  - rewrite Hn. exact IH.
Qed.

(** A PING has neither tags nor parameters to lose. *)
Lemma SendMessage_ping (dc : downstreamConn) (token : string) :
  SendMessage dc (pingMessage token) = Written (pingMessage token).
Proof.
  unfold SendMessage, pingMessage. simpl. rewrite andb_false_r. simpl.
  destruct (negb (cap (dc_caps dc) "message-tags")); [|reflexivity].
  by rewrite map_filter_empty.
Qed.

Lemma SendMessage_history (dc : downstreamConn) (msg : irc.Message) :
  messageSupportsHistory msg = true →
  ∃ out, SendMessage dc msg = Written out
         ∧ irc.Command out = irc.Command msg
         ∧ irc.Params out = irc.Params msg.
Proof.
  intros Hhist. unfold messageSupportsHistory in Hhist.
  assert (irc.Command msg ≠ "TAGMSG" ∧ irc.Command msg ≠ "JOIN") as [Htag Hjoin].
  { apply orb_true_iff in Hhist as [Hc|Hc]; apply bool_decide_eq_true in Hc;
      rewrite Hc; split; discriminate. }
  unfold SendMessage.
  rewrite (bool_decide_eq_false_2 _ Htag), (bool_decide_eq_false_2 _ Hjoin).
  rewrite andb_false_r. simpl. eexists. split; [reflexivity|]. by simpl.
Qed.

Context {S : Type} {storeOps : Store S} {msgIDs : MsgIDs}.

(** C1. A PRIVMSG or NOTICE sent with the internal message id [m] is
    followed by a PING with the token [soju-msgid-m]; when the client
    answers with a PONG that carries this token, and [m] names the network
    [netID] of the user and the target [t], the handler stores [m] for the
    target and the client name: [LoadID(t, clientName)] is [m] afterwards,
    for [t] and for every name of the same casemapped form. *)
Theorem pong_marks_delivered (u : User.user S) (dc : downstreamConn)
    (msg pong : irc.Message) (m : string) (netID : Z) (t : string)
    (net : User.network) :
  messageSupportsHistory msg = true →
  m ≠ "" →
  parseMsgID m = Some (netID, t) →
  User.getNetworkByID u netID = Some net →
  last (irc.Params pong) = Some ("soju-msgid-" +:+ m) →
  (∃ out, sendMessageWithID dc msg m
          = ([out; pingMessage ("soju-msgid-" +:+ m)], Done))
  ∧ ∃ u' net',
      handleMessageRegistered_PONG dc pong u = Ok u'
      ∧ User.getNetworkByID u' netID = Some net'
      ∧ User.LoadID (User.net_delivered net') t (dc_clientName dc) = m
      ∧ ∀ t', casemap (User.ds_m (User.net_delivered net)) t'
                = casemap (User.ds_m (User.net_delivered net)) t →
              User.LoadID (User.net_delivered net') t' (dc_clientName dc) = m.
Proof.
  intros Hhist Hm Hparse Hnet Htoken. split.
  - unfold sendMessageWithID, sendPing. rewrite Hhist.
    rewrite (bool_decide_eq_false_2 _ Hm). simpl.
    destruct (SendMessage_history dc msg Hhist) as [out [-> _]].
    rewrite SendMessage_ping. exists out. reflexivity.
  - unfold handleMessageRegistered_PONG. rewrite Htoken.
    unfold handlePong. rewrite HasPrefix_app, TrimPrefix_app. simpl.
    unfold ackMsgID. rewrite Hparse, Hnet.
    eexists _, _. split; [reflexivity|].
    unfold User.getNetworkByID in *. simpl.
    split; [|split].
    + by apply (findNetworkByID_update netID _ _ net).
    + simpl. by apply LoadID_StoreID_same.
    + intros t' Ht'. simpl. by apply LoadID_StoreID_same.
Qed.

End DeliveryReceipts.

(** The client "laptop" receives a PRIVMSG of "#x" with the id "m3" and
    answers the PING. *)
Lemma pong_marks_delivered_witness :
  let u := Scenario.user1 false Scenario.emptyDelivered [] Scenario.storeX in
  let dc := Scenario.dcWith 1 "laptop" [] in
  let msg := Scenario.privmsg Scenario.carol "#x" "three" in
  (∃ out, Downstream.sendMessageWithID dc msg "m3"
          = ([out; Downstream.pingMessage "soju-msgid-m3"], Downstream.Done))
  ∧ ∃ u' net',
      Downstream.handleMessageRegistered_PONG (msgIDs := Scenario.scenarioMsgIDs)
        dc (Scenario.pongMsg "soju-msgid-m3") u = Ok u'
      ∧ User.getNetworkByID u' 1 = Some net'
      ∧ User.LoadID (User.net_delivered net') "#x" "laptop" = "m3"
      ∧ ∀ t', Irc.casemapRFC1459 t' = Irc.casemapRFC1459 "#x" →
              User.LoadID (User.net_delivered net') t' "laptop" = "m3".
Proof.
  intros u dc msg.
  apply (pong_marks_delivered (msgIDs := Scenario.scenarioMsgIDs) u dc msg
           (Scenario.pongMsg "soju-msgid-m3") "m3" 1 "#x"
           (Scenario.network1 false Scenario.emptyDelivered)).
  - reflexivity.
  - discriminate.
  - reflexivity.
  - reflexivity.
  - reflexivity.
Defined.

(** ** Detached channels *)

Section DetachedChannels.
Import GoString Irc.
Context {tables : Unicode} {S : Type} {storeOps : Store S}.







End DetachedChannels.

(** The replay of "#x", detached and relaying every message, to a client
    with the batch capability: the two PRIVMSG recorded after "m1" would be
    "m3" only, the JOIN is skipped, and the PRIVMSG is relayed as a notice. *)
Example sendTargetBacklog_detached_run :
  Downstream.sendTargetBacklog (tables := asciiTables) "soju" (Some Scenario.storeX)
    (Scenario.dcWith 1 "laptop" ["batch"])
    (Scenario.network1 true Scenario.emptyDelivered) "#x" "m1"
  = ([Downstream.batchStart "soju" "#x";
      Downstream.serviceNOTICE (Scenario.dcWith 1 "laptop" ["batch"])
        "message in #x: <carol> three";
      Downstream.batchEnd "soju"],
     Downstream.Done).
Proof. vm_compute. reflexivity. Qed.


(** ** Backlog on reconnect *)

Section Backlog.
Import GoString Irc.
Context {tables : Unicode} {S : Type} {storeOps : Store S}.

Implicit Types (dc : downstreamConn) (net : User.network) (ds : User.deliveredStore).

Lemma andThen_Done (first second : Downstream.trace) :
  (Downstream.andThen first second).2 = Downstream.Done →
  first.2 = Downstream.Done ∧ second.2 = Downstream.Done.
Proof.
  unfold Downstream.andThen. destruct first as [sent []]; simpl; by intros.
Qed.

















End Backlog.

Section BacklogExamples.
Import GoString Irc.



(** Scenario 6: "laptop" had acknowledged "m1" of "#x" and reconnects with
    the batch capability. The PRIVMSG "m3" is replayed in a batch, without
    the batch tag since the client has no message-tags; the JOIN "m2" is
    not; the delivered id is "m3" afterwards. *)
Example welcomeBacklog_run :
  let u := Scenario.user1 false Scenario.deliveredX [] Scenario.storeX in
  let dc := Scenario.dcWith 1 "laptop" ["batch"] in
  let net := Scenario.network1 false Scenario.deliveredX in
  let r := Downstream.welcomeBacklog (tables := asciiTables) u dc net
             (map_to_list (innerMap (User.ds_m Scenario.deliveredX))) in
  r.2 = ([Downstream.batchStart "soju" "#x";
          Scenario.privmsg Scenario.carol "#x" "three";
          Downstream.batchEnd "soju"], Downstream.Done)
  ∧ User.LoadID (User.net_delivered r.1) "#x" "laptop" = "m3".
Proof. vm_compute. split; reflexivity. Qed.



End BacklogExamples.

(** ** Pending LIST commands *)

Section PendingLISTs.
Import GoString Upstream.
Context {S : Type} {storeOps : Store S}.

Implicit Types (u : user S) (net : network) (pl : pendingLIST) (pls : list pendingLIST).


























End PendingLISTs.

Section PendingLISTExamples.
Import GoString Upstream.

(** Scenario 3: network 2 ends its LIST, then network 1 does. The first
    RPL_LISTEND sends nothing, the second one sends the one RPL_LISTEND of
    the downstream and leaves no pending LIST. *)
Example LIST_fan_in_run :
  let dc := Scenario.dcWith 1 "laptop" [] in
  (handleMessage_LISTENDs [1%nat] (Scenario.listUser [Scenario.plBoth])).2 = []
  ∧ (handleMessage_LISTENDs [1%nat; 0%nat] (Scenario.listUser [Scenario.plBoth])).2
    = [DownstreamSendMessage 1 (listEnd "soju" dc)]
  ∧ u_pendingLISTs
      (handleMessage_LISTENDs [1%nat; 0%nat] (Scenario.listUser [Scenario.plBoth])).1
    = [].
Proof. vm_compute. repeat split; reflexivity. Qed.


End PendingLISTExamples.

(** ** User modes *)

Section UserModeStrings.
Import GoString UserModes.

Lemma bytes_app (s t : string) :
  list_ascii_of_string (s +:+ t) = (list_ascii_of_string s ++ list_ascii_of_string t)%list.
Proof. induction s as [|c s IH]; simpl; [reflexivity|by rewrite IH]. Qed.

Lemma app_cons_string (c : byte) (s t : string) :
  String c s +:+ t = String c (s +:+ t).
Proof. reflexivity. Qed.

Lemma app_nil_string (t : string) : "" +:+ t = t.
Proof. reflexivity. Qed.

Lemma string_length_app (s t : string) :
  String.length (s +:+ t) = (String.length s + String.length t)%nat.
Proof. induction s as [|c s IH]; simpl; [reflexivity|by rewrite IH]. Qed.

Lemma app_assoc_string (s t u : string) : (s +:+ t) +:+ u = s +:+ (t +:+ u).
Proof.
  induction s as [|c s IH]; [reflexivity|].
  rewrite !app_cons_string. by rewrite IH.
Qed.

Lemma string_take_app (pre post : string) :
  take (String.length pre) (pre +:+ post) = pre.
Proof. induction pre as [|c pre IH]; simpl; [by destruct post|by rewrite IH]. Qed.

Lemma string_drop_app (pre post : string) :
  drop (String.length pre) (pre +:+ post) = post.
Proof. induction pre as [|c pre IH]; simpl; [reflexivity|exact IH]. Qed.

(** [IndexByte] finds the first occurrence: what stands before it has no
    [c]. *)
Lemma indexByteFrom_spec (s : string) (c : byte) (pos : Z) :
  (indexByteFrom s c pos = -1 ∧ (c ∉ list_ascii_of_string s))
  ∨ (∃ pre post, s = (pre +:+ String c post)
       ∧ (c ∉ list_ascii_of_string pre)
       ∧ indexByteFrom s c pos = pos + len pre).
Proof.
  revert pos. induction s as [|b s IH]; intros pos; simpl.
  - left. split; [reflexivity|]. apply not_elem_of_nil.
  - destruct (Ascii.eqb_spec b c) as [->|Hbc].
    + right. exists "", s. repeat split; [apply not_elem_of_nil|].
      unfold len. simpl. lia.
    + destruct (IH (pos + 1)) as [[Hi Hnot]|(pre & post & -> & Hnot & Hi)].
      * left. split; [exact Hi|]. apply not_elem_of_cons. by split.
      * right. exists (String b pre), post. repeat split.
        -- simpl. apply not_elem_of_cons. by split.
        -- rewrite Hi. unfold len. simpl String.length. lia.
Qed.

Lemma IndexByte_spec (s : string) (c : byte) :
  (IndexByte s c = -1 ∧ (c ∉ list_ascii_of_string s))
  ∨ (∃ pre post, s = (pre +:+ String c post)
       ∧ (c ∉ list_ascii_of_string pre)
       ∧ IndexByte s c = len pre).
Proof.
  unfold IndexByte.
  destruct (indexByteFrom_spec s c 0) as [?|(pre & post & ? & ? & ->)]; [by left|].
  right. by exists pre, post.
Qed.

Lemma Has_elem_of (ms : userModes) (c : byte) :
  Has ms c = true ↔ c ∈ list_ascii_of_string ms.
Proof.
  unfold Has.
  destruct (IndexByte_spec ms c) as [[-> Hnot]|(pre & post & -> & Hnot & ->)].
  - split; [discriminate|done].
  - split; [|intros _; apply Z.leb_le; unfold len; lia].
    intros _. rewrite bytes_app. apply elem_of_app. right. simpl. by left.
Qed.

Lemma Has_false (ms : userModes) (c : byte) :
  Has ms c = false ↔ c ∉ list_ascii_of_string ms.
Proof.
  rewrite <- Has_elem_of. destruct (Has ms c); split; congruence.
Qed.

(** [Del] takes out the first occurrence. *)
Lemma Del_spec (c : byte) (ms : userModes) :
  ((c ∉ list_ascii_of_string ms) ∧ Del c ms = ms)
  ∨ (∃ pre post, ms = (pre +:+ String c post)
       ∧ (c ∉ list_ascii_of_string pre)
       ∧ Del c ms = (pre +:+ post)).
Proof.
  unfold Del.
  destruct (IndexByte_spec ms c) as [[-> Hnot]|(pre & post & -> & Hnot & ->)].
  - left. by split.
  - right. exists pre, post. repeat split; [exact Hnot|].
    assert ((0 <=? len pre) = true) as -> by (apply Z.leb_le; unfold len; lia).
    unfold sliceTo, sliceFrom, len.
    rewrite Nat2Z.id.
    replace (Z.to_nat (Z.of_nat (String.length pre) + 1))
      with (String.length (pre +:+ String c "")).
    2:{ rewrite string_length_app. simpl. lia. }
    rewrite string_take_app.
    replace (pre +:+ String c post) with ((pre +:+ String c "") +:+ post).
    2:{ by rewrite app_assoc_string. }
    by rewrite string_drop_app.
Qed.

Lemma stringOfByte_ascii (c : byte) :
  byteZ c < 128 → stringOfByte c = String c "".
Proof. unfold stringOfByte. intros Hc. by apply Z.ltb_lt in Hc as ->. Qed.

(** X3. [Add] and [Del] change the membership of their letter and of no
    other. A letter from 128 on is appended as the two bytes of its UTF-8
    encoding, neither of which is the letter: [Add] is for ASCII letters.
    [Del] takes out one occurrence: it clears the letter when the modes
    hold no letter twice. *)
Theorem userModes_Add_Del_Has (c d : byte) (ms : userModes) :
  byteZ c < 128 →
  NoDup (list_ascii_of_string ms) →
  Has (Add c ms) d = (Has ms d || bool_decide (d = c))
  ∧ Has (Del c ms) d = (Has ms d && negb (bool_decide (d = c))).
Proof.
  intros Hc Hnd. split.
  - unfold Add. destruct (Has ms c) eqn:Hhas; simpl.
    + destruct (bool_decide_reflect (d = c)) as [->|Hne].
      * by rewrite Hhas.
      * by rewrite orb_false_r.
    + rewrite stringOfByte_ascii by exact Hc.
      apply eq_true_iff_eq. rewrite orb_true_iff, bool_decide_eq_true.
      rewrite !Has_elem_of, bytes_app, elem_of_app. simpl.
      rewrite list_elem_of_singleton. reflexivity.
  - apply eq_true_iff_eq. rewrite andb_true_iff, negb_true_iff, bool_decide_eq_false.
    rewrite !Has_elem_of.
    destruct (Del_spec c ms) as [[Hnot ->]|(pre & post & -> & Hnot & ->)].
    + split; [|tauto]. intros Hd. split; [exact Hd|]. by intros ->.
    + rewrite bytes_app in Hnd. simpl in Hnd.
      apply NoDup_app in Hnd as (Hpre & Hdisj & Hpost).
      apply NoDup_cons in Hpost as [Hcpost Hpost].
      rewrite !bytes_app. simpl. rewrite !elem_of_app, elem_of_cons.
      split.
      * intros [Hd|Hd]; (split; [tauto|]); by intros ->.
      * intros [[Hd|[Hd|Hd]] Hne]; tauto.
Qed.

Lemma Add_NoDup (c : byte) (ms : userModes) :
  byteZ c < 128 → NoDup (list_ascii_of_string ms) → NoDup (list_ascii_of_string (Add c ms)).
Proof.
  intros Hc Hnd. unfold Add. destruct (Has ms c) eqn:Hhas; simpl; [exact Hnd|].
  rewrite stringOfByte_ascii by exact Hc. rewrite bytes_app. simpl.
  apply NoDup_app. split; [exact Hnd|]. split.
  - intros x Hx Hx'. apply list_elem_of_singleton in Hx' as ->.
    by apply Has_false in Hhas.
  - apply NoDup_singleton.
Qed.

Lemma Del_NoDup (c : byte) (ms : userModes) :
  NoDup (list_ascii_of_string ms) → NoDup (list_ascii_of_string (Del c ms)).
Proof.
  intros Hnd.
  destruct (Del_spec c ms) as [[Hnot ->]|(pre & post & -> & Hnot & ->)]; [exact Hnd|].
  rewrite bytes_app in *. simpl in Hnd.
  apply NoDup_app in Hnd as (Hpre & Hdisj & Hpost).
  apply NoDup_cons in Hpost as [Hcpost Hpost].
  apply NoDup_app. split; [exact Hpre|]. split; [|exact Hpost].
  intros x Hx Hx'. apply (Hdisj x Hx). by right.
Qed.

Lemma applyLoop_NoDup (s : string) :
  (∀ c, c ∈ list_ascii_of_string s → byteZ c < 128) →
  ∀ plusMinus ms,
    NoDup (list_ascii_of_string ms) →
    NoDup (list_ascii_of_string (applyLoop s plusMinus ms).1).
Proof.
  induction s as [|c s IH]; intros Hs plusMinus ms Hnd; simpl; [exact Hnd|].
  assert (∀ c', c' ∈ list_ascii_of_string s → byteZ c' < 128) as Hs'.
  { intros c' Hc'. apply Hs. simpl. by right. }
  assert (byteZ c < 128) as Hc by (apply Hs; simpl; by left).
  destruct (_ || _); [by apply IH|].
  destruct (Ascii.eqb plusMinus "+"); [by apply IH, Add_NoDup|].
  destruct (Ascii.eqb plusMinus "-"); [by apply IH, Del_NoDup|].
  exact Hnd.
Qed.

(** X2. The modes hold no letter twice, and [Apply] keeps them so, whether it
    fails or not, when the mode string is made of ASCII bytes. *)
Theorem userModes_Apply_NoDup (s : string) (ms : userModes) :
  (∀ c, c ∈ list_ascii_of_string s → byteZ c < 128) →
  NoDup (list_ascii_of_string ms) →
  NoDup (list_ascii_of_string (Apply s ms).1).
Proof. intros Hs Hnd. by apply applyLoop_NoDup. Qed.

Lemma applyLoop_signed (s : string) :
  ∀ plusMinus ms,
    plusMinus = "+"%char ∨ plusMinus = "-"%char →
    (applyLoop s plusMinus ms).2 = None.
Proof.
  induction s as [|c s IH]; intros plusMinus ms Hpm; simpl; [reflexivity|].
  destruct (Ascii.eqb_spec c "+") as [->|Hp]; simpl; [apply IH; by left|].
  destruct (Ascii.eqb_spec c "-") as [->|Hm]; simpl; [apply IH; by right|].
  destruct Hpm as [->| ->]; simpl; apply IH; (by left) || (by right).
Qed.

(** X1. [Apply] fails exactly on the mode strings that start with a letter, a
    byte that is neither [+] nor [-]; it has changed no mode then. *)
Theorem userModes_Apply_error_iff (s : string) (ms : userModes) :
  ((∃ err, (Apply s ms).2 = Some err)
   ↔ ∃ c rest, s = String c rest ∧ c ≠ "+"%char ∧ c ≠ "-"%char)
  ∧ ((Apply s ms).2 ≠ None → (Apply s ms).1 = ms).
Proof.
  unfold Apply. destruct s as [|c rest]; simpl.
  - split; [|done]. split; [by intros [err ?]|by intros (c & rest & ? & _)].
  - destruct (Ascii.eqb_spec c "+") as [->|Hp]; simpl.
    { rewrite applyLoop_signed by (by left).
      split; [|done]. split; [by intros [err ?]|].
      by intros (c & rest' & [= <- _] & Hc & _). }
    destruct (Ascii.eqb_spec c "-") as [->|Hm]; simpl.
    { rewrite applyLoop_signed by (by right).
      split; [|done]. split; [by intros [err ?]|].
      by intros (c & rest' & [= <- _] & _ & Hc). }
    split; [|done]. split; [|by eexists].
    intros _. by exists c, rest.
Qed.

End UserModeStrings.

Lemma userModes_Add_Del_Has_witness :
  UserModes.Has (UserModes.Add "i"%char "w") "i"%char = true
  ∧ UserModes.Has (UserModes.Del "w"%char "wi") "w"%char = false.
Proof.
  assert (NoDup (list_ascii_of_string "w")) as Hw.
  { apply (bool_decide_unpack _). by vm_compute. }
  assert (NoDup (list_ascii_of_string "wi")) as Hwi.
  { apply (bool_decide_unpack _). by vm_compute. }
  split.
  - pose proof (userModes_Add_Del_Has "i"%char "i"%char "w") as [Hadd _];
      [by vm_compute|exact Hw|].
    rewrite Hadd. reflexivity.
  - pose proof (userModes_Add_Del_Has "w"%char "w"%char "wi") as [_ Hdel];
      [by vm_compute|exact Hwi|].
    rewrite Hdel. reflexivity.
Defined.

Lemma userModes_Apply_NoDup_witness :
  NoDup (list_ascii_of_string (UserModes.Apply "+iw-i" "i").1).
Proof.
  apply userModes_Apply_NoDup.
  - intros c Hc. vm_compute in Hc.
    repeat (apply elem_of_cons in Hc as [->|Hc]; [by vm_compute|]).
    by apply elem_of_nil in Hc.
  - apply (bool_decide_unpack _). by vm_compute.
Defined.

(** ** Client tags, numerics *)

Section MessageHelpers.
Import GoString IrcHelpers.

Lemma copyClientTagsLoop_other (k : string) (entries : list (string * string)) :
  ∀ t : gmap string string,
    (HasPrefix k "+" = false ∨ k ∉ entries.*1) →
    copyClientTagsLoop entries t !! k = t !! k.
Proof.
  induction entries as [|[k' v'] rest IH]; intros t Hk; simpl; [reflexivity|].
  rewrite IH.
  - destruct (HasPrefix k' "+") eqn:Hp; [|reflexivity].
    apply lookup_insert_ne. intros ->.
    destruct Hk as [Hk|Hk]; [congruence|].
    apply Hk. simpl. by left.
  - destruct Hk as [Hk|Hk]; [by left|]. right.
    intros Hin. apply Hk. simpl. by right.
Qed.

Lemma copyClientTagsLoop_copied (k v : string) (entries : list (string * string)) :
  ∀ t : gmap string string,
    NoDup entries.*1 → (k, v) ∈ entries → HasPrefix k "+" = true →
    copyClientTagsLoop entries t !! k = Some v.
Proof.
  induction entries as [|[k' v'] rest IH]; intros t Hnd Hin Hp; simpl.
  - by apply elem_of_nil in Hin.
  - simpl in Hnd. apply NoDup_cons in Hnd as [Hk' Hnd].
    apply elem_of_cons in Hin as [[= <- <-]|Hin].
    + rewrite Hp. rewrite copyClientTagsLoop_other by (by right).
      apply lookup_insert_eq.
    + by apply IH.
Qed.

(** X4. In whatever order the tags are visited, [copyClientTags] gives the tags
    whose name starts with [+], the client-only tags, with their values, and
    no other tag. *)
Theorem copyClientTags_client_only (tags : gmap string string)
    (order : list (string * string)) (k : string) :
  order ≡ₚ map_to_list tags →
  copyClientTagsInOrder order !! k = if HasPrefix k "+" then tags !! k else None.
Proof.
  intros Horder. unfold copyClientTagsInOrder.
  assert (NoDup order.*1) as Hnd.
  { rewrite Horder. apply NoDup_fst_map_to_list. }
  destruct (HasPrefix k "+") eqn:Hp.
  - destruct (tags !! k) as [v|] eqn:Hk.
    + apply copyClientTagsLoop_copied; [exact Hnd| |exact Hp].
      rewrite Horder. by apply elem_of_map_to_list.
    + rewrite copyClientTagsLoop_other; [apply lookup_empty|].
      right. intros Hin. apply list_elem_of_fmap in Hin as [[k' v] [-> Hin]].
      rewrite Horder in Hin. apply elem_of_map_to_list in Hin.
      simpl in Hk. congruence.
  - rewrite copyClientTagsLoop_other by (by left). apply lookup_empty.
Qed.

(** X5. [isNumeric] holds of the commands made of three ASCII digits and of no
    other. *)
Theorem isNumeric_three_digits (cmd : string) :
  isNumeric cmd = true
  ↔ ∃ a b c : byte,
      cmd = String a (String b (String c ""))
      ∧ (byteZ "0"%char ≤ byteZ a ≤ byteZ "9"%char)
      ∧ (byteZ "0"%char ≤ byteZ b ≤ byteZ "9"%char)
      ∧ (byteZ "0"%char ≤ byteZ c ≤ byteZ "9"%char).
Proof.
  unfold isNumeric. split.
  - destruct cmd as [|a [|b [|c [|d rest]]]]; try discriminate.
    + simpl. unfold index. simpl.
      change (byteZ "0"%char) with 48. change (byteZ "9"%char) with 57.
      destruct ((byteZ a <? 48) || (57 <? byteZ a)) eqn:Ha; [discriminate|].
      destruct ((byteZ b <? 48) || (57 <? byteZ b)) eqn:Hb; [discriminate|].
      destruct ((byteZ c <? 48) || (57 <? byteZ c)) eqn:Hc; [discriminate|].
      intros _. exists a, b, c.
      apply orb_false_elim in Ha as [Ha1 Ha2].
      apply orb_false_elim in Hb as [Hb1 Hb2].
      apply orb_false_elim in Hc as [Hc1 Hc2].
      repeat split; lia.
    + unfold len. simpl String.length.
      destruct (Z.eqb_spec (Z.of_nat (Datatypes.S (Datatypes.S (Datatypes.S (Datatypes.S (String.length rest)))))) 3);
        [lia|discriminate].
  - intros (a & b & c & -> & Ha & Hb & Hc). simpl. unfold index. simpl.
    change (byteZ "0"%char) with 48 in *. change (byteZ "9"%char) with 57 in *.
    assert ((byteZ a <? 48) || (57 <? byteZ a) = false) as -> by lia.
    assert ((byteZ b <? 48) || (57 <? byteZ b) = false) as -> by lia.
    assert ((byteZ c <? 48) || (57 <? byteZ c) = false) as -> by lia.
    reflexivity.
Qed.

End MessageHelpers.

Lemma copyClientTags_client_only_witness :
  let tags : gmap string string := <["+typing" := "active"]> (<["time" := "now"]> ∅) in
  IrcHelpers.copyClientTags tags !! "+typing" = Some "active"
  ∧ IrcHelpers.copyClientTags tags !! "time" = None.
Proof.
  intros tags. split.
  - unfold IrcHelpers.copyClientTags.
    rewrite (copyClientTags_client_only tags (map_to_list tags) "+typing"); [|reflexivity].
    by vm_compute.
  - unfold IrcHelpers.copyClientTags.
    rewrite (copyClientTags_client_only tags (map_to_list tags) "time"); [|reflexivity].
    by vm_compute.
Defined.
(** ** Casemappings compared *)

Section CasemapOrder.
Import GoString Irc.

Lemma mapBytes_compose (f g : byte → byte) (s : string) :
  mapBytes f (mapBytes g s) = mapBytes (λ r, f (g r)) s.
Proof. induction s as [|c s IH]; simpl; [reflexivity|by rewrite IH]. Qed.

Lemma mapBytes_ext (f g : byte → byte) (s : string) :
  (∀ r, f r = g r) → mapBytes f s = mapBytes g s.
Proof. intros Hfg. induction s as [|c s IH]; simpl; [reflexivity|by rewrite Hfg, IH]. Qed.

Lemma casemapRFC1459Strict_after_ASCII (s : string) :
  casemapRFC1459Strict (casemapASCII s) = casemapRFC1459Strict s.
Proof.
  unfold casemapRFC1459Strict, casemapASCII. rewrite mapBytes_compose.
  apply mapBytes_ext. intros r. destruct r as [[] [] [] [] [] [] [] []]; reflexivity.
Qed.

Lemma casemapRFC1459_after_Strict (s : string) :
  casemapRFC1459 (casemapRFC1459Strict s) = casemapRFC1459 s.
Proof.
  unfold casemapRFC1459Strict, casemapRFC1459. rewrite mapBytes_compose.
  apply mapBytes_ext. intros r. destruct r as [[] [] [] [] [] [] [] []]; reflexivity.
Qed.

(** X6. The three casemappings are ordered: two names the ascii casemapping
    takes for the same are the same under rfc1459-strict, and two names
    rfc1459-strict takes for the same are the same under rfc1459. *)
Theorem casemappings_ordered (a b : string) :
  (casemapASCII a = casemapASCII b → casemapRFC1459Strict a = casemapRFC1459Strict b)
  ∧ (casemapRFC1459Strict a = casemapRFC1459Strict b → casemapRFC1459 a = casemapRFC1459 b).
Proof.
  split; intros Hab.
  - rewrite <- (casemapRFC1459Strict_after_ASCII a), <- (casemapRFC1459Strict_after_ASCII b).
    by rewrite Hab.
  - rewrite <- (casemapRFC1459_after_Strict a), <- (casemapRFC1459_after_Strict b).
    by rewrite Hab.
Qed.

Lemma partialCasemapBytes_mapBytes (f : byte → byte) (s : string) :
  partialCasemapBytes (mapBytes f s) s
  = mapBytes (λ r, if negb (isASCIILetter r) then f r else r) s.
Proof. induction s as [|c s IH]; simpl; [reflexivity|by rewrite IH]. Qed.

Lemma partialCasemap_mapBytes (f : byte → byte) (name : string) :
  (∀ r, f (if negb (isASCIILetter r) then f r else r) = f r) →
  mapBytes f (partialCasemap (mapBytes f) name) = mapBytes f name.
Proof.
  intros Hf. unfold partialCasemap.
  rewrite partialCasemapBytes_mapBytes, mapBytes_compose.
  by apply mapBytes_ext.
Qed.

Lemma partialCasemapBytes_letters (nameFullyCM name : string) (i : nat) (r : byte) :
  String.get i name = Some r → isASCIILetter r = true →
  String.get i (partialCasemapBytes nameFullyCM name) = Some r.
Proof.
  revert nameFullyCM i. induction name as [|c name IH]; intros nameFullyCM i; simpl.
  - by destruct i.
  - destruct nameFullyCM as [|cm restCM]; destruct i as [|i]; simpl.
    + intros [= ->] ->. reflexivity.
    + apply IH.
    + intros [= ->] ->. reflexivity.
    + apply IH.
Qed.

(** X7. The name [partialCasemap] gives under one of the casemappings of the
    CASEMAPPING token is the same name under that casemapping, and it has
    the ASCII letters of the name where the name has them, in their case. *)
Theorem partialCasemap_same_name (tokenValue : string) (cm : casemapping) (name : string) :
  parseCasemappingToken tokenValue = Some cm →
  cm (partialCasemap cm name) = cm name
  ∧ ∀ (i : nat) (r : byte),
      String.get i name = Some r → isASCIILetter r = true →
      String.get i (partialCasemap cm name) = Some r.
Proof.
  intros Htoken. split.
  - unfold parseCasemappingToken in Htoken.
    destruct (String.eqb tokenValue "ascii");
      [|destruct (String.eqb tokenValue "rfc1459");
        [|destruct (String.eqb tokenValue "rfc1459-strict"); [|discriminate]]];
      injection Htoken as <-; apply partialCasemap_mapBytes;
      intros r; destruct r as [[] [] [] [] [] [] [] []]; reflexivity.
  - intros i r. apply partialCasemapBytes_letters.
Qed.

End CasemapOrder.

Lemma casemappings_ordered_witness :
  Irc.casemapRFC1459Strict "Nick{a}" = Irc.casemapRFC1459Strict "nICK{A}"
  ∧ Irc.casemapRFC1459 "Nick{a}~" = Irc.casemapRFC1459 "nick[a]~".
Proof.
  split.
  - apply (casemappings_ordered "Nick{a}" "nICK{A}"). reflexivity.
  - apply (casemappings_ordered "Nick{a}~" "nick[a]~"). reflexivity.
Defined.

Lemma partialCasemap_same_name_witness :
  Irc.casemapRFC1459 (Irc.partialCasemap Irc.casemapRFC1459 "Nick{a}")
  = Irc.casemapRFC1459 "Nick{a}"
  ∧ String.get 0 (Irc.partialCasemap Irc.casemapRFC1459 "Nick{a}") = Some "N"%char.
Proof.
  destruct (partialCasemap_same_name "rfc1459" Irc.casemapRFC1459 "Nick{a}")
    as [Hsame Hletters]; [reflexivity|].
  split; [exact Hsame|]. by apply Hletters.
Defined.
(** ** The name-indexed map: insertion, deletion, a casemapping set again *)

Section CasemapMapOperations.
Import GoString Irc.
Context {V : Type}.

Implicit Types (cm : casemapMap V) (entry : casemapEntry V).

(** X8. [SetValue] on a name the map has, in whatever spelling, replaces the
    value and keeps the spelling stored first and the number of entries; on
    a new name it adds one entry under the spelling given. The other names
    keep their entry. *)
Theorem SetValue_first_spelling (name : string) (v : V) cm (name' : string) :
  OriginalKey (SetValue name v cm) name'
    = (if decide (casemap cm name' = casemap cm name)
       then Some (default name (OriginalKey cm name))
       else OriginalKey cm name')
  ∧ Value (SetValue name v cm) name'
    = (if decide (casemap cm name' = casemap cm name) then Some v else Value cm name')
  ∧ Len (SetValue name v cm) = (if Has cm name then Len cm else Len cm + 1).
Proof.
  unfold OriginalKey, Value, Len, Has, SetValue.
  destruct (innerMap cm !! casemap cm name) as [old|] eqn:Hold; simpl.
  - repeat split.
    + destruct (decide _) as [->|Hne].
      * by rewrite lookup_insert_eq.
      * by rewrite lookup_insert_ne.
    + destruct (decide _) as [->|Hne].
      * by rewrite lookup_insert_eq.
      * by rewrite lookup_insert_ne.
    + rewrite map_size_insert_Some by (by eexists). reflexivity.
  - repeat split.
    + destruct (decide _) as [->|Hne].
      * by rewrite lookup_insert_eq.
      * by rewrite lookup_insert_ne.
    + destruct (decide _) as [->|Hne].
      * by rewrite lookup_insert_eq.
      * by rewrite lookup_insert_ne.
    + rewrite map_size_insert_None by exact Hold. lia.
Qed.

(** X9. [Delete] takes out the entry of the name, in whatever spelling it is
    given, and no other entry; the entries left stay under the casemapped
    form of their original key. *)
Theorem Delete_removes_name (name : string) cm (name' : string) :
  Value (Delete name cm) name'
    = (if decide (casemap cm name' = casemap cm name) then None else Value cm name')
  ∧ Has (Delete name cm) name = false
  ∧ Len (Delete name cm) = (if Has cm name then Len cm - 1 else Len cm)
  ∧ (wellKeyed cm → wellKeyed (Delete name cm)).
Proof.
  unfold Value, Len, Has, Delete. simpl. repeat split.
  - destruct (decide _) as [->|Hne].
    + by rewrite lookup_delete_eq.
    + by rewrite lookup_delete_ne.
  - rewrite lookup_delete_eq. apply bool_decide_eq_false_2. by intros [? ?].
  - destruct (innerMap cm !! casemap cm name) as [old|] eqn:Hold.
    + rewrite map_size_delete_Some by (by eexists).
      rewrite bool_decide_eq_true_2 by (by eexists).
      assert (size (innerMap cm) ≠ 0%nat).
      { intros Hsize. apply map_size_empty_iff in Hsize.
        rewrite Hsize in Hold. by rewrite lookup_empty in Hold. }
      lia.
    + rewrite map_size_delete_None by exact Hold.
      by rewrite bool_decide_eq_false_2 by (by intros [? ?]).
  - intros Hwk k entry. simpl. intros Hk.
    apply lookup_delete_Some in Hk as [_ Hk]. by apply Hwk.
Qed.

Lemma rehash_size (newCasemap : casemapping) (entries : list (casemapEntry V)) :
  ∀ acc : gmap string (casemapEntry V),
    (size (rehash newCasemap entries acc) ≤ length entries + size acc)%nat.
Proof.
  induction entries as [|e rest IH]; intros acc; simpl; [lia|].
  etrans; [apply IH|]. rewrite map_size_insert.
  destruct (acc !! _); simpl; lia.
Qed.

(** X10. [SetCasemapping] never adds an entry, in whatever order the entries are
    visited: the names the new casemapping merges share one. *)
Theorem SetCasemapping_Len_le cm (newCasemap : casemapping)
    (order : list (string * casemapEntry V)) :
  iterationOrder cm order →
  Len (SetCasemappingInOrder order newCasemap cm) ≤ Len cm.
Proof.
  intros Horder. unfold Len. simpl.
  pose proof (rehash_size newCasemap order.*2 ∅) as Hsize.
  assert (length order = size (innerMap cm)) as Hlen.
  { rewrite (Permutation_length Horder). apply length_map_to_list. }
  rewrite map_size_empty, length_fmap, Hlen in Hsize. lia.
Qed.

Lemma rehash_lookup_None (newCasemap : casemapping) (name : string)
    (entries : list (casemapEntry V)) :
  ∀ acc : gmap string (casemapEntry V),
    (∀ entry, entry ∈ entries → newCasemap (originalKey entry) ≠ name) →
    acc !! name = None →
    rehash newCasemap entries acc !! name = None.
Proof.
  induction entries as [|e rest IH]; intros acc Hentries Hacc; simpl; [exact Hacc|].
  apply IH.
  - intros entry Hin. apply Hentries. by right.
  - rewrite lookup_insert_ne; [exact Hacc|]. apply Hentries. by left.
Qed.

(** X11. Setting the casemapping the map already has changes nothing, in
    whatever order the entries are visited, when every entry is under the
    casemapped form of its original key. *)
Theorem SetCasemapping_same_casemapping cm (order : list (string * casemapEntry V)) :
  wellKeyed cm →
  iterationOrder cm order →
  SetCasemappingInOrder order (casemap cm) cm = cm.
Proof.
  intros Hwk Horder. destruct cm as [m f]. unfold SetCasemappingInOrder. simpl in *.
  f_equal. apply map_eq. intros k.
  destruct (m !! k) as [entry|] eqn:Hk.
  - apply rehash_lookup.
    + symmetry. by apply (Hwk k entry).
    + intros entry' Hin Hsame.
      apply list_elem_of_fmap in Hin as [[k' e'] [-> Hin]]. simpl in *.
      rewrite Horder in Hin. apply elem_of_map_to_list in Hin.
      pose proof (Hwk k' e' Hin) as Hk'. simpl in Hk'.
      assert (k' = k) as -> by congruence. simpl in Hin. congruence.
    + left. apply list_elem_of_fmap. exists (k, entry).
      split; [reflexivity|]. rewrite Horder. by apply elem_of_map_to_list.
  - apply rehash_lookup_None; [|apply lookup_empty].
    intros entry Hin Hsame.
    apply list_elem_of_fmap in Hin as [[k' e'] [-> Hin]]. simpl in *.
    rewrite Horder in Hin. apply elem_of_map_to_list in Hin.
    pose proof (Hwk k' e' Hin) as Hk'. simpl in Hk', Hin. congruence.
Qed.

End CasemapMapOperations.

Lemma SetCasemapping_Len_le_witness :
  Irc.Len (Irc.SetCasemapping Irc.casemapASCII Scenario.twoCases)
  ≤ Irc.Len Scenario.twoCases.
Proof.
  apply (SetCasemapping_Len_le Scenario.twoCases Irc.casemapASCII
           (map_to_list (Irc.innerMap Scenario.twoCases))).
  by unfold Irc.iterationOrder.
Defined.

Lemma SetCasemapping_same_casemapping_witness :
  Irc.SetCasemapping (Irc.casemap Scenario.twoCases) Scenario.twoCases
  = Scenario.twoCases.
Proof.
  apply (SetCasemapping_same_casemapping Scenario.twoCases
           (map_to_list (Irc.innerMap Scenario.twoCases))).
  - apply SetValue_wellKeyed, SetValue_wellKeyed, newCasemapMap_wellKeyed.
  - by unfold Irc.iterationOrder.
Defined.

(** ** User names *)

Section UserNames.
Import GoString Downstream.

Lemma indexAnyFrom_clean (s chars : string) (pos : Z) :
  0 ≤ pos →
  indexAnyFrom s chars pos = -1
  ↔ Forall (λ b, ContainsByte chars b = false) (list_ascii_of_string s).
Proof.
  revert pos. induction s as [|b s IH]; intros pos Hpos; simpl.
  - split; [intros _; constructor|reflexivity].
  - destruct (ContainsByte chars b) eqn:Hb.
    + split; [lia|]. intros Hall. apply Forall_cons in Hall as [Hb' _]. congruence.
    + rewrite IH by lia. split.
      * intros Hall. by constructor.
      * intros Hall. by apply Forall_cons in Hall as [_ Hall].
Qed.

Lemma indexAnyFrom_app (pre post chars : string) (c : byte) (pos : Z) :
  Forall (λ b, ContainsByte chars b = false) (list_ascii_of_string pre) →
  ContainsByte chars c = true →
  indexAnyFrom (pre +:+ String c post) chars pos = pos + len pre.
Proof.
  revert pos. induction pre as [|b pre IH]; intros pos Hpre Hc.
  - rewrite app_nil_string. simpl. rewrite Hc. unfold len. simpl. lia.
  - rewrite app_cons_string. simpl in *. apply Forall_cons in Hpre as [Hb Hpre].
    rewrite Hb, IH by assumption. unfold len. simpl String.length. lia.
Qed.

Lemma lastIndexAnyFrom_clean (s chars : string) (pos : Z) :
  Forall (λ b, ContainsByte chars b = false) (list_ascii_of_string s) →
  lastIndexAnyFrom s chars pos = -1.
Proof.
  revert pos. induction s as [|b s IH]; intros pos Hs; simpl; [reflexivity|].
  simpl in Hs. apply Forall_cons in Hs as [Hb Hs].
  by rewrite IH, Hb.
Qed.

Lemma lastIndexAnyFrom_app (pre post chars : string) (c : byte) (pos : Z) :
  0 ≤ pos →
  ContainsByte chars c = true →
  Forall (λ b, ContainsByte chars b = false) (list_ascii_of_string post) →
  lastIndexAnyFrom (pre +:+ String c post) chars pos = pos + len pre.
Proof.
  revert pos. induction pre as [|b pre IH]; intros pos Hpos Hc Hpost.
  - rewrite app_nil_string. simpl.
    rewrite lastIndexAnyFrom_clean by exact Hpost. simpl. rewrite Hc.
    unfold len. simpl. lia.
  - rewrite app_cons_string. simpl. rewrite IH by (lia || assumption).
    assert ((0 <=? pos + 1 + len pre) = true) as ->.
    { apply Z.leb_le. unfold len. lia. }
    unfold len. simpl String.length. lia.
Qed.

Lemma index_app (pre post : string) (c : byte) :
  index (pre +:+ String c post) (len pre) = Some c.
Proof.
  unfold index, len.
  assert ((Z.of_nat (String.length pre) <? 0) = false) as -> by (apply Z.ltb_ge; lia).
  rewrite Nat2Z.id.
  induction pre as [|b pre IH]; [reflexivity|].
  rewrite app_cons_string. simpl. exact IH.
Qed.

Lemma sliceTo_app (pre post : string) : sliceTo (pre +:+ post) (len pre) = pre.
Proof. unfold sliceTo, len. rewrite Nat2Z.id. apply string_take_app. Qed.

Lemma sliceFrom_app (pre post : string) (c : byte) :
  sliceFrom (pre +:+ String c post) (len pre + 1) = post.
Proof.
  unfold sliceFrom, len.
  replace (Z.to_nat (Z.of_nat (String.length pre) + 1))
    with (String.length (pre +:+ String c "")).
  2:{ rewrite string_length_app. simpl. lia. }
  replace (pre +:+ String c post) with ((pre +:+ String c "") +:+ post).
  2:{ by rewrite app_assoc_string. }
  apply string_drop_app.
Qed.

Lemma slice_app (pre mid post : string) (c : byte) :
  slice (pre +:+ String c (mid +:+ post)) (len pre + 1) (len pre + 1 + len mid) = mid.
Proof.
  unfold slice.
  replace (len pre + 1 + len mid - (len pre + 1)) with (len mid) by lia.
  fold (sliceFrom (pre +:+ String c (mid +:+ post)) (len pre + 1)).
  rewrite sliceFrom_app. apply sliceTo_app.
Qed.

Lemma clean_app (chars s t : string) (c : byte) :
  Forall (λ b, ContainsByte chars b = false) (list_ascii_of_string s) →
  ContainsByte chars c = false →
  Forall (λ b, ContainsByte chars b = false) (list_ascii_of_string t) →
  Forall (λ b, ContainsByte chars b = false) (list_ascii_of_string (s +:+ String c t)).
Proof.
  intros Hs Hc Ht. rewrite bytes_app. apply Forall_app. split; [exact Hs|].
  simpl. by constructor.
Qed.

(** X12. [unmarshalUsername] reads back the parts of the user names a client may
    log in with: "user", "user/network", "user@client",
    "user/network@client" and "user@client/network", for parts that hold
    neither [/] nor [@]. *)
Theorem unmarshalUsername_round_trip (user client network : string) :
  IndexAny user "/@" = -1 →
  IndexAny client "/@" = -1 →
  IndexAny network "/@" = -1 →
  unmarshalUsername user = (user, "", "")
  ∧ unmarshalUsername (user +:+ "/" +:+ network) = (user, "", network)
  ∧ unmarshalUsername (user +:+ "@" +:+ client) = (user, client, "")
  ∧ unmarshalUsername (user +:+ "/" +:+ network +:+ "@" +:+ client)
    = (user, client, network)
  ∧ unmarshalUsername (user +:+ "@" +:+ client +:+ "/" +:+ network)
    = (user, client, network).
Proof.
  unfold IndexAny. intros Hu Hc Hn.
  apply indexAnyFrom_clean in Hu; [|lia].
  apply indexAnyFrom_clean in Hc; [|lia].
  apply indexAnyFrom_clean in Hn; [|lia].
  assert (0 ≤ len user) as Hlen by (unfold len; lia).
  assert (∀ s, (0 <=? len user + 1 + len s) = true) as Hle.
  { intros s. apply Z.leb_le. unfold len. lia. }
  assert ((0 <=? len user) = true) as Hle0 by (by apply Z.leb_le).
  repeat split.
  - unfold unmarshalUsername, IndexAny, LastIndexAny.
    rewrite (proj2 (indexAnyFrom_clean user "/@" 0 ltac:(lia)) Hu).
    by rewrite lastIndexAnyFrom_clean.
  - unfold unmarshalUsername, IndexAny, LastIndexAny.
    change ("/" +:+ network) with (String "/" network).
    rewrite indexAnyFrom_app, lastIndexAnyFrom_app by (assumption || reflexivity || lia).
    rewrite !Z.add_0_l, Hle0, index_app, sliceTo_app, sliceFrom_app, Z.ltb_irrefl.
    reflexivity.
  - unfold unmarshalUsername, IndexAny, LastIndexAny.
    change ("@" +:+ client) with (String "@" client).
    rewrite indexAnyFrom_app, lastIndexAnyFrom_app by (assumption || reflexivity || lia).
    rewrite !Z.add_0_l, Hle0, index_app, sliceTo_app, sliceFrom_app, Z.ltb_irrefl.
    reflexivity.
  - unfold unmarshalUsername, IndexAny, LastIndexAny.
    change ("/" +:+ network +:+ "@" +:+ client)
      with (String "/" (network +:+ String "@" client)).
    rewrite indexAnyFrom_app by (assumption || reflexivity).
    replace (user +:+ String "/" (network +:+ String "@" client))
      with ((user +:+ String "/" network) +:+ String "@" client)
      by (by rewrite app_assoc_string).
    rewrite lastIndexAnyFrom_app by (assumption || reflexivity || lia).
    rewrite !Z.add_0_l. rewrite index_app, sliceFrom_app.
    replace ((user +:+ String "/" network) +:+ String "@" client)
      with (user +:+ String "/" (network +:+ String "@" client))
      by (by rewrite app_assoc_string).
    rewrite index_app, sliceTo_app.
    replace (len (user +:+ String "/" network)) with (len user + 1 + len network).
    2:{ unfold len. rewrite string_length_app. simpl String.length. lia. }
    rewrite slice_app, Hle0, Hle. simpl.
    assert ((len user <? len user + 1 + len network) = true) as ->.
    { apply Z.ltb_lt. unfold len. lia. }
    reflexivity.
  - unfold unmarshalUsername, IndexAny, LastIndexAny.
    change ("@" +:+ client +:+ "/" +:+ network)
      with (String "@" (client +:+ String "/" network)).
    rewrite indexAnyFrom_app by (assumption || reflexivity).
    replace (user +:+ String "@" (client +:+ String "/" network))
      with ((user +:+ String "@" client) +:+ String "/" network)
      by (by rewrite app_assoc_string).
    rewrite lastIndexAnyFrom_app by (assumption || reflexivity || lia).
    rewrite !Z.add_0_l. rewrite index_app, sliceFrom_app.
    replace ((user +:+ String "@" client) +:+ String "/" network)
      with (user +:+ String "@" (client +:+ String "/" network))
      by (by rewrite app_assoc_string).
    rewrite index_app, sliceTo_app.
    replace (len (user +:+ String "@" client)) with (len user + 1 + len client).
    2:{ unfold len. rewrite string_length_app. simpl String.length. lia. }
    rewrite slice_app, Hle0, Hle. simpl.
    assert ((len user <? len user + 1 + len client) = true) as ->.
    { apply Z.ltb_lt. unfold len. lia. }
    reflexivity.
Qed.

Lemma indexAnyFrom_found (s chars : string) (pos : Z) :
  indexAnyFrom s chars pos = -1
  ∨ ∃ pre post c, s = (pre +:+ String c post)
      ∧ Forall (λ b, ContainsByte chars b = false) (list_ascii_of_string pre)
      ∧ indexAnyFrom s chars pos = pos + len pre.
Proof.
  revert pos. induction s as [|b s IH]; intros pos; simpl; [by left|].
  destruct (ContainsByte chars b) eqn:Hb.
  - right. exists "", s, b. repeat split; [constructor|]. unfold len. simpl. lia.
  - destruct (IH (pos + 1)) as [->|(pre & post & c & -> & Hpre & ->)]; [by left|].
    right. exists (String b pre), post, c. repeat split.
    + simpl. by constructor.
    + unfold len. simpl String.length. lia.
Qed.

Lemma unmarshalUsername_fst (rawUsername : string) :
  (unmarshalUsername rawUsername).1.1
  = if 0 <=? IndexAny rawUsername "/@"
    then sliceTo rawUsername (IndexAny rawUsername "/@")
    else rawUsername.
Proof.
  unfold unmarshalUsername.
  destruct (0 <=? IndexAny rawUsername "/@");
    destruct (0 <=? LastIndexAny rawUsername "/@");
    destruct (IndexAny rawUsername "/@" <? LastIndexAny rawUsername "/@");
    repeat destruct (bool_decide _); reflexivity.
Qed.

Lemma HasPrefix_refl (s : string) : HasPrefix s s = true.
Proof. induction s as [|b s IH]; simpl; [reflexivity|by rewrite Ascii.eqb_refl]. Qed.

(** X13. Whatever the raw user name, the user name [unmarshalUsername] gives
    holds neither [/] nor [@], and the raw user name starts with it. *)
Theorem unmarshalUsername_username (rawUsername : string) :
  IndexAny (unmarshalUsername rawUsername).1.1 "/@" = -1
  ∧ HasPrefix rawUsername (unmarshalUsername rawUsername).1.1 = true.
Proof.
  rewrite unmarshalUsername_fst. unfold IndexAny.
  destruct (indexAnyFrom_found rawUsername "/@" 0)
    as [Hi|(pre & post & c & Hraw & Hpre & Hi)].
  - rewrite Hi. simpl. split; [exact Hi|apply HasPrefix_refl].
  - rewrite Hi.
    assert ((0 <=? 0 + len pre) = true) as -> by (apply Z.leb_le; unfold len; lia).
    rewrite Z.add_0_l, Hraw, sliceTo_app. split.
    + apply indexAnyFrom_clean; [lia|exact Hpre].
    + apply HasPrefix_app.
Qed.

End UserNames.

Lemma unmarshalUsername_round_trip_witness :
  Downstream.unmarshalUsername "alice" = ("alice", "", "")
  ∧ Downstream.unmarshalUsername "alice/libera" = ("alice", "", "libera")
  ∧ Downstream.unmarshalUsername "alice@laptop" = ("alice", "laptop", "")
  ∧ Downstream.unmarshalUsername "alice/libera@laptop" = ("alice", "laptop", "libera")
  ∧ Downstream.unmarshalUsername "alice@laptop/libera" = ("alice", "laptop", "libera").
Proof.
  apply (unmarshalUsername_round_trip "alice" "laptop" "libera"); reflexivity.
Defined.

(** ** Entity names, there and back *)

Section EntityNames.
Import GoString Irc Downstream.
Context {S : Type}.

Lemma lastIndexByteFrom_range (s : string) (c : byte) (pos : Z) :
  lastIndexByteFrom s c pos = -1 ∨ pos ≤ lastIndexByteFrom s c pos.
Proof.
  revert pos. induction s as [|b s IH]; intros pos; simpl; [by left|].
  destruct (IH (pos + 1)) as [->|Hle].
  - simpl. destruct (Ascii.eqb b c); [right; lia|by left].
  - right. destruct (0 <=? lastIndexByteFrom s c (pos + 1)) eqn:H0; [lia|].
    apply Z.leb_gt in H0. destruct (Ascii.eqb b c); lia.
Qed.

Lemma lastIndexByteFrom_clean (s : string) (c : byte) (pos : Z) :
  0 ≤ pos →
  lastIndexByteFrom s c pos = -1 ↔ c ∉ list_ascii_of_string s.
Proof.
  revert pos. induction s as [|b s IH]; intros pos Hpos; simpl.
  - split; [intros _; apply not_elem_of_nil|reflexivity].
  - destruct (lastIndexByteFrom_range s c (pos + 1)) as [Hm|Hle].
    + rewrite Hm. simpl. apply IH in Hm; [|lia].
      destruct (Ascii.eqb_spec b c) as [->|Hbc].
      * split; [lia|]. intros Hnot. exfalso. apply Hnot. by left.
      * split; [|reflexivity]. intros _. apply not_elem_of_cons. by split.
    + assert ((0 <=? lastIndexByteFrom s c (pos + 1)) = true) as ->
        by (apply Z.leb_le; lia).
      split; [lia|]. intros Hnot. apply not_elem_of_cons in Hnot as [_ Hnot].
      apply (IH (pos + 1)) in Hnot; lia.
Qed.

Lemma lastIndexByteFrom_app (pre post : string) (c : byte) (pos : Z) :
  0 ≤ pos →
  c ∉ list_ascii_of_string post →
  lastIndexByteFrom (pre +:+ String c post) c pos = pos + len pre.
Proof.
  revert pos. induction pre as [|b pre IH]; intros pos Hpos Hpost.
  - rewrite app_nil_string. simpl.
    rewrite (proj2 (lastIndexByteFrom_clean post c (pos + 1) ltac:(lia)) Hpost).
    simpl. rewrite Ascii.eqb_refl. unfold len. simpl. lia.
  - rewrite app_cons_string. simpl. rewrite IH by (lia || assumption).
    assert ((0 <=? pos + 1 + len pre) = true) as ->.
    { apply Z.leb_le. unfold len. lia. }
    unfold len. simpl String.length. lia.
Qed.

(** X14. In multi-network mode the name [marshalEntity] gives for an entity of a
    connected network, other than the user's own nick, is read back by
    [unmarshalEntity] as that entity, letters in their case, on a connected
    network of the same name, when the name of the network holds no [/]. *)
Theorem unmarshalEntity_marshalEntity (u : User.user S) (dc : downstreamConn)
    (net : User.network) (name : string) :
  dc_network dc = None →
  net ∈ User.u_networks u →
  is_Some (User.net_conn net) →
  LastIndexByte (User.net_GetName net) "/"%char = -1 →
  isOurNick net name = false →
  ∃ marshaled uc,
    marshalEntity dc net name = Some marshaled
    ∧ unmarshalEntity u dc marshaled
      = Ok (uc, partialCasemap (User.net_casemap net) name)
    ∧ uc ∈ User.u_networks u
    ∧ is_Some (User.net_conn uc)
    ∧ User.net_GetName uc = User.net_GetName net.
Proof.
  intros Hmulti Hnet Hconn Hslash Hnick.
  unfold marshalEntity. rewrite Hnick, Hmulti.
  set (entity := partialCasemap (User.net_casemap net) name).
  assert (net ∈ filter (λ net', ¬ (User.net_GetName net ≠ User.net_GetName net'))
                       (forEachUpstream u dc)) as Hin.
  { apply list_elem_of_filter. split; [by intros H|].
    unfold forEachUpstream. apply list_elem_of_filter. split.
    - rewrite Hmulti. by intros [[? ?] _].
    - apply list_elem_of_filter. by split. }
  destruct (last (filter (λ net', ¬ (User.net_GetName net ≠ User.net_GetName net'))
                         (forEachUpstream u dc))) as [uc|] eqn:Hlast.
  2:{ apply last_None in Hlast. rewrite Hlast in Hin. by apply elem_of_nil in Hin. }
  exists (entity +:+ "/" +:+ User.net_GetName net), uc.
  split; [reflexivity|].
  assert (uc ∈ filter (λ net', ¬ (User.net_GetName net ≠ User.net_GetName net'))
                      (forEachUpstream u dc)) as Huc.
  { apply last_Some in Hlast as [l' ->]. apply elem_of_app. right. by left. }
  apply list_elem_of_filter in Huc as [Hname Huc].
  apply list_elem_of_filter in Huc as [_ Huc].
  apply list_elem_of_filter in Huc as [Hucconn Huc].
  split; [|repeat split; [exact Huc|exact Hucconn|]].
  2:{ destruct (decide (User.net_GetName net = User.net_GetName uc)); [done|].
      by exfalso. }
  unfold unmarshalEntity, upstream. rewrite Hmulti. simpl.
  unfold LastIndexByte in *.
  change ("/" +:+ User.net_GetName net) with (String "/" (User.net_GetName net)).
  rewrite lastIndexByteFrom_app; [|lia|by apply (lastIndexByteFrom_clean _ _ 0)].
  rewrite Z.add_0_l.
  assert ((0 <=? len entity) = true) as -> by (apply Z.leb_le; unfold len; lia).
  rewrite sliceFrom_app, sliceTo_app, Hlast. reflexivity.
Qed.

End EntityNames.

Lemma unmarshalEntity_marshalEntity_witness :
  let net := Scenario.network1 false Scenario.emptyDelivered in
  let u := Scenario.user1 false Scenario.emptyDelivered [Scenario.dcMulti] [] in
  ∃ marshaled uc,
    Downstream.marshalEntity Scenario.dcMulti net "Carol{}" = Some marshaled
    ∧ Downstream.unmarshalEntity u Scenario.dcMulti marshaled
      = Ok (uc, Irc.partialCasemap (User.net_casemap net) "Carol{}")
    ∧ uc ∈ User.u_networks u
    ∧ is_Some (User.net_conn uc)
    ∧ User.net_GetName uc = User.net_GetName net.
Proof.
  intros net u.
  apply (unmarshalEntity_marshalEntity u Scenario.dcMulti net "Carol{}").
  - reflexivity.
  - by left.
  - by eexists.
  - reflexivity.
  - reflexivity.
Defined.

(** ** Receipts of several clients *)

Section DeliveredStore.
Import GoString Irc User.

(** X15. A receipt stored for a client and a target is the one read back for
    that client under every spelling of the target; the receipts of the
    other clients and of the other targets stay as they are, and a store
    that has seen no receipt gives the empty id. *)
Theorem StoreID_LoadID (target clientName msgID : string) (ds : deliveredStore)
    (target' clientName' : string) :
  LoadID (StoreID target clientName msgID ds) target' clientName'
    = (if decide (casemap (ds_m ds) target' = casemap (ds_m ds) target
                  ∧ clientName' = clientName)
       then msgID
       else LoadID ds target' clientName')
  ∧ HasTarget (StoreID target clientName msgID ds) target'
    = (HasTarget ds target'
       || bool_decide (casemap (ds_m ds) target' = casemap (ds_m ds) target))
  ∧ LoadID newDeliveredStore target' clientName' = ""
  ∧ HasTarget newDeliveredStore target' = false.
Proof.
  split; [|split; [|split; reflexivity]].
  - destruct (decide _) as [[Hsame ->]|Hother].
    + by apply LoadID_StoreID_same.
    + destruct (decide (casemap (ds_m ds) target' = casemap (ds_m ds) target))
        as [Hsame|Hne].
      * assert (clientName' ≠ clientName) as Hclient by tauto.
        unfold LoadID, StoreID.
        destruct (Value (ds_m ds) target) as [clients|] eqn:Hclients; simpl.
        -- rewrite (Value_SetValue_same _ _ _ _ Hsame).
           rewrite lookup_insert_ne by done.
           unfold Value in *. rewrite Hsame. by rewrite Hclients.
        -- rewrite (Value_SetValue_same _ _ _ _ Hsame).
           rewrite lookup_insert_ne by done.
           unfold Value in *. rewrite Hsame. by rewrite Hclients.
      * by apply LoadID_StoreID_other.
  - unfold HasTarget.
    destruct (decide (casemap (ds_m ds) target' = casemap (ds_m ds) target))
      as [Hsame|Hne].
    + rewrite (bool_decide_eq_true_2 (casemap (ds_m ds) target' = _)) by exact Hsame.
      rewrite orb_true_r. apply bool_decide_eq_true_2.
      unfold StoreID. destruct (Value (ds_m ds) target); simpl;
        rewrite (Value_SetValue_same _ _ _ _ Hsame); by eexists.
    + rewrite (bool_decide_eq_false_2 (casemap (ds_m ds) target' = _)) by exact Hne.
      rewrite orb_false_r.
      unfold StoreID. destruct (Value (ds_m ds) target); simpl;
        by rewrite (Value_SetValue_other _ _ _ _ Hne).
Qed.

End DeliveredStore.

(** ** Members who leave *)

Section MembersLeave.
Import GoString Upstream.
Context {S : Type} {storeOps : Store S}.

Lemma removeMember_members (nick : string) (ch : upstreamChannel) :
  uch_Members (removeMember nick ch) = delete nick (uch_Members ch)
  ∧ uch_Name (removeMember nick ch) = uch_Name ch.
Proof.
  unfold removeMember. destruct (uch_Members ch !! nick) eqn:Hnick; simpl; [done|].
  split; [|reflexivity]. symmetry. by apply delete_id.
Qed.

(** X16. After the QUIT of [P], [P] is a member of no channel, the other members
    are the members they were, and no channel is dropped, be the QUIT the
    user's own. The QUIT of another user goes to every downstream
    connection; the user's own goes to none. *)
Theorem QUIT_removes_member (netID : Z) (dcs : list downstreamConn)
    (msg : irc.Message) (uc : upstreamConn) (P : irc.Prefix) :
  irc.MPrefix msg = Some P →
  ∃ uc' events,
    handleMessage_QUIT netID dcs msg uc = Ok (uc', events)
    ∧ uc_nick uc' = uc_nick uc
    ∧ (∀ x ch', uc_channels uc' !! x = Some ch' → uch_Members ch' !! irc.Name P = None)
    ∧ (∀ x ch, uc_channels uc !! x = Some ch →
         ∃ ch', uc_channels uc' !! x = Some ch'
                ∧ uch_Name ch' = uch_Name ch
                ∧ ∀ nick, nick ≠ irc.Name P →
                    uch_Members ch' !! nick = uch_Members ch !! nick)
    ∧ (∀ dc, dc ∈ dcs →
         DownstreamForward (dc_id dc) msg netID ∈ events
         ↔ irc.Name P ≠ uc_nick uc).
Proof.
  intros HP. unfold handleMessage_QUIT. rewrite HP.
  eexists _, _. split; [reflexivity|]. simpl.
  split; [reflexivity|]. split; [|split].
  - intros x ch' Hx. rewrite lookup_fmap in Hx.
    destruct (uc_channels uc !! x) as [ch|]; [|discriminate].
    injection Hx as <-.
    rewrite (proj1 (removeMember_members _ _)). apply lookup_delete_eq.
  - intros x ch Hx. exists (removeMember (irc.Name P) ch).
    split; [by rewrite lookup_fmap, Hx|].
    destruct (removeMember_members (irc.Name P) ch) as [-> ->].
    split; [reflexivity|]. intros nick Hnick. by apply lookup_delete_ne.
  - intros dc Hdc. case_bool_decide as Hme; simpl.
    + split; [|done]. intros Hin. exfalso.
      apply elem_of_cons in Hin as [Hin|Hin]; [discriminate|].
      rewrite app_nil_r in Hin.
      apply list_elem_of_fmap in Hin as [kv [Hkv _]]. discriminate.
    + split; [done|]. intros _.
      apply elem_of_app. right.
      apply list_elem_of_fmap. by exists dc.
Qed.

Lemma appendLog_conn (j : nat) (entity : string) (msg : irc.Message)
    (u : user S) (net : network) :
  u_networks u !! j = Some net →
  ∃ net', u_networks (appendLog j entity msg u).1 !! j = Some net'
          ∧ net_conn net' = net_conn net.
Proof.
  intros Hnet. unfold appendLog. rewrite Hnet.
  destruct (u_msgStore u) as [store|]; [|by exists net].
  destruct (net_history net !! entity) as [h|].
  - destruct (Append store _ entity msg) as [[store' msgID]|]; by exists net.
  - destruct (LastMsgID store _ entity) as [lastID|]; [|by exists net].
    eexists (setHistory _ net). split; [|reflexivity].
    destruct (Append store _ entity msg) as [[store' msgID]|]; simpl;
      apply list_lookup_insert_eq; by eapply lookup_lt_Some.
Qed.

Lemma produce_conn (j : nat) (target : string) (msg : irc.Message) (origin : option Z)
    (u : user S) (net : network) :
  u_networks u !! j = Some net →
  ∃ net', u_networks (produce j target msg origin u).1 !! j = Some net'
          ∧ net_conn net' = net_conn net.
Proof.
  intros Hnet. unfold produce. case_bool_decide as Htarget.
  - destruct (appendLog_conn j target msg u net Hnet) as (net' & Hnet' & Hconn).
    destruct (appendLog j target msg u) as [u1 msgID]. simpl in *.
    rewrite Hnet'. exists net'. split; [|exact Hconn].
    by destruct (match net_channels net' !! target with
                 | Some ch => ch_Detached ch | None => false end).
  - rewrite Hnet. exists net. split; [|reflexivity].
    by destruct (match net_channels net !! target with
                 | Some ch => ch_Detached ch | None => false end).
Qed.

(** X17. A KICK of the user drops the channel, known or not; a KICK of another
    user fails on a channel that is not joined and takes the user out of
    the members of one that is. The other channels and the other members
    stay as they are. *)
Theorem KICK_removes_member (j : nat) (msg : irc.Message) (u : user S)
    (net : network) (uc : upstreamConn) (P : irc.Prefix)
    (channel user : string) (rest : list string) :
  u_networks u !! j = Some net →
  net_conn net = Some uc →
  irc.MPrefix msg = Some P →
  irc.Params msg = channel :: user :: rest →
  if bool_decide (user ≠ uc_nick uc ∧ uc_channels uc !! channel = None)
  then ∃ err, handleMessage_KICK j msg u = Err err
  else
    ∃ u' events net' uc',
      handleMessage_KICK j msg u = Ok (u', events)
      ∧ u_networks u' !! j = Some net'
      ∧ net_conn net' = Some uc'
      ∧ uc_nick uc' = uc_nick uc
      ∧ (∀ x, x ≠ channel → uc_channels uc' !! x = uc_channels uc !! x)
      ∧ uc_channels uc' !! channel
        = (if bool_decide (user = uc_nick uc) then None
           else (λ ch, setMembers (delete user (uch_Members ch)) ch)
                  <$> uc_channels uc !! channel).
Proof.
  intros Hnet Hconn HP Hparams. unfold handleMessage_KICK.
  rewrite Hnet, Hconn, HP, Hparams.
  case_bool_decide as Hcase.
  - destruct Hcase as [Huser Hchannel].
    rewrite bool_decide_eq_false_2 by exact Huser.
    unfold getChannel. rewrite Hchannel. by eexists.
  - case_bool_decide as Huser.
    + assert (length (u_networks u) > j)%nat as Hj by (by eapply lookup_lt_Some).
      set (uc' := setChannels (delete channel (uc_channels uc)) uc).
      set (u0 := setNetwork j (setConn (Some uc') net) u).
      destruct (produce_conn j channel msg None u0 (setConn (Some uc') net))
        as (net' & Hnet' & Hconn').
      { apply list_lookup_insert_eq. lia. }
      destruct (produce j channel msg None u0) as [u' events'] eqn:Hproduce.
      exists u', ([Logf "kicked from channel"] ++ events')%list, net', uc'.
      simpl in *. repeat split; try done.
      * intros x Hx. by apply lookup_delete_ne.
      * apply lookup_delete_eq.
    + destruct (uc_channels uc !! channel) as [ch|] eqn:Hch.
      2:{ exfalso. apply Hcase. by split. }
      unfold getChannel. rewrite Hch.
      assert (length (u_networks u) > j)%nat as Hj by (by eapply lookup_lt_Some).
      set (uc' := setChannels
                    (<[channel := setMembers (delete user (uch_Members ch)) ch]>
                       (uc_channels uc)) uc).
      set (u0 := setNetwork j (setConn (Some uc') net) u).
      destruct (produce_conn j channel msg None u0 (setConn (Some uc') net))
        as (net' & Hnet' & Hconn').
      { apply list_lookup_insert_eq. lia. }
      destruct (produce j channel msg None u0) as [u' events'] eqn:Hproduce.
      exists u', events', net', uc'.
      simpl in *. repeat split; try done.
      * intros x Hx. by apply lookup_insert_ne.
      * apply lookup_insert_eq.
Qed.

End MembersLeave.

(** [:carol!u@h QUIT :bye] on the connection of scenario 1. *)
Lemma QUIT_removes_member_witness :
  ∃ uc' events,
    Upstream.handleMessage_QUIT 1 [Scenario.dcWith 1 "laptop" []]
      (Scenario.quitMsg Scenario.carol) Scenario.ucAlice = Ok (uc', events)
    ∧ Upstream.uc_nick uc' = "alice"
    ∧ (∀ x ch', Upstream.uc_channels uc' !! x = Some ch' →
         Upstream.uch_Members ch' !! "carol" = None)
    ∧ (∀ x ch, Upstream.uc_channels Scenario.ucAlice !! x = Some ch →
         ∃ ch', Upstream.uc_channels uc' !! x = Some ch'
                ∧ Upstream.uch_Name ch' = Upstream.uch_Name ch
                ∧ ∀ nick, nick ≠ "carol" →
                    Upstream.uch_Members ch' !! nick = Upstream.uch_Members ch !! nick)
    ∧ (∀ dc, dc ∈ [Scenario.dcWith 1 "laptop" []] →
         Upstream.DownstreamForward (dc_id dc) (Scenario.quitMsg Scenario.carol) 1 ∈ events
         ↔ "carol" ≠ "alice").
Proof.
  apply (QUIT_removes_member 1 [Scenario.dcWith 1 "laptop" []]
           (Scenario.quitMsg Scenario.carol) Scenario.ucAlice Scenario.carol).
  reflexivity.
Defined.

(** [:alice!u@h KICK #x carol] on the connection of scenario 1. *)
Lemma KICK_removes_member_witness :
  let u := Scenario.upstreamUser1 false [] Scenario.storeX in
  ∃ u' events net' uc',
    Upstream.handleMessage_KICK 0 (Scenario.kickMsg "#x" "carol") u = Ok (u', events)
    ∧ Upstream.u_networks u' !! 0%nat = Some net'
    ∧ Upstream.net_conn net' = Some uc'
    ∧ Upstream.uc_nick uc' = "alice"
    ∧ (∀ x, x ≠ "#x" →
         Upstream.uc_channels uc' !! x = Upstream.uc_channels Scenario.ucAlice !! x)
    ∧ Upstream.uc_channels uc' !! "#x"
      = Some (Upstream.setMembers (<["alice" := [Scenario.op]]> ∅) Scenario.chanX).
Proof.
  intros u.
  pose proof (KICK_removes_member 0 (Scenario.kickMsg "#x" "carol") u
                (Scenario.upstreamNetwork1 false (Some Scenario.ucAlice))
                Scenario.ucAlice Scenario.alice "#x" "carol" []
                eq_refl eq_refl eq_refl eq_refl) as Hkick.
  rewrite bool_decide_eq_false_2 in Hkick by (by intros [_ ?]).
  destruct Hkick as (u' & events & net' & uc' & Hrun & Hnet & Hconn & Hnick & Hother & Hx).
  exists u', events, net', uc'.
  repeat split; assumption.
Defined.

(** ** Membership prefixes *)

Section MembershipPrefixes.
Import GoString Upstream IrcHelpers.

Lemma string_of_bytes_cons (c : byte) (l : list byte) :
  string_of_list_ascii (c :: l) = String c (string_of_list_ascii l).
Proof. reflexivity. Qed.

Lemma parseMembershipPrefix_spec (available : list membership) :
  ∀ s : string,
    string_of_list_ascii (m_Prefix <$> (parseMembershipPrefix available s).1)
      +:+ (parseMembershipPrefix available s).2 = s
    ∧ sublist (parseMembershipPrefix available s).1 available.
Proof.
  induction available as [|m rest IH]; intros s; simpl.
  - split; [reflexivity|constructor].
  - destruct s as [|c s']; [split; [reflexivity|apply sublist_nil_l]|].
    destruct (Ascii.eqb_spec c (m_Prefix m)) as [->|Hc].
    + destruct (IH s') as [Hs' Hsub].
      destruct (parseMembershipPrefix rest s') as [ms nick]. simpl in *.
      split; [|by constructor].
      rewrite app_cons_string. f_equal. exact Hs'.
    + destruct (IH (String c s')) as [Hs Hsub].
      split; [exact Hs|]. by constructor.
Qed.

(** X18. The memberships and the nick [parseMembershipPrefix] reads from a name
    of a NAMES reply give the name back: the prefixes of the memberships,
    as [formatMemberPrefix] writes them for a client with multi-prefix,
    and then the nick. The memberships come in the order of the available
    ones. *)
Theorem parseMembershipPrefix_round_trip (available : list membership) (s : string)
    (dc : downstreamConn) :
  cap (dc_caps dc) "multi-prefix" = true →
  formatMemberPrefix (parseMembershipPrefix available s).1 dc
    +:+ (parseMembershipPrefix available s).2 = s
  ∧ sublist (parseMembershipPrefix available s).1 available.
Proof.
  intros Hcap. unfold formatMemberPrefix. rewrite Hcap. simpl.
  apply parseMembershipPrefix_spec.
Qed.

Lemma get_bytes (s : string) (i : nat) :
  String.get i s = list_ascii_of_string s !! i.
Proof.
  revert i. induction s as [|c s IH]; intros [|i]; simpl; try reflexivity. apply IH.
Qed.

Lemma index_bytes (s : string) (i : nat) :
  index s (Z.of_nat i) = list_ascii_of_string s !! i.
Proof.
  unfold index. assert ((Z.of_nat i <? 0) = false) as -> by (apply Z.ltb_ge; lia).
  rewrite Nat2Z.id. apply get_bytes.
Qed.

Lemma length_bytes (s : string) : length (list_ascii_of_string s) = String.length s.
Proof. induction s as [|c s IH]; simpl; [reflexivity|by rewrite IH]. Qed.

(** X19. A value the PREFIX token may have, the modes between brackets and then
    as many prefixes, gives the memberships of the modes with their
    prefixes, in order. *)
Theorem parsePrefixValue_round_trip (modes prefixes : string) :
  String.length modes = String.length prefixes →
  IndexByte modes ")"%char = -1 →
  parsePrefixValue ("(" +:+ modes +:+ ")" +:+ prefixes)
  = Some (Ok (zip_with mkMembership (list_ascii_of_string modes)
                                    (list_ascii_of_string prefixes))).
Proof.
  intros Hlen Hclean.
  assert (")"%char ∉ list_ascii_of_string modes) as Hnot.
  { destruct (IndexByte_spec modes ")"%char) as [[_ Hnot]|(pre & post & _ & _ & Hi)];
      [exact Hnot|]. unfold len in Hi. lia. }
  change ("(" +:+ modes +:+ ")" +:+ prefixes)
    with (String "(" (modes +:+ String ")" prefixes)).
  assert (IndexByte (String "(" (modes +:+ String ")" prefixes)) ")"%char = 1 + len modes)
    as Hsep.
  { unfold IndexByte. simpl.
    destruct (indexByteFrom_spec (modes +:+ String ")" prefixes) ")"%char (0 + 1))
      as [[_ Habs]|(pre & post & Heq & Hpre & ->)].
    - exfalso. apply Habs. rewrite bytes_app. apply elem_of_app. right. by left.
    - assert (pre = modes) as ->; [|lia].
      apply (f_equal list_ascii_of_string) in Heq. rewrite !bytes_app in Heq.
      simpl in Heq.
      assert (∀ (l1 l2 k1 k2 : list byte) (c : byte),
                c ∉ l1 → c ∉ l2 → (l1 ++ c :: k1 = l2 ++ c :: k2)%list → l1 = l2) as Hsplit.
      { clear. induction l1 as [|a l1 IH]; intros [|b l2] k1 k2 c H1 H2 Heq;
          simpl in *; try reflexivity.
        - injection Heq as -> _. exfalso. apply H2. by left.
        - injection Heq as -> _. exfalso. apply H1. by left.
        - injection Heq as -> Heq. f_equal.
          apply (IH l2 k1 k2 c); [|  |exact Heq].
          + intros Hin. apply H1. by right.
          + intros Hin. apply H2. by right. }
      pose proof (Hsplit _ _ _ _ _ Hnot Hpre Heq) as Hbytes.
      apply (f_equal string_of_list_ascii) in Hbytes.
      by rewrite !string_of_list_ascii_of_string in Hbytes. }
  assert (len (String "(" (modes +:+ String ")" prefixes)) = (1 + len modes) * 2) as Hvalue.
  { unfold len. simpl String.length. rewrite string_length_app. simpl String.length. lia. }
  assert (list_ascii_of_string (String "(" (modes +:+ String ")" prefixes))
          = "("%char :: (list_ascii_of_string modes
                         ++ ")"%char :: list_ascii_of_string prefixes)%list) as Hbytes.
  { simpl. by rewrite bytes_app. }
  remember (String "(" (modes +:+ String ")" prefixes)) as value eqn:Hv.
  assert (index value 0 = Some "("%char) as Hi0 by (by subst value).
  unfold parsePrefixValue.
  rewrite bool_decide_eq_false_2 by (subst value; discriminate).
  rewrite Hi0. cbn [mbind option_bind].
  change (Ascii.eqb "(" "(") with true. cbn [negb].
  rewrite Hsep, Hvalue, Z.eqb_refl.
  assert ((1 + len modes <? 0) = false) as -> by (apply Z.ltb_ge; unfold len; lia).
  cbn [negb orb].
  replace (Z.to_nat (Z.quot ((1 + len modes) * 2) 2 - 1)) with (String.length modes).
  2:{ rewrite Z.quot_mul by lia. unfold len. lia. }
  f_equal. apply fmap_Some. eexists. split; [|reflexivity].
  apply mapM_Some. apply Forall2_same_length_lookup_2.
  - rewrite length_seq, length_zip_with, !length_bytes. lia.
  - intros i j m Hi Hm.
    apply lookup_seq in Hi as [-> Hi]. simpl.
    apply lookup_zip_with_Some in Hm as (mode & prefix & -> & Hmode & Hprefix).
    unfold membershipAt. change (0 + i)%nat with i. unfold byte in *.
    replace (Z.of_nat i + 1) with (Z.of_nat (Datatypes.S i)) by lia.
    rewrite index_bytes, Hbytes. simpl. rewrite lookup_app_l
      by (rewrite length_bytes; lia).
    rewrite Hmode. simpl.
    replace (1 + len modes + Z.of_nat i + 1)
      with (Z.of_nat (Datatypes.S (String.length modes + Datatypes.S i))) by (unfold len; lia).
    rewrite index_bytes, Hbytes. simpl. rewrite lookup_app_r
      by (rewrite length_bytes; lia).
    rewrite length_bytes.
    replace (String.length modes + Datatypes.S i - String.length modes)%nat
      with (Datatypes.S i) by lia.
    simpl. by rewrite Hprefix.
Qed.

Lemma index_is_Some (s : string) (z : Z) :
  0 ≤ z < len s → is_Some (index s z).
Proof.
  intros Hz. replace z with (Z.of_nat (Z.to_nat z)) by lia.
  rewrite index_bytes. apply lookup_lt_is_Some. rewrite length_bytes.
  unfold len in Hz. lia.
Qed.

(** X20. Whatever the value of the PREFIX token, its parsing reads no byte
    outside the value: it gives memberships or an error. *)
Theorem parsePrefixValue_in_range (value : string) :
  is_Some (parsePrefixValue value).
Proof.
  unfold parsePrefixValue. case_bool_decide as Hempty; [by eexists|].
  destruct (index_is_Some value 0) as [c Hc].
  { unfold len. destruct value; [done|]. simpl String.length. lia. }
  rewrite Hc. cbn [mbind option_bind].
  destruct (negb (Ascii.eqb c "(")); [by eexists|].
  destruct (Z.ltb_spec (IndexByte value ")"%char) 0) as [Hsep|Hsep];
    [by eexists|]. cbn [orb].
  destruct (Z.eqb_spec (len value) (IndexByte value ")"%char * 2)) as [Hlen|Hlen];
    [|by eexists]. cbn [negb].
  apply fmap_is_Some. apply mapM_is_Some. apply Forall_forall.
  intros i Hi. apply elem_of_seq in Hi as [_ Hi]. simpl in Hi.
  rewrite Hlen, Z.quot_mul in Hi by lia.
  unfold membershipAt, compose.
  destruct (index_is_Some value (Z.of_nat i + 1)) as [mode ->]; [lia|].
  destruct (index_is_Some value (IndexByte value ")"%char + Z.of_nat i + 1))
    as [prefix ->]; [lia|].
  by eexists.
Qed.

End MembershipPrefixes.

Lemma parseMembershipPrefix_round_trip_witness :
  let available := [Scenario.op; Scenario.voice] in
  let dc := Scenario.dcWith 1 "laptop" ["multi-prefix"] in
  IrcHelpers.formatMemberPrefix (Upstream.parseMembershipPrefix available "@+carol").1 dc
    +:+ (Upstream.parseMembershipPrefix available "@+carol").2 = "@+carol"
  ∧ sublist (Upstream.parseMembershipPrefix available "@+carol").1 available.
Proof.
  intros available dc.
  apply (parseMembershipPrefix_round_trip available "@+carol" dc). reflexivity.
Defined.

Lemma parsePrefixValue_round_trip_witness :
  Upstream.parsePrefixValue "(ov)@+" = Some (Ok [Scenario.op; Scenario.voice]).
Proof.
  apply (parsePrefixValue_round_trip "ov" "@+"); reflexivity.
Defined.

(** ** Batches *)

Section Batches.
Import GoString Upstream.

(** X21. A batch opened under a name that names no open batch is recorded with
    its type, its parameters and the batch around it, and the messages
    tagged with the name are found to be of it; the name cannot be opened
    again; closing it leaves the batches as they were before, and a name
    that names no open batch cannot be closed. *)
Theorem BATCH_open_close (label label' : string) (msgBatch msgBatch' : option batch)
    (batches : gmap string batch) (name batchType : string) (params rest : list string)
    (opening closing : irc.Message) :
  batches !! name = None →
  irc.Params opening = ("+" +:+ name) :: batchType :: params →
  irc.Params closing = ("-" +:+ name) :: rest →
  ∃ batches' b,
    handleMessage_BATCH label msgBatch opening batches = Ok batches'
    ∧ batches' !! name = Some b
    ∧ b_Type b = batchType ∧ b_Params b = params ∧ b_Outer b = msgBatch
    ∧ (∀ msg, irc.Tags msg !! "batch" = Some name →
         messageBatch batches' msg = Ok (Some b))
    ∧ (∃ err, handleMessage_BATCH label' msgBatch' opening batches' = Err err)
    ∧ handleMessage_BATCH label' msgBatch' closing batches' = Ok batches
    ∧ (∃ err, handleMessage_BATCH label' msgBatch' closing batches = Err err).
Proof.
  intros Hname Hopen Hclose.
  assert (HasPrefix ("+" +:+ name) "+" = true) as Hplus by (by destruct name).
  assert (HasPrefix ("-" +:+ name) "+" = false) as Hminus' by reflexivity.
  assert (HasPrefix ("-" +:+ name) "-" = true) as Hminus by (by destruct name).
  assert (sliceFrom ("+" +:+ name) 1 = name) as Hplus_name by reflexivity.
  assert (sliceFrom ("-" +:+ name) 1 = name) as Hminus_name by reflexivity.
  unfold handleMessage_BATCH. rewrite Hopen, Hclose.
  rewrite Hplus, Hminus', Hminus, Hplus_name, Hminus_name, Hname.
  eexists _, _. split; [reflexivity|].
  rewrite lookup_insert_eq.
  split; [reflexivity|]. repeat split.
  - intros msg Htag. unfold messageBatch. by rewrite Htag, lookup_insert_eq.
  - by eexists.
  - f_equal. rewrite delete_insert_eq. by apply delete_id.
  - by eexists.
Qed.

(** X22. [updateAway] brings [uc.away] to "no downstream connection is there",
    writes one AWAY when that changes it and nothing when it does not: run
    again, it writes nothing. *)
Theorem updateAway_settles (dcs : list downstreamConn) (away : bool) :
  (updateAway dcs away).1 = bool_decide (dcs = [])
  ∧ length (updateAway dcs away).2 = (if Bool.eqb (updateAway dcs away).1 away then 0 else 1)%nat
  ∧ updateAway dcs (updateAway dcs away).1 = ((updateAway dcs away).1, []).
Proof.
  assert (foldl (λ (_ : bool) (_ : downstreamConn), false) true dcs
          = bool_decide (dcs = [])) as Hfold.
  { destruct dcs as [|dc dcs]; [reflexivity|].
    transitivity false; [|symmetry; by apply bool_decide_eq_false_2].
    simpl. clear. induction dcs as [|dc' dcs IH]; [reflexivity|exact IH]. }
  unfold updateAway. rewrite Hfold.
  destruct (bool_decide (dcs = [])), away; simpl; done.
Qed.

End Batches.

Lemma BATCH_open_close_witness :
  let opening := Scenario.numericMsg "BATCH" ["+b1"; "chathistory"; "#x"] in
  let closing := Scenario.numericMsg "BATCH" ["-b1"] in
  ∃ batches' b,
    Upstream.handleMessage_BATCH "" None opening ∅ = Ok batches'
    ∧ batches' !! "b1" = Some b
    ∧ Upstream.b_Type b = "chathistory" ∧ Upstream.b_Params b = ["#x"]
    ∧ Upstream.b_Outer b = None
    ∧ (∀ msg, irc.Tags msg !! "batch" = Some "b1" →
         Upstream.messageBatch batches' msg = Ok (Some b))
    ∧ (∃ err, Upstream.handleMessage_BATCH "" None opening batches' = Err err)
    ∧ Upstream.handleMessage_BATCH "" None closing batches' = Ok ∅
    ∧ (∃ err, Upstream.handleMessage_BATCH "" None closing ∅ = Err err).
Proof.
  intros opening closing.
  apply (BATCH_open_close "" "" None None ∅ "b1" "chathistory" ["#x"] [] opening closing);
    reflexivity.
Defined.

(** ** Capabilities that need every upstream connection *)

Section NeedAllCaps.
Import GoString Downstream.

Lemma supportedByAll_fold (upstreams : list (gmap string bool)) (name : string) :
  ∀ m : gmap string bool,
    foldl (λ supportedCaps caps,
             map_imap (λ name supported, Some (supported && cap caps name)) supportedCaps)
          m upstreams !! name
    = (λ supported, supported && forallb (λ caps, cap caps name) upstreams) <$> m !! name.
Proof.
  induction upstreams as [|caps rest IH]; intros m; simpl.
  - destruct (m !! name) as [b|]; simpl; [by rewrite andb_true_r|reflexivity].
  - rewrite IH, map_lookup_imap.
    destruct (m !! name) as [b|]; simpl; [by rewrite andb_assoc|reflexivity].
Qed.

Lemma supportedByAll_lookup (upstreams : list (gmap string bool)) (name : string) :
  default false (supportedByAll upstreams !! name)
  = bool_decide (is_Some (needAllDownstreamCaps !! name))
    && forallb (λ caps, cap caps name) upstreams.
Proof.
  unfold supportedByAll. rewrite supportedByAll_fold, lookup_fmap.
  by destruct (needAllDownstreamCaps !! name) as [v|].
Qed.

Lemma updateSupportedCapsLoop_other (hostname : string) (supportedCaps : gmap string bool)
    (name : string) (order : list string) :
  ∀ st, name ∉ order →
    cs_supportedCaps (updateSupportedCapsLoop hostname supportedCaps order st).1 !! name
      = cs_supportedCaps st !! name
    ∧ cs_caps (updateSupportedCapsLoop hostname supportedCaps order st).1 !! name
      = cs_caps st !! name.
Proof.
  induction order as [|name' rest IH]; intros st Hname; simpl; [done|].
  apply not_elem_of_cons in Hname as [Hne Hrest].
  destruct (default false (supportedCaps !! name')).
  - destruct (setSupportedCap hostname name' _ st) as [st1 written1] eqn:Hstep.
    destruct (IH st1 Hrest) as [H1 H2].
    destruct (updateSupportedCapsLoop hostname supportedCaps rest st1) as [st2 written2].
    simpl in *. rewrite H1, H2.
    unfold setSupportedCap in Hstep.
    destruct (_ || _); injection Hstep as <- _; simpl;
      by rewrite lookup_insert_ne.
  - destruct (unsetSupportedCap hostname name' st) as [st1 written1] eqn:Hstep.
    destruct (IH st1 Hrest) as [H1 H2].
    destruct (updateSupportedCapsLoop hostname supportedCaps rest st1) as [st2 written2].
    simpl in *. rewrite H1, H2.
    unfold unsetSupportedCap in Hstep.
    destruct (_ || _); injection Hstep as <- _; simpl;
      by rewrite !lookup_delete_ne.
Qed.

Lemma updateSupportedCapsLoop_at (hostname : string) (supportedCaps : gmap string bool)
    (name : string) (order : list string) :
  ∀ st, NoDup order → name ∈ order →
    cs_supportedCaps (updateSupportedCapsLoop hostname supportedCaps order st).1 !! name
      = (if default false (supportedCaps !! name)
         then Some (default "" (needAllDownstreamCaps !! name)) else None)
    ∧ cs_caps (updateSupportedCapsLoop hostname supportedCaps order st).1 !! name
      = (if default false (supportedCaps !! name) then cs_caps st !! name else None).
Proof.
  induction order as [|name' rest IH]; intros st Hnd Hin; [by apply elem_of_nil in Hin|].
  apply NoDup_cons in Hnd as [Hname' Hnd]. simpl.
  destruct (decide (name = name')) as [->|Hne].
  - destruct (default false (supportedCaps !! name')) eqn:Hsup.
    + destruct (setSupportedCap hostname name' _ st) as [st1 written1] eqn:Hstep.
      destruct (updateSupportedCapsLoop_other hostname supportedCaps name' rest st1 Hname')
        as [H1 H2].
      destruct (updateSupportedCapsLoop hostname supportedCaps rest st1) as [st2 written2].
      simpl in *. rewrite H1, H2.
      unfold setSupportedCap in Hstep.
      destruct (_ || _); injection Hstep as <- _; simpl;
        by rewrite lookup_insert_eq.
    + destruct (unsetSupportedCap hostname name' st) as [st1 written1] eqn:Hstep.
      destruct (updateSupportedCapsLoop_other hostname supportedCaps name' rest st1 Hname')
        as [H1 H2].
      destruct (updateSupportedCapsLoop hostname supportedCaps rest st1) as [st2 written2].
      simpl in *. rewrite H1, H2.
      unfold unsetSupportedCap in Hstep.
      destruct (_ || _); injection Hstep as <- _; simpl;
        by rewrite !lookup_delete_eq.
  - apply elem_of_cons in Hin as [?|Hin]; [done|].
    destruct (default false (supportedCaps !! name')).
    + destruct (setSupportedCap hostname name' _ st) as [st1 written1] eqn:Hstep.
      destruct (IH st1 Hnd Hin) as [H1 H2].
      destruct (updateSupportedCapsLoop hostname supportedCaps rest st1) as [st2 written2].
      simpl in *. rewrite H1, H2. split; [reflexivity|].
      unfold setSupportedCap in Hstep.
      by destruct (_ || _); injection Hstep as <- _.
    + destruct (unsetSupportedCap hostname name' st) as [st1 written1] eqn:Hstep.
      destruct (IH st1 Hnd Hin) as [H1 H2].
      destruct (updateSupportedCapsLoop hostname supportedCaps rest st1) as [st2 written2].
      simpl in *. rewrite H1, H2. split; [reflexivity|].
      unfold unsetSupportedCap in Hstep.
      destruct (_ || _); injection Hstep as <- _; simpl;
        by rewrite lookup_delete_ne.
Qed.

Lemma updateSupportedCapsLoop_settled (hostname : string) (supportedCaps : gmap string bool)
    (order : list string) (st : capState) :
  (∀ name, name ∈ order →
     cs_supportedCaps st !! name
       = (if default false (supportedCaps !! name)
          then Some (default "" (needAllDownstreamCaps !! name)) else None)
     ∧ (default false (supportedCaps !! name) = false → cs_caps st !! name = None)) →
  updateSupportedCapsLoop hostname supportedCaps order st = (st, []).
Proof.
  induction order as [|name rest IH]; intros Hsettled; simpl; [reflexivity|].
  destruct (Hsettled name) as [Hsup Hcaps]; [by left|].
  assert ((if default false (supportedCaps !! name)
           then setSupportedCap hostname name
                  (default "" (needAllDownstreamCaps !! name)) st
           else unsetSupportedCap hostname name st) = (st, [])) as ->.
  { destruct (default false (supportedCaps !! name)).
    - unfold setSupportedCap. rewrite Hsup, String.eqb_refl. simpl.
      rewrite orb_true_r. f_equal. destruct st as [n r v sc c]. simpl in *.
      f_equal. by apply insert_id.
    - unfold unsetSupportedCap. rewrite Hsup.
      rewrite bool_decide_eq_false_2 by (by intros [? ?]). simpl.
      rewrite orb_true_r. f_equal. destruct st as [n r v sc c]. simpl in *.
      f_equal; apply delete_id; [exact Hsup|by apply Hcaps]. }
  rewrite IH; [reflexivity|]. intros name' Hin. apply Hsettled. by right.
Qed.

(** X23. After [updateSupportedCaps], in whatever order the capabilities are
    visited: a capability that needs all the upstream connections is
    supported when every connection visited has it, all of them when none
    is visited, and is neither supported nor enabled when one has not; the
    other capabilities are as they were; and run again, it writes
    nothing. *)
Theorem updateSupportedCaps_need_all (hostname : string)
    (upstreams : list (gmap string bool)) (order : list string) (st : capState)
    (name : string) :
  order ≡ₚ (map_to_list needAllDownstreamCaps).*1 →
  let st' := (updateSupportedCapsInOrder hostname upstreams order st).1 in
  (if bool_decide (is_Some (needAllDownstreamCaps !! name))
   then if forallb (λ caps, cap caps name) upstreams
        then cs_supportedCaps st' !! name = needAllDownstreamCaps !! name
             ∧ cs_caps st' !! name = cs_caps st !! name
        else cs_supportedCaps st' !! name = None ∧ cs_caps st' !! name = None
   else cs_supportedCaps st' !! name = cs_supportedCaps st !! name
        ∧ cs_caps st' !! name = cs_caps st !! name)
  ∧ updateSupportedCapsInOrder hostname upstreams order st' = (st', []).
Proof.
  intros Horder st'.
  assert (NoDup order) as Hnd.
  { rewrite Horder. apply NoDup_fst_map_to_list. }
  assert (∀ name', name' ∈ order ↔ is_Some (needAllDownstreamCaps !! name')) as Hin.
  { intros name'. rewrite Horder. rewrite list_elem_of_fmap. split.
    - intros [[k v] [-> Hkv]]. apply elem_of_map_to_list in Hkv. by eexists.
    - intros [v Hv]. exists (name', v). split; [reflexivity|].
      by apply elem_of_map_to_list. }
  split.
  - case_bool_decide as Hneed.
    + destruct (updateSupportedCapsLoop_at hostname (supportedByAll upstreams) name order st
                  Hnd (proj2 (Hin name) Hneed)) as [H1 H2].
      subst st'. unfold updateSupportedCapsInOrder. rewrite H1, H2.
      rewrite supportedByAll_lookup, bool_decide_eq_true_2 by exact Hneed. simpl.
      destruct (forallb _ upstreams); [|done].
      split; [|reflexivity]. destruct Hneed as [v Hv]. by rewrite Hv.
    + apply updateSupportedCapsLoop_other. by rewrite Hin.
  - apply updateSupportedCapsLoop_settled. intros name' Hname'.
    destruct (updateSupportedCapsLoop_at hostname (supportedByAll upstreams) name' order st
                Hnd Hname') as [H1 H2].
    subst st'. unfold updateSupportedCapsInOrder. rewrite H1, H2. split; [reflexivity|].
    by intros ->.
Qed.

End NeedAllCaps.

Lemma updateSupportedCaps_need_all_witness :
  let order := (map_to_list Downstream.needAllDownstreamCaps).*1 in
  let st' :=
    (Downstream.updateSupportedCapsInOrder "soju" Scenario.upstreamCaps order
       Scenario.capsNotify).1 in
  (Downstream.cs_supportedCaps st' !! "multi-prefix" = Some ""
   ∧ Downstream.cs_caps st' !! "multi-prefix" = None)
  ∧ Downstream.updateSupportedCapsInOrder "soju" Scenario.upstreamCaps order st'
    = (st', []).
Proof.
  intros order st'.
  pose proof (updateSupportedCaps_need_all "soju" Scenario.upstreamCaps order
                Scenario.capsNotify "multi-prefix") as Hcaps.
  apply Hcaps. reflexivity.
Defined.

(** ** Channel modes, formatted *)

Section ChannelModesFormat.
Import GoString ChannelModes.

Lemma formatLoop_spec (entries : list (byte * string)) :
  (∀ mode value, (mode, value) ∈ entries → byteZ mode < 128) →
  ∀ (modesWithValues modesWithoutValues : string) (parameters : list string),
    formatLoop entries modesWithValues modesWithoutValues parameters
    = (modesWithValues
         +:+ string_of_list_ascii (filter (λ kv, kv.2 ≠ "") entries).*1,
       modesWithoutValues
         +:+ string_of_list_ascii (filter (λ kv, ¬ kv.2 ≠ "") entries).*1,
       (parameters ++ (filter (λ kv, kv.2 ≠ "") entries).*2)%list).
Proof.
  induction entries as [|[mode value] rest IH]; intros Hascii w wo p;
    cbn [formatLoop].
  - rewrite !filter_nil. cbn [fmap list_fmap string_of_list_ascii].
    assert (∀ s, s +:+ "" = s) as Hnil.
    { clear. induction s as [|c s IH]; [reflexivity|].
      rewrite app_cons_string. by rewrite IH. }
    by rewrite !Hnil, app_nil_r.
  - assert (byteZ mode < 128) as Hmode by (apply (Hascii mode value); by left).
    assert (∀ mode' value', (mode', value') ∈ rest → byteZ mode' < 128) as Hrest.
    { intros mode' value' Hin. apply (Hascii mode' value'). by right. }
    rewrite stringOfByte_ascii by exact Hmode.
    destruct (String.eqb_spec value "") as [->|Hvalue]; cbn [negb].
    + rewrite IH by exact Hrest.
      rewrite (filter_cons_False (λ kv : byte * string, kv.2 ≠ ""))
        by (simpl; tauto).
      rewrite (filter_cons_True (λ kv : byte * string, ¬ kv.2 ≠ ""))
        by (simpl; tauto).
      rewrite fmap_cons, string_of_bytes_cons. cbn [fst].
      by rewrite app_assoc_string.
    + rewrite IH by exact Hrest.
      rewrite (filter_cons_True (λ kv : byte * string, kv.2 ≠ ""))
        by (simpl; tauto).
      rewrite (filter_cons_False (λ kv : byte * string, ¬ kv.2 ≠ ""))
        by (simpl; tauto).
      rewrite !fmap_cons, string_of_bytes_cons. cbn [fst snd].
      by rewrite app_assoc_string, <- app_assoc.
Qed.

(** X24. In whatever order the modes are visited, the mode string [Format] gives
    is a [+] and then one letter for every mode of the channel, and the
    parameters are the values of the modes that have one, in the order of
    their letters, which come first: the k-th parameter is the value of
    the k-th letter. The mode letters are ASCII. *)
Theorem Format_parameters_aligned (cm : channelModes) (order : list (byte * string)) :
  order ≡ₚ map_to_list cm →
  (∀ mode value, cm !! mode = Some value → byteZ mode < 128) →
  HasPrefix (FormatInOrder order).1 "+" = true
  ∧ String.length (FormatInOrder order).1 = Datatypes.S (size cm)
  ∧ ∀ (k : nat) (value : string),
      (FormatInOrder order).2 !! k = Some value →
      value ≠ ""
      ∧ ∃ mode, index (FormatInOrder order).1 (Z.of_nat k + 1) = Some mode
                ∧ cm !! mode = Some value.
Proof.
  intros Horder Hascii.
  assert (∀ mode value, (mode, value) ∈ order → cm !! mode = Some value) as Hin.
  { intros mode value Hin. rewrite Horder in Hin. by apply elem_of_map_to_list in Hin. }
  unfold FormatInOrder. rewrite formatLoop_spec by (intros; eapply Hascii; eauto).
  cbv beta iota zeta. cbn [fst snd]. rewrite !app_nil_string, app_nil_l.
  set (valued := filter (λ kv : byte * string, kv.2 ≠ "") order).
  set (plain := filter (λ kv : byte * string, ¬ kv.2 ≠ "") order).
  change ("+" +:+ string_of_list_ascii valued.*1 +:+ string_of_list_ascii plain.*1)
    with (String "+" (string_of_list_ascii valued.*1 +:+ string_of_list_ascii plain.*1)).
  split; [apply HasPrefix_empty|]. split.
  - cbn [String.length]. f_equal.
    rewrite string_length_app, <- !length_bytes, !list_ascii_of_string_of_list_ascii.
    rewrite !length_fmap. subst valued plain. unfold channelModes in *.
    rewrite <- length_map_to_list, <- (Permutation_length Horder).
    clear. induction order as [|kv rest IH]; [reflexivity|].
    destruct (decide (kv.2 ≠ "")) as [Hv|Hv].
    + rewrite filter_cons_True by exact Hv.
      rewrite filter_cons_False by tauto. simpl. by rewrite IH.
    + rewrite filter_cons_False by exact Hv.
      rewrite filter_cons_True by exact Hv. simpl. rewrite <- IH. lia.
  - intros k value Hk. rewrite list_lookup_fmap in Hk.
    destruct (valued !! k) as [[mode value']|] eqn:Hvalued; [|discriminate].
    injection Hk as <-.
    assert ((mode, value') ∈ valued) as Hmem by (by eapply list_elem_of_lookup_2).
    apply list_elem_of_filter in Hmem as [Hvalue Hmem]. simpl in Hvalue.
    split; [exact Hvalue|]. exists mode. split; [|by apply Hin].
    replace (Z.of_nat k + 1) with (Z.of_nat (Datatypes.S k)) by lia.
    rewrite index_bytes. cbn [list_ascii_of_string]. rewrite lookup_cons.
    rewrite bytes_app, list_ascii_of_string_of_list_ascii.
    rewrite lookup_app_l.
    + by rewrite list_lookup_fmap, Hvalued.
    + rewrite length_fmap. by eapply lookup_lt_Some.
Qed.

End ChannelModesFormat.

Lemma Format_parameters_aligned_witness :
  let cm : ChannelModes.channelModes :=
    <["k"%char := "secret"]> (<["n"%char := ""]> (<["l"%char := "10"]> ∅)) in
  GoString.HasPrefix (ChannelModes.Format cm).1 "+" = true
  ∧ String.length (ChannelModes.Format cm).1 = Datatypes.S (size cm)
  ∧ ∀ (k : nat) (value : string),
      (ChannelModes.Format cm).2 !! k = Some value →
      value ≠ ""
      ∧ ∃ mode, GoString.index (ChannelModes.Format cm).1 (Z.of_nat k + 1) = Some mode
                ∧ cm !! mode = Some value.
Proof.
  intros cm.
  apply (Format_parameters_aligned cm (map_to_list cm)); [reflexivity|].
  intros mode value Hmode.
  apply elem_of_map_to_list in Hmode. vm_compute in Hmode.
  repeat (apply elem_of_cons in Hmode as [[= -> _]|Hmode]; [by vm_compute|]).
  by apply elem_of_nil in Hmode.
Defined.

(** ** The connections of a user *)

Section UserConnections.
Import UserConns.



End UserConnections.


(** ** The ring of the last messages *)

Section HistoryRing.
Import Logger.
Local Open Scope nat_scope.

(** What the ring holds after the messages [msgs]: each of the last [L]
    messages at its index modulo [L]. *)
Lemma ring_push (L : nat) (ring : historyRing) (msgs : list irc.Message)
    (msg : irc.Message) :
  0 < L →
  length ring = L →
  (∀ (j : nat) (m : irc.Message), msgs !! j = Some m → length msgs ≤ j + L →
          ring !! (j mod L) = Some (Some m)) →
  ∀ (j : nat) (m : irc.Message), (msgs ++ [msg])%list !! j = Some m → length (msgs ++ [msg])%list ≤ j + L →
         <[length msgs mod L := Some msg]> ring !! (j mod L) = Some (Some m).
Proof.
  unfold historyRing in *.
  intros HL Hlen Hinv j m Hj Hrange. rewrite length_app in Hrange. simpl in Hrange.
  destruct (decide (j = length msgs)) as [->|Hne].
  - rewrite lookup_app_r, Nat.sub_diag in Hj by lia. injection Hj as <-.
    apply list_lookup_insert_eq. rewrite Hlen. apply Nat.mod_upper_bound. lia.
  - assert (j < length msgs) as Hlt.
    { apply lookup_lt_Some in Hj. rewrite length_app in Hj. simpl in Hj. lia. }
    rewrite lookup_app_l in Hj by exact Hlt.
    rewrite list_lookup_insert_ne; [apply Hinv; [exact Hj|lia]|].
    intros Hmod.
    pose proof (Nat.div_mod_eq j L) as Hdj.
    pose proof (Nat.div_mod_eq (length msgs) L) as Hdk.
    rewrite Hmod in Hdk.
    destruct (decide (length msgs `div` L ≤ j `div` L)) as [Hq|Hq]; nia.
Qed.

Lemma scan_ring (limit : Z) (L : nat) (after : list line) :
  0 < L → limit = Z.of_nat L →
  (after = [] ∨ ∃ msg rest, after = Entry false msg :: rest) →
  ∀ (before : list line) (ring : historyRing) (msgs : list irc.Message),
    Forall (λ l, l = Skipped ∨ ∃ msg, l = Entry true msg) before →
    length ring = L →
    (∀ (j : nat) (m : irc.Message), msgs !! j = Some m → length msgs ≤ j + L →
            ring !! (j mod L) = Some (Some m)) →
    ∃ ring',
      scan limit (before ++ after)%list ring (Z.of_nat (length msgs))
      = Some (Ok (ring',
                  Z.of_nat (length (msgs ++ omap (λ l, match l with
                                                       | Entry _ msg => Some msg
                                                       | _ => None
                                                       end) before)%list)))
      ∧ length ring' = L
      ∧ ∀ (j : nat) (m : irc.Message),
          (msgs ++ omap (λ l, match l with
                              | Entry _ msg => Some msg
                              | _ => None
                              end) before)%list !! j = Some m →
          length (msgs ++ omap (λ l, match l with
                                     | Entry _ msg => Some msg
                                     | _ => None
                                     end) before)%list ≤ j + L →
          ring' !! (j mod L) = Some (Some m).
Proof.
  unfold historyRing in *. intros HL Hlimit Hafter before.
  induction before as [|l before IH]; intros ring msgs Hbefore Hlen Hinv.
  - exists ring. simpl. rewrite app_nil_r. split; [|by split].
    destruct Hafter as [->|(msg & rest & ->)]; reflexivity.
  - apply Forall_cons in Hbefore as [Hl Hbefore].
    destruct Hl as [->|[msg ->]].
    + simpl. by apply IH.
    + cbn [app scan negb omap].
      assert ((limit =? 0)%Z = false) as -> by (apply Z.eqb_neq; lia).
      assert (Z.to_nat (Z.rem (Z.of_nat (length msgs)) limit) = length msgs mod L) as ->.
      { rewrite Z.rem_mod_nonneg by lia. rewrite Hlimit, <- Nat2Z.inj_mod. lia. }
      destruct (IH (<[length msgs mod L := Some msg]> ring) (msgs ++ [msg])%list)
        as (ring' & Hscan & Hlen' & Hinv').
      * exact Hbefore.
      * by rewrite length_insert.
      * by apply ring_push.
      * exists ring'.
        replace (Z.of_nat (length msgs) + 1)%Z
          with (Z.of_nat (length (msgs ++ [msg])%list))
          by (rewrite length_app; simpl; lia).
        rewrite <- !app_assoc in Hscan, Hinv'. cbn [app] in Hscan, Hinv'.
        by split; [|split].
Qed.

(** X26. For a positive limit, and lines [fmt.Sscanf] reads up to the first
    message that is not before the timestamp, [parseMessagesBefore] returns
    the last [limit] of the messages before the timestamp, all of them when
    they are fewer, the oldest first: the ring forgets the oldest message
    at each message beyond [limit]. *)
Theorem parseMessagesBefore_last (limit : Z) (before after : list line) :
  (0 < limit)%Z →
  Forall (λ l, l = Skipped ∨ ∃ msg, l = Entry true msg) before →
  (after = [] ∨ ∃ msg rest, after = Entry false msg :: rest) →
  parseMessagesBefore limit (before ++ after)%list
  = Some (Ok (Some <$> drop (length (omap (λ l, match l with
                                                | Entry _ msg => Some msg
                                                | _ => None
                                                end) before)
                             - Z.to_nat limit)
                            (omap (λ l, match l with
                                        | Entry _ msg => Some msg
                                        | _ => None
                                        end) before))).
Proof.
  unfold historyRing in *. intros Hpos Hbefore Hafter.
  set (L := Z.to_nat limit).
  assert (0 < L) as HL by lia.
  assert (limit = Z.of_nat L) as Hlimit by lia.
  destruct (scan_ring limit L after HL Hlimit Hafter before (replicate L None) [])
    as (ring & Hscan & Hlen & Hinv).
  - exact Hbefore.
  - apply length_replicate.
  - intros j m Hj. by rewrite lookup_nil in Hj.
  - unfold parseMessagesBefore.
    assert ((limit <? 0)%Z = false) as -> by (apply Z.ltb_ge; lia).
    fold L. change (Z.of_nat (length (@nil irc.Message))) with 0%Z in Hscan.
    rewrite Hscan. clear Hscan.
    rewrite app_nil_l in *.
    set (msgs := omap (λ l, match l with
                            | Entry _ msg => Some msg
                            | _ => None
                            end) before) in *.
    set (k := length msgs) in *.
    assert ((limit =? 0)%Z = false) as -> by (apply Z.eqb_neq; lia).
    pose proof (Nat.div_mod_eq k L) as Hk.
    pose proof (Nat.mod_upper_bound k L ltac:(lia)) as Hs.
    destruct (Z.ltb_spec (Z.of_nat k) limit) as [Hfew|Hmany].
    + (* fewer messages than the limit: the ring has not wrapped *)
      replace (Z.of_nat k - Z.of_nat k + limit)%Z with limit by lia.
      rewrite Z.rem_same by lia.
      assert ((0 + Z.of_nat k <=? limit)%Z = true) as -> by (apply Z.leb_le; lia).
      replace (Z.to_nat (0 + Z.of_nat k) - Z.to_nat 0) with k by lia.
      replace (k - L) with 0 by lia. change (Z.to_nat 0) with 0. rewrite !drop_0.
      do 2 f_equal.
      apply list_eq. intros t. rewrite list_lookup_fmap.
      destruct (decide (t < k)) as [Ht|Ht].
      * rewrite lookup_take_lt by exact Ht.
        destruct (lookup_lt_is_Some_2 msgs t Ht) as [m Hm].
        rewrite Hm. simpl. rewrite <- (Nat.mod_small t L) by lia.
        apply Hinv; [exact Hm|lia].
      * rewrite lookup_take_ge by lia.
        by rewrite (proj2 (lookup_ge_None msgs t)) by (fold k; lia).
    + (* the ring is full: it starts at [cur%limit] *)
      replace (Z.of_nat k - limit + limit)%Z with (Z.of_nat k) by lia.
      rewrite Z.rem_mod_nonneg by lia.
      assert ((Z.of_nat k mod limit)%Z = Z.of_nat (k mod L)) as ->.
      { by rewrite Hlimit, <- Nat2Z.inj_mod. }
      set (s := k mod L) in *.
      assert (∀ t, t < L →
                ring !! ((s + t) mod L) = (Some <$> drop (k - L) msgs) !! t) as Hring.
      { intros t Ht. rewrite list_lookup_fmap, lookup_drop.
        destruct (lookup_lt_is_Some_2 msgs (k - L + t)) as [m Hm]; [fold k; lia|].
        rewrite Hm. simpl. rewrite <- (Hinv (k - L + t) m Hm) by (fold k; lia).
        f_equal.
        assert (1 ≤ k `div` L) as Hq by (apply Nat.div_le_lower_bound; lia).
        destruct (decide (s + t < L)) as [Hst|Hst].
        - rewrite (Nat.mod_small (s + t)) by exact Hst.
          apply (Nat.mod_unique _ _ (k `div` L - 1)); [exact Hst|]. nia.
        - rewrite <- (Nat.mod_unique (s + t) L 1 (s + t - L)) by lia.
          apply (Nat.mod_unique _ _ (k `div` L)); [lia|]. nia. }
      destruct (Z.leb_spec (Z.of_nat s + limit) limit) as [Hflat|Hwrap].
      * assert (s = 0) as Hs0 by lia.
        replace (Z.to_nat (Z.of_nat s + limit) - Z.to_nat (Z.of_nat s)) with L by lia.
        rewrite Nat2Z.id, Hs0 in *. rewrite drop_0. do 2 f_equal.
        apply list_eq. intros t.
        destruct (decide (t < L)) as [Ht|Ht].
        -- rewrite lookup_take_lt by exact Ht.
           rewrite <- Hring by exact Ht. simpl. by rewrite Nat.mod_small.
        -- rewrite lookup_take_ge by lia. symmetry. apply lookup_ge_None.
           rewrite length_fmap, list.length_drop. fold k. lia.
      * replace (Z.to_nat (Z.min limit (limit - Z.of_nat s))) with (L - s) by lia.
        replace (Z.to_nat (limit - Z.min limit (limit - Z.of_nat s))) with s by lia.
        rewrite Nat2Z.id. do 2 f_equal.
        apply list_eq. intros t.
        destruct (decide (t < L - s)) as [Ht|Ht].
        -- rewrite lookup_app_l by (rewrite length_take, list.length_drop; lia).
           rewrite lookup_take_lt by exact Ht. rewrite lookup_drop.
           rewrite <- Hring by lia. by rewrite Nat.mod_small by lia.
        -- rewrite lookup_app_r by (rewrite length_take, list.length_drop; lia).
           rewrite length_take, list.length_drop, Hlen.
           replace ((L - s) `min` (L - s)) with (L - s) by lia.
           destruct (decide (t < L)) as [HtL|HtL].
           ++ rewrite lookup_take_lt by lia.
              rewrite <- Hring by lia. f_equal.
              apply (Nat.mod_unique _ _ 1); lia.
           ++ rewrite lookup_take_ge by lia. symmetry. apply lookup_ge_None.
              rewrite length_fmap, list.length_drop. fold k. lia.
Qed.

(** X27. With the limit 0 no message is returned: the function fails on a line
    it does not read or divides by zero. *)
Theorem parseMessagesBefore_limit_0 (lines : list line) :
  parseMessagesBefore 0 lines = None
  ∨ ∃ err, parseMessagesBefore 0 lines = Some (Err err).
Proof.
  unfold parseMessagesBefore. simpl.
  destruct (scan 0 lines [] 0) as [[[ring cur]|err]|]; [by left|right|by left].
  by exists err.
Qed.

End HistoryRing.

(** Three messages before the timestamp and one after it, with the limit
    2. *)
Lemma parseMessagesBefore_last_witness :
  let m (text : string) := Scenario.privmsg Scenario.carol "#x" text in
  Logger.parseMessagesBefore 2
    [Logger.Entry true (m "one"); Logger.Skipped; Logger.Entry true (m "two");
     Logger.Entry true (m "three"); Logger.Entry false (m "four")]
  = Some (Ok [Some (m "two"); Some (m "three")]).
Proof.
  intros m.
  apply (parseMessagesBefore_last 2
           [Logger.Entry true (m "one"); Logger.Skipped; Logger.Entry true (m "two");
            Logger.Entry true (m "three")]
           [Logger.Entry false (m "four")]).
  - reflexivity.
  - repeat (apply Forall_cons_2; [first [by left|right; by eexists]|]).
    apply Forall_nil_2.
  - right. by eexists _, _.
Defined.

(** ** What a highlight is *)

Section HighlightMentions.
Import GoString Utf8.
Context {tables : Unicode}.

Lemma HasPrefix_split (s prefix : string) :
  HasPrefix s prefix = true → s = (prefix +:+ drop (String.length prefix) s).
Proof.
  revert s. induction prefix as [|p prefix IH]; intros s; [reflexivity|].
  destruct s as [|c s]; simpl; [discriminate|].
  destruct (Ascii.eqb_spec p c) as [->|]; [|discriminate].
  intros Hp. rewrite app_cons_string. f_equal. by apply IH.
Qed.

Lemma indexFrom_occurs (substr : string) (s : string) :
  ∀ pos, 0 ≤ pos → 0 ≤ indexFrom s substr pos →
    s = (take (Z.to_nat (indexFrom s substr pos - pos)) s
         +:+ substr
         +:+ drop (Z.to_nat (indexFrom s substr pos - pos) + String.length substr) s).
Proof.
  induction s as [|c s IH]; intros pos Hpos; rewrite indexFrom_unfold.
  - destruct (HasPrefix "" substr) eqn:Hp; [|lia]. intros _.
    rewrite Z.sub_diag. simpl. by apply HasPrefix_split.
  - destruct (HasPrefix (String c s) substr) eqn:Hp.
    + intros _. rewrite Z.sub_diag. simpl take. rewrite app_nil_string.
      by apply HasPrefix_split.
    + intros Hi.
      destruct (indexFrom_bound s substr (pos + 1)) as [Hm|[Hle _]]; [lia|].
      replace (Z.to_nat (indexFrom s substr (pos + 1) - pos))
        with (Datatypes.S (Z.to_nat (indexFrom s substr (pos + 1) - (pos + 1)))) by lia.
      simpl. rewrite app_cons_string. f_equal. apply IH; lia.
Qed.

Lemma Index_occurs (text nick : string) :
  0 ≤ Index text nick →
  text = (sliceTo text (Index text nick) +:+ nick
          +:+ sliceFrom text (Index text nick + len nick)).
Proof.
  intros Hi. unfold Index in *.
  pose proof (indexFrom_occurs nick text 0 ltac:(lia) Hi) as Hoccurs.
  rewrite Z.sub_0_r in Hoccurs. unfold sliceTo, sliceFrom, len.
  replace (Z.to_nat (indexFrom text nick 0 + Z.of_nat (String.length nick)))
    with (Z.to_nat (indexFrom text nick 0) + String.length nick)%nat by lia.
  exact Hoccurs.
Qed.

Lemma Irc_isHighlightFuel_occurs (nick : string) :
  ∀ fuel text, Irc.isHighlightFuel fuel text nick = Some true →
    ∃ pre post, text = (pre +:+ nick +:+ post).
Proof.
  induction fuel as [|fuel IH]; intros text; [discriminate|]. simpl.
  destruct (Z.ltb_spec (Index text nick) 0) as [Hi|Hi]; [discriminate|].
  destruct (_ && _).
  - intros _. eexists _, _. by apply Index_occurs.
  - intros Hrest. apply IH in Hrest as (pre & post & Hrest).
    exists (sliceTo text (Index text nick) +:+ nick +:+ pre), post.
    rewrite !app_assoc_string, <- Hrest. by apply Index_occurs.
Qed.

Lemma Upstream_isHighlightFuel_occurs (nick : string) :
  ∀ fuel text, UpstreamHighlight.isHighlightFuel fuel text nick = Some true →
    ∃ pre post, text = (pre +:+ nick +:+ post).
Proof.
  induction fuel as [|fuel IH]; intros text; [discriminate|]. simpl.
  destruct (Z.ltb_spec (Index text nick) 0) as [Hi|Hi]; [discriminate|].
  destruct (_ && _).
  - intros _. eexists _, _. by apply Index_occurs.
  - intros Hrest. apply IH in Hrest as (pre & post & Hrest).
    exists (sliceTo text (Index text nick) +:+ nick +:+ pre), post.
    rewrite !app_assoc_string, <- Hrest. by apply Index_occurs.
Qed.

(** X28. A highlight mentions the nick: both highlight tests say yes only of a
    text the nick occurs in, and for a network only of a PRIVMSG or NOTICE
    from a nick other than the user's, whose text the user's nick occurs
    in. *)
Theorem highlight_mentions_nick (text nick : string) (net : User.network)
    (msg : irc.Message) :
  (Irc.isHighlight text nick = Some true → ∃ pre post, text = (pre +:+ nick +:+ post))
  ∧ (UpstreamHighlight.isHighlight text nick = Some true →
       ∃ pre post, text = (pre +:+ nick +:+ post))
  ∧ (Downstream.isHighlight net msg = Downstream.Ret true →
       ∃ (p : irc.Prefix) (target body : string) (rest : list string) (pre post : string),
         (irc.Command msg = "PRIVMSG" ∨ irc.Command msg = "NOTICE")
         ∧ irc.MPrefix msg = Some p
         ∧ irc.Params msg = target :: body :: rest
         ∧ irc.Name p ≠ match User.net_conn net with
                        | Some uc => User.uc_nick uc
                        | None => User.net_Nick net
                        end
         ∧ body = (pre +:+ match User.net_conn net with
                           | Some uc => User.uc_nick uc
                           | None => User.net_Nick net
                           end +:+ post)).
Proof.
  split; [apply Irc_isHighlightFuel_occurs|].
  split; [apply Upstream_isHighlightFuel_occurs|].
  unfold Downstream.isHighlight.
  destruct (decide (irc.Command msg = "PRIVMSG")) as [Hcmd|Hcmd].
  - rewrite (bool_decide_eq_false_2 (irc.Command msg ≠ "PRIVMSG")) by tauto. simpl.
    destruct (irc.Params msg) as [|target [|body rest]]; try discriminate.
    destruct (irc.MPrefix msg) as [p|]; [|discriminate].
    case_bool_decide as Hname; [|discriminate].
    destruct (Irc.isHighlight body _) as [[]|] eqn:Hhl; try discriminate.
    intros _. apply Irc_isHighlightFuel_occurs in Hhl as (pre & post & Hbody).
    exists p, target, body, rest, pre, post. repeat split; try done. by left.
  - rewrite (bool_decide_eq_true_2 (irc.Command msg ≠ "PRIVMSG")) by exact Hcmd.
    destruct (decide (irc.Command msg = "NOTICE")) as [Hcmd'|Hcmd'].
    + rewrite (bool_decide_eq_false_2 (irc.Command msg ≠ "NOTICE")) by tauto. simpl.
      destruct (irc.Params msg) as [|target [|body rest]]; try discriminate.
      destruct (irc.MPrefix msg) as [p|]; [|discriminate].
      case_bool_decide as Hname; [|discriminate].
      destruct (Irc.isHighlight body _) as [[]|] eqn:Hhl; try discriminate.
      intros _. apply Irc_isHighlightFuel_occurs in Hhl as (pre & post & Hbody).
      exists p, target, body, rest, pre, post. repeat split; try done. by right.
    + rewrite (bool_decide_eq_true_2 (irc.Command msg ≠ "NOTICE")) by exact Hcmd'.
      discriminate.
Qed.

Lemma Index_app_self (nick rest : string) : Index (nick +:+ rest) nick = 0.
Proof. unfold Index. rewrite indexFrom_unfold. by rewrite HasPrefix_app. Qed.

Lemma sliceFrom_len_app (nick rest : string) : sliceFrom (nick +:+ rest) (0 + len nick) = rest.
Proof. unfold sliceFrom, len. rewrite Z.add_0_l, Nat2Z.id. apply string_drop_app. Qed.

Lemma app_empty_string (s : string) : s +:+ "" = s.
Proof.
  induction s as [|c s IH]; [reflexivity|]. rewrite app_cons_string. by rewrite IH.
Qed.

(** X29. The left boundary of an occurrence is looked for in what is left of the
    text after the occurrence before it: a text that is the nick twice in
    a row is a highlight, though neither occurrence stands as a word of
    its own there. The end of the text (the rune error of an empty
    decoding, and the zero rune of upstream.go) is a word boundary, and the
    first rune of the nick is not. *)
Theorem isHighlight_nick_twice (nick : string) :
  Irc.isWordBoundary RuneError = true →
  UpstreamHighlight.isWordBoundary RuneError = true →
  UpstreamHighlight.isWordBoundary 0 = true →
  Irc.isWordBoundary (DecodeRuneInString nick).1 = false →
  UpstreamHighlight.isWordBoundary (DecodeRuneInString nick).1 = false →
  Irc.isHighlight (nick +:+ nick) nick = Some true
  ∧ UpstreamHighlight.isHighlight (nick +:+ nick) nick = Some true.
Proof.
  intros Herr Herr' Hzero Hfirst Hfirst'.
  assert (nick ≠ "") as Hnick.
  { intros ->. simpl in Hfirst. congruence. }
  assert (∃ n, String.length (nick +:+ nick) = Datatypes.S n) as [n Hn].
  { destruct nick as [|c nick]; [done|]. rewrite app_cons_string. simpl. by eexists. }
  assert (0 < len nick) as Hlen.
  { unfold len. destruct nick; [done|]. simpl String.length. lia. }
  pose proof (Index_app_self nick "") as Hself. rewrite app_empty_string in Hself.
  pose proof (sliceFrom_len_app nick "") as Hend. rewrite app_empty_string in Hend.
  split.
  - unfold Irc.isHighlight. rewrite Hn.
    cbn [Irc.isHighlightFuel]. rewrite Index_app_self. cbn [Z.ltb Z.compare].
    rewrite sliceFrom_len_app.
    change (sliceTo (nick +:+ nick) 0) with "".
    change (DecodeLastRuneInString "").1 with RuneError.
    rewrite Herr, Hfirst. cbn [andb].
    rewrite Hself. cbn [Z.ltb Z.compare]. rewrite Hend.
    change (sliceTo nick 0) with "".
    change (DecodeLastRuneInString "").1 with RuneError.
    change (DecodeRuneInString "").1 with RuneError.
    by rewrite Herr.
  - unfold UpstreamHighlight.isHighlight. rewrite Hn.
    cbn [UpstreamHighlight.isHighlightFuel]. rewrite Index_app_self.
    cbn [Z.ltb Z.compare]. rewrite sliceFrom_len_app.
    assert ((0 <? len (nick +:+ nick)) = true) as ->.
    { apply Z.ltb_lt. unfold len. rewrite Hn. lia. }
    rewrite Hzero, Hfirst'. cbn [andb].
    rewrite Hself. cbn [Z.ltb Z.compare]. rewrite Hend.
    assert ((0 <? len nick) = true) as -> by (by apply Z.ltb_lt).
    change (DecodeRuneInString "").1 with RuneError.
    by rewrite Hzero, Herr'.
Qed.

End HighlightMentions.

Lemma highlight_mentions_nick_witness :
  ∃ pre post, "hi soju!" = (pre +:+ "soju" +:+ post).
Proof.
  apply (highlight_mentions_nick (tables := asciiTables) "hi soju!" "soju"
           (Scenario.network1 false Scenario.emptyDelivered)
           (Scenario.privmsg Scenario.carol "#x" "hi soju!")).
  reflexivity.
Defined.

Lemma isHighlight_nick_twice_witness :
  Irc.isHighlight (tables := asciiTables) "bobbob" "bob" = Some true
  ∧ UpstreamHighlight.isHighlight (tables := asciiTables) "bobbob" "bob" = Some true.
Proof.
  apply (isHighlight_nick_twice (tables := asciiTables) "bob"); reflexivity.
Defined.

(** ** A coarser casemapping keeps the names *)

Section CoarserCasemapping.
Import GoString Irc.
Context {V : Type}.

Lemma rehash_is_Some (newCasemap : casemapping) (name : string)
    (entries : list (casemapEntry V)) :
  ∀ acc : gmap string (casemapEntry V),
    (∃ entry, entry ∈ entries ∧ newCasemap (originalKey entry) = name)
    ∨ is_Some (acc !! name) →
    is_Some (rehash newCasemap entries acc !! name).
Proof.
  induction entries as [|e rest IH]; intros acc Hname; simpl.
  - destruct Hname as [(entry & Hin & _)|Hacc]; [|exact Hacc].
    by apply elem_of_nil in Hin.
  - apply IH. destruct Hname as [(entry & Hin & Hentry)|Hacc].
    + apply elem_of_cons in Hin as [->|Hin].
      * right. rewrite Hentry. rewrite lookup_insert_eq. by eexists.
      * left. by exists entry.
    + right. destruct (decide (newCasemap (originalKey e) = name)) as [->|Hne].
      * rewrite lookup_insert_eq. by eexists.
      * by rewrite lookup_insert_ne.
Qed.

(** X30. When the new casemapping takes for the same whatever the old one does,
    as rfc1459 does of ascii and of rfc1459-strict, every name the map has
    it still has after [SetCasemapping], in whatever order the entries are
    visited: entries may be merged, no name is lost. *)
Theorem SetCasemapping_keeps_names (cm : casemapMap V) (newCasemap : casemapping)
    (order : list (string * casemapEntry V)) (name : string) :
  wellKeyed cm →
  iterationOrder cm order →
  (∀ a b, casemap cm a = casemap cm b → newCasemap a = newCasemap b) →
  Has cm name = true →
  Has (SetCasemappingInOrder order newCasemap cm) name = true.
Proof.
  intros Hwk Horder Hcoarser Hhas. unfold Has in *.
  apply bool_decide_eq_true in Hhas as [entry Hentry].
  apply bool_decide_eq_true. simpl.
  apply rehash_is_Some. left. exists entry. split.
  - apply list_elem_of_fmap. exists (casemap cm name, entry).
    split; [reflexivity|]. rewrite Horder. by apply elem_of_map_to_list.
  - apply Hcoarser. by apply (Hwk _ _ Hentry).
Qed.

End CoarserCasemapping.

Lemma SetCasemapping_keeps_names_witness :
  Irc.Has (Irc.SetCasemapping Irc.casemapASCII Scenario.twoCases) "Foo" = true.
Proof.
  apply (SetCasemapping_keeps_names Scenario.twoCases Irc.casemapASCII
           (map_to_list (Irc.innerMap Scenario.twoCases)) "Foo").
  - apply SetValue_wellKeyed, SetValue_wellKeyed, newCasemapMap_wellKeyed.
  - by unfold Irc.iterationOrder.
  - intros a b Hab. change (a = b) in Hab. by rewrite Hab.
  - reflexivity.
Defined.
